(** * tabletop: the dice-formula lexer, parser and evaluator of [dice.py]

    A shallow embedding of [Die], [DiceBagItem], [DiceBag], [Lexer] and
    [Parser], followed by the properties of the lexing / parsing / rolling
    pipeline.

    Modelling conventions.
    - Python [int] is [Z]; positions in the text are [nat].
    - A formula is a [string]; its characters are code points below 256,
      and [isspace] / [isdecimal] are Python's [str.isspace] /
      [str.isdecimal] on that range.
    - A raised exception is [Raise e]; the [while] loops are recursive
      functions over a fuel argument, started with the length of the text,
      and [OutOfFuel] is the outcome of a loop that was cut short.
      [from_str_total] shows that this never happens to [from_str].
    - [random.randint] reads a random source that is passed explicitly.
    - [assert] statements are executed.
    - Integers are unbounded, and the interpreter's limit on conversions
      between [int] and [str] is modelled at its default of 4300 digits
      ([sys.int_info.default_max_str_digits]; the module does not change
      it): [int] of a longer run of digits and [str] of an integer with
      more digits raise [DigitLimit]. *)

From Stdlib Require Import ZArith Lia Ascii.
From stdpp Require Import prelude strings pretty.

Local Open Scope Z_scope.

(** ** Token types, exceptions and outcomes *)

Inductive TokenType := INTEGER | DELIM | PLUS | MINUS | EOF.

Global Instance TokenType_eq_dec : EqDecision TokenType.
Proof. solve_decision. Defined.

Inductive Exception :=
| InvalidInput (text : string)
    (* ValueError("Invalid input text of: ...") *)
| InvalidCharacter (c : ascii) (index : nat)
    (* ValueError("Invalid character ... at index ...") *)
| UnexpectedToken (expected actual : TokenType)
    (* ValueError("Expected token with type ... but got ...") *)
| InvalidArgument (ahead : Z)
    (* AssertionError: peek_next_token() must look ahead at least 1 token *)
| AttributeError
    (* 'NoneType' object has no attribute 'isdecimal' *)
| AssertionError
    (* a failed [assert] of [integer] or [die] *)
| InvalidLiteral (s : string)
    (* ValueError: invalid literal for int() *)
| DigitLimit
    (* ValueError: Exceeds the limit (4300 digits) for integer string
       conversion *)
| UnboundLocalError
| EmptyRange (a b : Z).
    (* ValueError: empty range in randrange(a, b + 1) *)

Inductive Outcome (A : Type) :=
| Return (a : A)
| Raise (e : Exception)
| OutOfFuel.
Arguments Return {A} a.
Arguments Raise {A} e.
Arguments OutOfFuel {A}.

Definition bind {A B} (m : Outcome A) (k : A -> Outcome B) : Outcome B :=
  match m with
  | Return a => k a
  | Raise e => Raise e
  | OutOfFuel => OutOfFuel
  end.

Notation "'let*' p ':=' m 'in' k" := (bind m (fun p => k))
  (at level 10, p pattern, m at level 100, k at level 200).

(** ** Characters *)

Definition ord (c : ascii) : N := N_of_ascii c.

(** [str.isdecimal] below code point 256: the digits 0-9. *)
Definition isdecimal (c : ascii) : bool :=
  ((48 <=? ord c) && (ord c <=? 57))%N.

(** [str.isspace] below code point 256: TAB, LF, VT, FF, CR, the four
    separators FS GS RS US, SPACE, NEL and NO-BREAK SPACE. *)
Definition isspace (c : ascii) : bool :=
  (((9 <=? ord c) && (ord c <=? 13)) || ((28 <=? ord c) && (ord c <=? 32))
   || (ord c =? 133) || (ord c =? 160))%N.

(** The value of a decimal digit. *)
Definition digit_value (c : ascii) : Z := Z.of_N (ord c) - 48.

(** The length of the run of digits at the head of [s]. *)
Fixpoint digit_count (s : string) : nat :=
  match s with
  | String c s' => if isdecimal c then S (digit_count s') else O
  | EmptyString => O
  end.

(** The default limit on the number of digits of a conversion between
    [int] and [str], and the least natural number with more digits. *)
Definition max_str_digits : Z := 4300.

Definition digit_limit : Z := 10 ^ max_str_digits.

(** [int(s)] for the strings [Lexer.integer] builds: a non-empty run of
    decimal digits, of which there are at most [max_str_digits]. *)
Fixpoint int_loop (acc : Z) (s : string) : option Z :=
  match s with
  | EmptyString => Some acc
  | String c s' =>
      if isdecimal c then int_loop (10 * acc + digit_value c) s' else None
  end.

Definition int (s : string) : Outcome Z :=
  match s with
  | EmptyString => Raise (InvalidLiteral s)
  | _ =>
      if max_str_digits <? Z.of_nat (digit_count s) then Raise DigitLimit
      else match int_loop 0 s with
           | Some n => Return n
           | None => Raise (InvalidLiteral s)
           end
  end.

(** ** Tokens *)

Inductive TokenValue :=
| VInt (n : Z)
| VStr (s : string)
| VNone.

Module Token.
Record t := mk { type : TokenType; value : TokenValue }.
End Token.

(** ** Dice *)

Module Random.
(** The random source: an arbitrary sequence of raw numbers and the number
    of them already used. *)
Record t := mk { source : nat -> N; drawn : nat }.

(** [random.randint(a, b)]: an integer of the closed interval [a, b]. *)
Definition randint (a b : Z) (r : t) : Outcome (Z * t) :=
  if b <? a then Raise (EmptyRange a b)
  else Return (a + Z.of_N (source r (drawn r)) mod (b - a + 1),
               {| source := source r; drawn := S (drawn r) |}).
End Random.

(** [str(n)] and [format(n, "+")] for an [int].  [decimal] is the text:
    [pretty] writes an integer in decimal, with a minus sign when it is
    negative.  The conversion raises for an integer of more than
    [max_str_digits] digits, the sign not counted. *)
Definition decimal (n : Z) : string := pretty n.

Definition str_int (n : Z) : Outcome string :=
  if digit_limit <=? Z.abs n then Raise DigitLimit else Return (decimal n).

Definition format_plus (n : Z) : Outcome string :=
  let* s := str_int n in
  Return (if n <? 0 then s else "+" +:+ s).

Module Die.
Record t := mk { sides : Z; num_dice : Z; modifier : Z }.

(** [Die.__str__]: the fields are formatted from left to right. *)
Definition str (self : t) : Outcome string :=
  if modifier self =? 0 then
    let* n := str_int (num_dice self) in
    let* s := str_int (sides self) in
    Return (n +:+ "d" +:+ s)
  else
    let* n := str_int (num_dice self) in
    let* s := str_int (sides self) in
    let* m := format_plus (modifier self) in
    Return (n +:+ "d" +:+ s +:+ m).

(** [sum(random.randint(1, sides) for _ in range(n))], [total] being the
    running sum. *)
Fixpoint sum_draws (n : nat) (sides : Z) (total : Z) (r : Random.t)
  : Outcome (Z * Random.t) :=
  match n with
  | O => Return (total, r)
  | S n' =>
      let* (x, r') := Random.randint 1 sides r in
      sum_draws n' sides (total + x) r'
  end.

(** [Die.roll] *)
Definition roll (self : t) (r : Random.t) : Outcome (Z * Random.t) :=
  let* (total, r') := sum_draws (Z.to_nat (num_dice self)) (sides self) 0 r in
  Return (total + modifier self, r').
End Die.

Module DiceBagItem.
Record t := mk { die : Die.t; subtracted : bool }.

(** [DiceBagItem.roll] *)
Definition roll (self : t) (r : Random.t) : Outcome (Z * Random.t) :=
  let multiplier := if subtracted self then -1 else 1 in
  let* (x, r') := Die.roll (die self) r in
  Return (multiplier * x, r').
End DiceBagItem.

Module DiceBag.
Record t := mk { _bag : list DiceBagItem.t }.

(** [DiceBag.__len__] *)
Definition len (self : t) : nat := length (_bag self).

(** [DiceBag.__getitem__] for an integer key: [self._bag[key].die].  A
    negative key counts from the end; out of range the list raises
    [IndexError], here [None]. *)
Definition getitem (self : t) (key : Z) : option Die.t :=
  let n := Z.of_nat (length (_bag self)) in
  let i := if key <? 0 then key + n else key in
  if (i <? 0) || (n <=? i) then None
  else DiceBagItem.die <$> _bag self !! Z.to_nat i.

(** The [for item in self._bag[1:]] loop of [DiceBag.__str__]. *)
Fixpoint str_loop (items : list DiceBagItem.t) (to_return : string)
  : Outcome string :=
  match items with
  | [] => Return to_return
  | item :: items' =>
      let* d := Die.str (DiceBagItem.die item) in
      str_loop items'
        (to_return +:+ " "
           +:+ (if DiceBagItem.subtracted item then "-" else "+")
           +:+ " " +:+ d)
  end.

(** [DiceBag.__str__] *)
Definition str (self : t) : Outcome string :=
  match _bag self with
  | [] => Return "<empty DiceBag>"
  | item0 :: items =>
      let* d0 := Die.str (DiceBagItem.die item0) in
      str_loop items d0
  end.

(** [DiceBag.add_die] *)
Definition add_die (self : t) (die : Die.t) (subtracted : bool) : t :=
  {| _bag := _bag self ++ [DiceBagItem.mk die subtracted] |}.

(** [sum(die.roll() for die in self._bag)] *)
Fixpoint sum_rolls (items : list DiceBagItem.t) (total : Z) (r : Random.t)
  : Outcome (Z * Random.t) :=
  match items with
  | [] => Return (total, r)
  | item :: items' =>
      let* (x, r') := DiceBagItem.roll item r in
      sum_rolls items' (total + x) r'
  end.

(** [DiceBag.roll] *)
Definition roll (self : t) (r : Random.t) : Outcome (Z * Random.t) :=
  sum_rolls (_bag self) 0 r.
End DiceBag.

(** ** Lexer *)

Module Lexer.
Record t := mk {
  text : string;
  _pos : nat;
  current_char : option ascii
}.

(** [Lexer.__init__] *)
Definition init (text : string) : Outcome t :=
  match text with
  | EmptyString => Raise (InvalidInput text)
  | _ => Return {| text := text; _pos := 0; current_char := String.get 0 text |}
  end.

(** The [pos] property: getter and setter. *)
Definition pos (self : t) : nat := _pos self.

Definition set_pos (self : t) (value : nat) : t :=
  {| text := text self;
     _pos := value;
     current_char :=
       if (String.length (text self) <=? value)%nat then None
       else String.get value (text self) |}.

(** [Lexer.advance] *)
Definition advance (self : t) : t := set_pos self (pos self + 1).

(** The [while] loop of [skip_whitespace]. *)
Fixpoint skip_whitespace_loop (fuel : nat) (self : t) : Outcome t :=
  match current_char self with
  | Some c =>
      if isspace c then
        match fuel with
        | O => OutOfFuel
        | S fuel' => skip_whitespace_loop fuel' (advance self)
        end
      else Return self
  | None => Return self
  end.

(** [Lexer.skip_whitespace] *)
Definition skip_whitespace (self : t) : Outcome t :=
  skip_whitespace_loop (String.length (text self)) self.

(** The [while] loop of [integer]. *)
Fixpoint integer_loop (fuel : nat) (self : t) (result : string)
  : Outcome (string * t) :=
  match current_char self with
  | Some c =>
      if isdecimal c then
        match fuel with
        | O => OutOfFuel
        | S fuel' =>
            integer_loop fuel' (advance self) (result +:+ String c "")
        end
      else Return (result, self)
  | None => Return (result, self)
  end.

(** [Lexer.integer] *)
Definition integer (self : t) : Outcome (Z * t) :=
  match current_char self with
  | Some c =>
      if isdecimal c then
        let* (result, self') :=
          integer_loop (String.length (text self)) self "" in
        let* n := int result in
        Return (n, self')
      else Raise AssertionError
  | None => Raise AssertionError
  end.

(** [Lexer.get_next_token].  Every path through the body of the source's
    [while] returns or raises, so the body runs at most once. *)
Definition get_next_token (self : t) : Outcome (Token.t * t) :=
  match current_char self with
  | Some _ =>
      let* l1 := skip_whitespace self in
      match current_char l1 with
      | None => Raise AttributeError
      | Some c =>
          if isdecimal c then
            let* (n, l2) := integer l1 in
            Return (Token.mk INTEGER (VInt n), l2)
          else if Ascii.eqb c "d" then
            Return (Token.mk DELIM (VStr "d"), advance l1)
          else if Ascii.eqb c "+" then
            Return (Token.mk PLUS (VStr "+"), advance l1)
          else if Ascii.eqb c "-" then
            Return (Token.mk MINUS (VStr "-"), advance l1)
          else Raise (InvalidCharacter c (pos l1))
      end
  | None => Return (Token.mk EOF VNone, self)
  end.

(** The [for _ in range(ahead)] loop of [peek_next_token]; [token] is the
    local variable, unbound before the first iteration. *)
Fixpoint peek_loop (n : nat) (self : t) (token : option Token.t)
  : Outcome (option Token.t * t) :=
  match n with
  | O => Return (token, self)
  | S n' =>
      let* (tok, self') := get_next_token self in
      peek_loop n' self' (Some tok)
  end.

(** [Lexer.peek_next_token] *)
Definition peek_next_token (self : t) (ahead : Z) : Outcome (Token.t * t) :=
  if ahead >? 0 then
    let pos0 := pos self in
    let* (token, self') := peek_loop (Z.to_nat ahead) self None in
    let self'' := set_pos self' pos0 in
    match token with
    | Some tok => Return (tok, self'')
    | None => Raise UnboundLocalError
    end
  else Raise (InvalidArgument ahead).
End Lexer.

(** ** Parser *)

(** [assert type(token.value) is int] and the value. *)
Definition assert_int (v : TokenValue) : Outcome Z :=
  match v with
  | VInt n => Return n
  | _ => Raise AssertionError
  end.

(** [ty in (TokenType.PLUS, TokenType.MINUS)] *)
Definition is_operator (ty : TokenType) : bool :=
  match ty with
  | PLUS | MINUS => true
  | _ => false
  end.

Module Parser.
Record t := mk { lexer : Lexer.t; current_token : Token.t }.

(** [Parser.__init__] *)
Definition init (text : string) : Outcome t :=
  let* l := Lexer.init text in
  let* (tok, l') := Lexer.get_next_token l in
  Return {| lexer := l'; current_token := tok |}.

(** [Parser.eat] *)
Definition eat (self : t) (expected_token_type : TokenType) : Outcome t :=
  if decide (expected_token_type = Token.type (current_token self)) then
    let* (tok, l') := Lexer.get_next_token (lexer self) in
    Return {| lexer := l'; current_token := tok |}
  else
    Raise (UnexpectedToken expected_token_type
             (Token.type (current_token self))).

(** [Parser.peek_next_token] *)
Definition peek_next_token (self : t) (ahead : Z) : Outcome (Token.t * t) :=
  let* (tok, l') := Lexer.peek_next_token (lexer self) ahead in
  Return (tok, {| lexer := l'; current_token := current_token self |}).

(** The test of the [if ... break] in the loop of [die]: whether the next
    token is an integer and the one after it is not a delimiter.  The
    second look-ahead is only made when the first token is an integer. *)
Definition modifier_follows (self : t) : Outcome (bool * t) :=
  let* (tok1, p1) := peek_next_token self 1 in
  if decide (Token.type tok1 = INTEGER) then
    let* (tok2, p2) := peek_next_token p1 2 in
    Return (bool_decide (Token.type tok2 <> DELIM), p2)
  else Return (false, p1).

(** The [while] loop of [die]. *)
Fixpoint die_loop (fuel : nat) (self : t) (modifier : Z)
  : Outcome (Z * t) :=
  if is_operator (Token.type (current_token self)) then
    let* (is_modifier, p) := modifier_follows self in
    if negb is_modifier then Return (modifier, p)
    else
      match fuel with
      | O => OutOfFuel
      | S fuel' =>
          if decide (Token.type (current_token p) = PLUS) then
            let* p1 := eat p PLUS in
            let token := current_token p1 in
            let* p2 := eat p1 INTEGER in
            let* n := assert_int (Token.value token) in
            die_loop fuel' p2 (modifier + n)
          else
            let* p1 := eat p MINUS in
            let token := current_token p1 in
            let* p2 := eat p1 INTEGER in
            let* n := assert_int (Token.value token) in
            die_loop fuel' p2 (modifier - n)
      end
  else Return (modifier, self).

(** [Parser.die] *)
Definition die (self : t) : Outcome (Die.t * t) :=
  let num_dice := 1 in
  let modifier := 0 in
  let* (num_dice, p1) :=
    if decide (Token.type (current_token self) = INTEGER) then
      let token := current_token self in
      let* p := eat self INTEGER in
      let* n := assert_int (Token.value token) in
      Return (n, p)
    else Return (num_dice, self) in
  let* p2 := eat p1 DELIM in
  let token := current_token p2 in
  let* p3 := eat p2 INTEGER in
  let* sides := assert_int (Token.value token) in
  let* (modifier, p4) :=
    die_loop (String.length (Lexer.text (lexer p3))) p3 modifier in
  Return (Die.mk sides num_dice modifier, p4).

(** The [while] loop of [dice]. *)
Fixpoint dice_loop (fuel : nat) (self : t) (to_return : DiceBag.t)
  : Outcome (DiceBag.t * t) :=
  if is_operator (Token.type (current_token self)) then
    match fuel with
    | O => OutOfFuel
    | S fuel' =>
        if decide (Token.type (current_token self) = PLUS) then
          let* p1 := eat self PLUS in
          let* (d, p2) := die p1 in
          dice_loop fuel' p2 (DiceBag.add_die to_return d false)
        else
          let* p1 := eat self MINUS in
          let* (d, p2) := die p1 in
          dice_loop fuel' p2 (DiceBag.add_die to_return d true)
    end
  else Return (to_return, self).

(** [Parser.dice] *)
Definition dice (self : t) : Outcome (DiceBag.t * t) :=
  let to_return := DiceBag.mk [] in
  let* (d, p1) := die self in
  let to_return := DiceBag.add_die to_return d false in
  dice_loop (String.length (Lexer.text (lexer p1))) p1 to_return.
End Parser.

(** [DiceBag.from_str] *)
Definition from_str (formula : string) : Outcome DiceBag.t :=
  let* p := Parser.init formula in
  let* (bag, _) := Parser.dice p in
  Return bag.

(** The module-level [roll]. *)
Definition roll (formula : string) (r : Random.t) : Outcome (Z * Random.t) :=
  let* bag := from_str formula in
  DiceBag.roll bag r.

(** * Definitions for the statements

    Lexer states, token streams, the grammar as derivation trees, the
    rendering of a bag and the bounds of a roll: what the properties below
    are stated with. *)

(** The bag of the dice [(num_dice, sides, modifier, subtracted)]. *)
Definition bag_of (items : list (Z * Z * Z * bool)) : DiceBag.t :=
  DiceBag.mk
    (map (fun '(n, s, m, sub) => DiceBagItem.mk (Die.mk s n m) sub) items).

(** ** Lexer states and the unread text *)

(** The lexer over [text] with its cursor at [p]: the states that
    [Lexer.init], [set_pos] and [advance] produce. *)
Definition lexer_at (text : string) (p : nat) : Lexer.t :=
  Lexer.mk text p (String.get p text).

(** The invariant of a lexer: [current_char] is the character under the
    cursor, or [None] when the cursor is past the end. *)
Definition lexer_wf (l : Lexer.t) : Prop :=
  Lexer.current_char l = String.get (Lexer.pos l) (Lexer.text l).

(** [s] without its first [n] characters: the unread text at cursor [n]. *)
Fixpoint sdrop (n : nat) (s : string) : string :=
  match n, s with
  | O, _ => s
  | S n', String _ s' => sdrop n' s'
  | S _, EmptyString => EmptyString
  end.

(** The first character, if any. *)
Definition shead (s : string) : option ascii :=
  match s with
  | String c _ => Some c
  | EmptyString => None
  end.

(** The length of the run of whitespace at the head of [s], and the run
    of digits at its head. *)
Fixpoint ws_count (s : string) : nat :=
  match s with
  | String c s' => if isspace c then S (ws_count s') else O
  | EmptyString => O
  end.

Fixpoint take_digits (s : string) : string :=
  match s with
  | String c s' => if isdecimal c then String c (take_digits s') else ""
  | EmptyString => ""
  end.

(** The value of the run of digits at the head of [s], continuing [acc]. *)
Fixpoint digits_val (acc : Z) (s : string) : Z :=
  match s with
  | String c s' =>
      if isdecimal c then digits_val (10 * acc + digit_value c) s' else acc
  | EmptyString => acc
  end.

(** The tokens that the lexer builds. *)
Abbreviation tINT n := (Token.mk INTEGER (VInt n)).
Abbreviation tDELIM := (Token.mk DELIM (VStr "d")).
Abbreviation tPLUS := (Token.mk PLUS (VStr "+")).
Abbreviation tMINUS := (Token.mk MINUS (VStr "-")).
Abbreviation tEOF := (Token.mk EOF VNone).

(** What [get_next_token] does, as a function of the unread part [s] of
    the text that starts at index [off]: the token and the number of
    characters consumed. *)
Definition lex (off : nat) (s : string) : Outcome (Token.t * nat) :=
  match s with
  | EmptyString => Return (tEOF, O)
  | _ =>
      let w := ws_count s in
      match sdrop w s with
      | EmptyString => Raise AttributeError
      | String c s' =>
          if isdecimal c then
            if max_str_digits <? Z.of_nat (digit_count (String c s')) then
              Raise DigitLimit
            else
              Return (tINT (digits_val 0 (String c s')),
                      (w + digit_count (String c s'))%nat)
          else if Ascii.eqb c "d" then Return (tDELIM, (w + 1)%nat)
          else if Ascii.eqb c "+" then Return (tPLUS, (w + 1)%nat)
          else if Ascii.eqb c "-" then Return (tMINUS, (w + 1)%nat)
          else Raise (InvalidCharacter c (off + w))
      end
  end.

(** ** Token streams *)

(** [lexes t p toks p']: from position [p] of the text [t], successive
    calls of [get_next_token] return the tokens [toks] and leave the
    cursor at [p']. *)
Inductive lexes (t : string) : nat -> list Token.t -> nat -> Prop :=
| lexes_nil p : lexes t p [] p
| lexes_cons p tok p1 toks p' :
    Lexer.get_next_token (lexer_at t p) = Return (tok, lexer_at t p1) ->
    lexes t p1 toks p' ->
    lexes t p (tok :: toks) p'.

(** The result of the [n+1]-th successive call of [get_next_token]. *)
Fixpoint nth_next_token (n : nat) (l : Lexer.t) : Outcome (Token.t * Lexer.t) :=
  let* (tok, l') := Lexer.get_next_token l in
  match n with
  | O => Return (tok, l')
  | S n' => nth_next_token n' l'
  end.

Definition not_EOF (tok : Token.t) : Prop := Token.type tok <> EOF.

(** [slexes s toks k]: the unread text [s] lexes to the tokens [toks],
    which take its first [k] characters. *)
Inductive slexes : string -> list Token.t -> nat -> Prop :=
| slexes_nil s : slexes s [] O
| slexes_cons s tok k toks k' :
    lex O s = Return (tok, k) ->
    slexes (sdrop k s) toks k' ->
    slexes s (tok :: toks) (k + k').

(** ** The grammar

    [dice : die ((PLUS|MINUS) die)*] and
    [die : integer? DELIM integer ((PLUS|MINUS) integer)*], as derivation
    trees with the token sequence that each one spells and the bag that it
    stands for. *)

(** A modifier clause: whether its operator is [MINUS], and its integer. *)
Definition clause : Type := bool * Z.

(** A die: the optional leading integer, the sides, the clauses. *)
Record term := mkTerm {
  t_num : option Z;
  t_sides : Z;
  t_mods : list clause
}.

(** A formula: its first die and the following signed dice. *)
Definition formula : Type := term * list (bool * term).

(** The tokens of a derivation. *)
Definition op_token (minus : bool) : Token.t :=
  if minus then tMINUS else tPLUS.

Definition mods_tokens (cl : list clause) : list Token.t :=
  flat_map (fun '(minus, n) => [op_token minus; tINT n]) cl.

Definition term_tokens (tm : term) : list Token.t :=
  match t_num tm with
  | Some k => [tINT k]
  | None => []
  end ++ [tDELIM; tINT (t_sides tm)] ++ mods_tokens (t_mods tm).

Definition rest_tokens (rest : list (bool * term)) : list Token.t :=
  flat_map (fun '(minus, tm) => op_token minus :: term_tokens tm) rest.

Definition formula_tokens (f : formula) : list Token.t :=
  term_tokens (fst f) ++ rest_tokens (snd f).

(** The net modifier of a run of clauses added to [m]. *)
Definition apply_mods (m : Z) (cl : list clause) : Z :=
  fold_left (fun acc '(minus, n) => if minus : bool then acc - n else acc + n)
    cl m.

(** The die and the bag of a derivation. *)
Definition term_die (tm : term) : Die.t :=
  Die.mk (t_sides tm) (default 1 (t_num tm)) (apply_mods 0 (t_mods tm)).

Definition rest_items (rest : list (bool * term)) : list DiceBagItem.t :=
  map (fun '(minus, tm) => DiceBagItem.mk (term_die tm) minus) rest.

Definition formula_bag (f : formula) : DiceBag.t :=
  DiceBag.mk (DiceBagItem.mk (term_die (fst f)) false :: rest_items (snd f)).

(** The signed value of a clause and the net modifier of a run. *)
Definition signed (c : clause) : Z := if fst c then - snd c else snd c.

Definition net_modifier (cl : list clause) : Z :=
  fold_right Z.add 0 (map signed cl).

(** The last die of a formula. *)
Fixpoint last_term (tm : term) (rest : list (bool * term)) : term :=
  match rest with
  | [] => tm
  | (_, tm') :: rest' => last_term tm' rest'
  end.

(** The parser [ps] over the text [t] has [toks] before it: its current
    token, then what the lexer returns, up to position [pe]. *)
Definition sees (t : string) (ps : Parser.t) (toks : list Token.t) (pe : nat)
  : Prop :=
  match toks with
  | [] => False
  | cur :: rest =>
      exists p, ps = Parser.mk (lexer_at t p) cur /\ lexes t p rest pe
  end.

(** The loop of [die] leaves at once: the current token is no operator,
    or no modifier follows it. *)
Definition stops (ps : Parser.t) : Prop :=
  is_operator (Token.type (Parser.current_token ps)) = false \/
  Parser.modifier_follows ps = Return (false, ps).

(** ** Rendering *)

(** The derivation that the rendering of a die spells. *)
Definition die_term (d : Die.t) : term :=
  mkTerm (Some (Die.num_dice d)) (Die.sides d)
    (if Die.modifier d =? 0 then [] else [(false, Die.modifier d)]).

(** The text of [format(n, "+")]. *)
Definition signed_decimal (n : Z) : string :=
  if n <? 0 then decimal n else "+" +:+ decimal n.

(** The text of [Die.str] after the number of dice, and the whole text. *)
Definition die_tail_str (d : Die.t) : string :=
  if Die.modifier d =? 0 then "d" +:+ decimal (Die.sides d)
  else "d" +:+ decimal (Die.sides d) +:+ signed_decimal (Die.modifier d).

Definition die_text (d : Die.t) : string :=
  decimal (Die.num_dice d) +:+ die_tail_str d.

(** What [DiceBag.str_loop] appends for the items after the first. *)
Fixpoint render_rest (items : list DiceBagItem.t) : string :=
  match items with
  | [] => ""
  | item :: items' =>
      " " +:+ (if DiceBagItem.subtracted item then "-" else "+") +:+ " "
        +:+ die_text (DiceBagItem.die item) +:+ render_rest items'
  end.

(** The text of [DiceBag.str] for a bag of [item0] and [items]. *)
Definition bag_text (item0 : DiceBagItem.t) (items : list DiceBagItem.t)
  : string :=
  die_text (DiceBagItem.die item0) +:+ render_rest items.

(** An integer that [str] converts: at most [max_str_digits] digits.  A
    die and an item whose three numbers are such. *)
Definition fits (n : Z) : Prop := Z.abs n < digit_limit.

Definition printable_die (d : Die.t) : Prop :=
  fits (Die.sides d) /\ fits (Die.num_dice d) /\ fits (Die.modifier d).

Definition printable (item : DiceBagItem.t) : Prop :=
  printable_die (DiceBagItem.die item).

(** A string of digits only. *)
Definition all_digits (ds : string) : Prop := digit_count ds = String.length ds.

(** The dice that [Die.str] renders as the grammar reads them: natural
    numbers of sides and of dice, and a modifier that is not negative. *)
Definition natural_die (d : Die.t) : Prop :=
  0 <= Die.sides d /\ 0 <= Die.num_dice d /\ 0 <= Die.modifier d.

(** An item that is added, with a die that renders as the grammar reads. *)
Definition plain_item (item : DiceBagItem.t) : Prop :=
  natural_die (DiceBagItem.die item) /\ DiceBagItem.subtracted item = false.

(** The derivations of the items after the first. *)
Definition items_rest (items : list DiceBagItem.t) : list (bool * term) :=
  map (fun item =>
         (DiceBagItem.subtracted item, die_term (DiceBagItem.die item)))
    items.

(** ** Rolling *)

Definition sum_Z (l : list Z) : Z := fold_right Z.add 0 l.

(** The random source after one more draw. *)
Definition next_random (r : Random.t) : Random.t :=
  Random.mk (Random.source r) (S (Random.drawn r)).

(** The next [n] draws of [randint(1, sides)] from the source [r]. *)
Fixpoint draws (n : nat) (sides : Z) (r : Random.t) : list Z :=
  match n with
  | O => []
  | S n' =>
      (1 + Z.of_N (Random.source r (Random.drawn r)) mod sides)
        :: draws n' sides (next_random r)
  end.

(** The rolls of the dice of [items], one after the other. *)
Fixpoint die_rolls (items : list DiceBagItem.t) (r : Random.t)
  : Outcome (list Z * Random.t) :=
  match items with
  | [] => Return ([], r)
  | item :: items' =>
      let* (v, r1) := Die.roll (DiceBagItem.die item) r in
      let* (vs, r') := die_rolls items' r1 in
      Return (v :: vs, r')
  end.

(** The sign of an item and the signed sum of the rolls [vs] of the dice. *)
Definition sign (item : DiceBagItem.t) : Z :=
  if DiceBagItem.subtracted item then -1 else 1.

Definition signed_sum (items : list DiceBagItem.t) (vs : list Z) : Z :=
  sum_Z (zip_with (fun item v => sign item * v) items vs).

(** The least and the greatest contribution of an item to a roll. *)
Definition item_lo (item : DiceBagItem.t) : Z :=
  let d := DiceBagItem.die item in
  if DiceBagItem.subtracted item
  then - (Die.num_dice d * Die.sides d + Die.modifier d)
  else Die.num_dice d * 1 + Die.modifier d.

Definition item_hi (item : DiceBagItem.t) : Z :=
  let d := DiceBagItem.die item in
  if DiceBagItem.subtracted item
  then - (Die.num_dice d * 1 + Die.modifier d)
  else Die.num_dice d * Die.sides d + Die.modifier d.

Definition bag_lo (B : DiceBag.t) : Z := sum_Z (map item_lo (DiceBag._bag B)).
Definition bag_hi (B : DiceBag.t) : Z := sum_Z (map item_hi (DiceBag._bag B)).

(** The bounds as the specification words them: the sum of
    [sign * (num_dice * 1 + modifier)] and of
    [sign * (num_dice * sides + modifier)]. *)
Definition claimed_min (B : DiceBag.t) : Z :=
  sum_Z (map (fun item =>
                let d := DiceBagItem.die item in
                sign item * (Die.num_dice d * 1 + Die.modifier d))
           (DiceBag._bag B)).

Definition claimed_max (B : DiceBag.t) : Z :=
  sum_Z (map (fun item =>
                let d := DiceBagItem.die item in
                sign item * (Die.num_dice d * Die.sides d + Die.modifier d))
           (DiceBag._bag B)).

(** A die that can be rolled: at least one side, and a count. *)
Definition rollable (item : DiceBagItem.t) : Prop :=
  1 <= Die.sides (DiceBagItem.die item) /\
  0 <= Die.num_dice (DiceBagItem.die item).

(** ** Totality *)

(** [safe P m]: the computation [m] is not cut short by the fuel, and
    its result, if it returns one, satisfies [P]. *)
Definition safe {A} (P : A -> Prop) (m : Outcome A) : Prop :=
  m <> OutOfFuel /\ forall a, m = Return a -> P a.

(** An integer token carries a natural number. *)
Definition token_ok (tok : Token.t) : Prop :=
  match Token.value tok with
  | VInt n => 0 <= n
  | _ => True
  end.

(** A die with natural numbers of sides and of dice. *)
Definition natural_counts (item : DiceBagItem.t) : Prop :=
  0 <= Die.sides (DiceBagItem.die item) /\
  0 <= Die.num_dice (DiceBagItem.die item).

(** The state of a parser over [t] whose integer token is natural. *)
Definition parser_at (t : string) (p : nat) (ps : Parser.t) : Prop :=
  exists p' cur,
    ps = Parser.mk (lexer_at t p') cur /\ token_ok cur /\ (p <= p')%nat.

(** ** What the parser returns and raises *)

(** The tokens that the lexer builds: the four fixed ones and the integer
    tokens of natural numbers. *)
Definition canonical (tok : Token.t) : Prop :=
  tok = tEOF \/ tok = tDELIM \/ tok = tPLUS \/ tok = tMINUS \/
  exists n, 0 <= n /\ tok = tINT n.

(** A character that the lexer accepts: whitespace, a digit, or one of
    [d], [+], [-]. *)
Definition token_char (c : ascii) : bool :=
  isspace c || isdecimal c || Ascii.eqb c "d" || Ascii.eqb c "+"
  || Ascii.eqb c "-".

(** The exceptions of a parse of the text [t], each with what it tells. *)
Definition parse_error (t : string) (e : Exception) : Prop :=
  match e with
  | InvalidInput s => s = "" /\ t = ""
  | InvalidCharacter c i => String.get i t = Some c /\ token_char c = false
  | UnexpectedToken expected actual =>
      (expected = DELIM \/ expected = INTEGER) /\ expected <> actual
  | AttributeError =>
      exists c, String.get (String.length t - 1) t = Some c /\ isspace c = true
  | DigitLimit =>
      exists p, max_str_digits < Z.of_nat (digit_count (sdrop p t))
  | _ => False
  end.

(** [sat P E m]: a result of [m] satisfies [P], an exception of [m]
    satisfies [E]. *)
Definition sat {A} (P : A -> Prop) (E : Exception -> Prop) (m : Outcome A)
  : Prop :=
  match m with
  | Return a => P a
  | Raise e => E e
  | OutOfFuel => True
  end.

(** A text spells the derivation [f]: its tokens are those of [f], then a
    token that is no operator, and no delimiter when the last die of [f]
    has a modifier clause. *)
Definition spells (t : string) (f : formula) : Prop :=
  exists stop pe,
    lexes t O (formula_tokens f ++ [stop]) pe /\
    is_operator (Token.type stop) = false /\
    (t_mods (last_term (fst f) (snd f)) <> [] -> Token.type stop <> DELIM).

(** The parser [ps] is over the text [t], at a token of the lexer. *)
Definition at_token (t : string) (ps : Parser.t) : Prop :=
  exists p cur, ps = Parser.mk (lexer_at t p) cur /\ canonical cur.

(** From [ps] the parser has consumed the tokens [toks] and stands at
    [ps']. *)
Definition parsed_upto (t : string) (ps : Parser.t) (toks : list Token.t)
    (ps' : Parser.t) : Prop :=
  exists pe stop,
    sees t ps (toks ++ [stop]) pe /\
    ps' = Parser.mk (lexer_at t pe) stop /\ canonical stop.

(** ** Which dice can be rolled *)

(** A die that [roll] can throw: it draws nothing, or its draws have a
    range that is not empty. *)
Definition throwable (item : DiceBagItem.t) : Prop :=
  Die.num_dice (DiceBagItem.die item) <= 0 \/
  1 <= Die.sides (DiceBagItem.die item).

(** The number of draws of a roll of [items]. *)
Definition dice_thrown (items : list DiceBagItem.t) : nat :=
  foldr Nat.add O
    (map (fun item => Z.to_nat (Die.num_dice (DiceBagItem.die item))) items).

(** The source [r] after [n] more draws. *)
Definition after_draws (n : nat) (r : Random.t) : Random.t :=
  Random.mk (Random.source r) (Random.drawn r + n).

(** ** Rendering with signs *)

(** The derivation that the rendering of a die spells, whatever the sign
    of its modifier: a negative modifier is rendered as a [-] clause. *)
Definition rendered_term (d : Die.t) : term :=
  mkTerm (Some (Die.num_dice d)) (Die.sides d)
    (if Die.modifier d =? 0 then []
     else if Die.modifier d <? 0 then [(true, - Die.modifier d)]
     else [(false, Die.modifier d)]).

(** The derivations of the items after the first, each with its sign. *)
Definition rendered_rest (items : list DiceBagItem.t) : list (bool * term) :=
  map (fun item =>
         (DiceBagItem.subtracted item, rendered_term (DiceBagItem.die item)))
    items.

(** ** Sources that attain the bounds of a roll *)

(** The source that gives every draw of an item the raw number [v item]:
    the draws of the first item come first, then those of the next. *)
Fixpoint raw_at (v : DiceBagItem.t -> N) (items : list DiceBagItem.t)
    (i : nat) : N :=
  match items with
  | [] => 0%N
  | item :: items' =>
      let n := Z.to_nat (Die.num_dice (DiceBagItem.die item)) in
      if (i <? n)%nat then v item else raw_at v items' (i - n)
  end.

(** The raw numbers of the least roll: an added die draws 1, a subtracted
    die draws its number of sides; and the other way for the greatest. *)
Definition lo_raw (item : DiceBagItem.t) : N :=
  if DiceBagItem.subtracted item
  then Z.to_N (Die.sides (DiceBagItem.die item) - 1) else 0%N.

Definition hi_raw (item : DiceBagItem.t) : N :=
  if DiceBagItem.subtracted item
  then 0%N else Z.to_N (Die.sides (DiceBagItem.die item) - 1).

(** An item whose modifier [str] converts. *)
Definition modifier_fits (item : DiceBagItem.t) : Prop :=
  fits (Die.modifier (DiceBagItem.die item)).

(** An integer token carries a natural number that [str] converts. *)
Definition token_fits (tok : Token.t) : Prop :=
  forall n, tok = tINT n -> 0 <= n /\ fits n.

(** ** Long runs of digits *)

(** The text of [n] times the character [c]. *)
Fixpoint repeat_char (n : nat) (c : ascii) : string :=
  match n with
  | O => ""
  | S n' => String c (repeat_char n' c)
  end.

(** * Checks on the examples of the module's documentation *)

Example doc_d6 : from_str "d6" = Return (bag_of [(1, 6, 0, false)]).
Proof. vm_compute. reflexivity. Qed.

Example doc_8d10_1d4 :
  from_str "8d10+1d4-1" = Return (bag_of [(8, 10, 0, false); (1, 4, -1, false)]).
Proof. vm_compute. reflexivity. Qed.

Example doc_d20_5_1d4 :
  from_str "d20+5-1d4" = Return (bag_of [(1, 20, 5, false); (1, 4, 0, true)]).
Proof. vm_compute. reflexivity. Qed.

Example doc_d8 :
  from_str "d8+1-2+3+d4" = Return (bag_of [(1, 8, 2, false); (1, 4, 0, false)]).
Proof. vm_compute. reflexivity. Qed.

Example doc_spaces :
  from_str "12 d 10 + 2" = Return (bag_of [(12, 10, 2, false)]).
Proof. vm_compute. reflexivity. Qed.

(** * Lexer states and the rest of the text *)

Section StringFacts.

Lemma sdrop_empty n : sdrop n "" = "".
Proof. by destruct n. Qed.

Lemma get_sdrop n s : String.get n s = shead (sdrop n s).
Proof.
  revert n. induction s as [|c s IH]; intros [|n]; simpl; auto.
Qed.

Lemma sdrop_sdrop k p s : sdrop k (sdrop p s) = sdrop (p + k) s.
Proof.
  revert s. induction p as [|p IH]; intros s; simpl; [done|].
  destruct s; [apply sdrop_empty | apply IH].
Qed.

Lemma sdrop_step p s c s' : sdrop p s = String c s' -> sdrop (p + 1) s = s'.
Proof. intros H. by rewrite <- sdrop_sdrop, H. Qed.

Lemma sdrop_length n s : String.length (sdrop n s) = (String.length s - n)%nat.
Proof.
  revert n. induction s as [|c s IH]; intros [|n]; simpl; auto.
Qed.

Lemma sdrop_all n s : (String.length s <= n)%nat -> sdrop n s = "".
Proof.
  intros H. pose proof (sdrop_length n s) as L.
  destruct (sdrop n s); [done | simpl in L; lia].
Qed.

Lemma app_cons c (s u : string) : String c s +:+ u = String c (s +:+ u).
Proof. reflexivity. Qed.

Lemma app_empty_l (u : string) : "" +:+ u = u.
Proof. reflexivity. Qed.

Lemma sdrop_app n s u :
  (n <= String.length s)%nat -> sdrop n (s +:+ u) = sdrop n s +:+ u.
Proof.
  revert n. induction s as [|c s IH]; intros [|n] H; try reflexivity.
  - simpl in H. lia.
  - rewrite app_cons. simpl in *. apply IH. lia.
Qed.

Lemma sdrop_length_app s u : sdrop (String.length s) (s +:+ u) = u.
Proof. induction s; rewrite ?app_cons; simpl; auto. Qed.

Lemma app_empty_r (s : string) : s +:+ "" = s.
Proof. induction s as [|c s IH]; [done | by rewrite app_cons, IH]. Qed.

Lemma app_assoc_s (s u v : string) : (s +:+ u) +:+ v = s +:+ (u +:+ v).
Proof. induction s as [|c s IH]; [done | by rewrite !app_cons, IH]. Qed.

Lemma length_app_s (s u : string) :
  String.length (s +:+ u) = (String.length s + String.length u)%nat.
Proof.
  induction s as [|c s IH]; [done|]. rewrite app_cons. simpl. by rewrite IH.
Qed.

Lemma get_past n s : (String.length s <= n)%nat -> String.get n s = None.
Proof. intros H. by rewrite get_sdrop, sdrop_all. Qed.

Lemma ws_count_le s : (ws_count s <= String.length s)%nat.
Proof. induction s as [|c s IH]; simpl; [lia|]. destruct (isspace c); lia. Qed.

Lemma digit_count_le s : (digit_count s <= String.length s)%nat.
Proof. induction s as [|c s IH]; simpl; [lia|]. destruct (isdecimal c); lia. Qed.

Lemma take_digits_length s : String.length (take_digits s) = digit_count s.
Proof.
  induction s as [|c s IH]; simpl; [done|].
  destruct (isdecimal c); simpl; congruence.
Qed.

Lemma int_loop_take_digits acc s :
  int_loop acc (take_digits s) = Some (digits_val acc s).
Proof.
  revert acc. induction s as [|c s IH]; intros acc; simpl; [done|].
  destruct (isdecimal c) eqn:E; simpl; [|done]. by rewrite E, IH.
Qed.

Lemma isdecimal_not_space c : isdecimal c = true -> isspace c = false.
Proof.
  unfold isdecimal, isspace. generalize (ord c). intros n H.
  apply andb_true_iff in H as [H1 H2].
  apply N.leb_le in H1. apply N.leb_le in H2.
  repeat (apply orb_false_iff; split);
    rewrite ?andb_false_iff, ?N.leb_gt, ?N.eqb_neq; lia.
Qed.

End StringFacts.

(** * The lexer as a function of the unread text *)

Lemma bind_Return {A B} (a : A) (k : A -> Outcome B) : bind (Return a) k = k a.
Proof. reflexivity. Qed.

Section LexerFacts.

Lemma set_pos_at l v : Lexer.set_pos l v = lexer_at (Lexer.text l) v.
Proof.
  unfold Lexer.set_pos, lexer_at. f_equal.
  destruct (String.length (Lexer.text l) <=? v)%nat eqn:E; [|done].
  apply Nat.leb_le in E. by rewrite get_past.
Qed.

Lemma advance_at t p : Lexer.advance (lexer_at t p) = lexer_at t (p + 1).
Proof. unfold Lexer.advance. by rewrite set_pos_at. Qed.

Lemma lexer_wf_at l :
  lexer_wf l <-> l = lexer_at (Lexer.text l) (Lexer.pos l).
Proof.
  unfold lexer_wf, lexer_at. destruct l as [t p c]; simpl. split.
  - by intros ->.
  - by intros [= ->].
Qed.

Lemma lexer_at_wf t p : lexer_wf (lexer_at t p).
Proof. reflexivity. Qed.

Lemma skip_whitespace_loop_at fuel t p :
  (ws_count (sdrop p t) <= fuel)%nat ->
  Lexer.skip_whitespace_loop fuel (lexer_at t p)
  = Return (lexer_at t (p + ws_count (sdrop p t))).
Proof.
  revert p. induction fuel as [|fuel IH]; intros p H.
  - simpl. rewrite get_sdrop. destruct (sdrop p t) as [|c s] eqn:E; simpl in *.
    + by rewrite Nat.add_0_r.
    + destruct (isspace c); [lia | by rewrite Nat.add_0_r].
  - simpl. rewrite get_sdrop. destruct (sdrop p t) as [|c s] eqn:E; simpl in *.
    + by rewrite Nat.add_0_r.
    + destruct (isspace c); [| by rewrite Nat.add_0_r].
      rewrite advance_at, IH; rewrite (sdrop_step _ _ _ _ E); [|lia].
      do 2 f_equal. lia.
Qed.

Lemma skip_whitespace_at t p :
  Lexer.skip_whitespace (lexer_at t p)
  = Return (lexer_at t (p + ws_count (sdrop p t))).
Proof.
  apply skip_whitespace_loop_at. simpl.
  pose proof (ws_count_le (sdrop p t)). rewrite sdrop_length in *. lia.
Qed.

Lemma integer_loop_at fuel t p result :
  (digit_count (sdrop p t) <= fuel)%nat ->
  Lexer.integer_loop fuel (lexer_at t p) result
  = Return (result +:+ take_digits (sdrop p t),
            lexer_at t (p + digit_count (sdrop p t))).
Proof.
  revert p result. induction fuel as [|fuel IH]; intros p result H.
  - simpl. rewrite get_sdrop. destruct (sdrop p t) as [|c s] eqn:E; simpl in *.
    + by rewrite Nat.add_0_r, app_empty_r.
    + destruct (isdecimal c); [lia | by rewrite Nat.add_0_r, app_empty_r].
  - simpl. rewrite get_sdrop. destruct (sdrop p t) as [|c s] eqn:E; simpl in *.
    + by rewrite Nat.add_0_r, app_empty_r.
    + destruct (isdecimal c); [| by rewrite Nat.add_0_r, app_empty_r].
      rewrite advance_at, IH; rewrite (sdrop_step _ _ _ _ E); [|lia].
      rewrite app_assoc_s. do 3 f_equal. lia.
Qed.

Lemma digit_count_take_digits s : digit_count (take_digits s) = digit_count s.
Proof.
  induction s as [|c s IH]; simpl; [done|].
  destruct (isdecimal c) eqn:Hc; simpl; [|done]. by rewrite Hc, IH.
Qed.

Lemma integer_at t p c s :
  sdrop p t = String c s -> isdecimal c = true ->
  Lexer.integer (lexer_at t p)
  = if max_str_digits <? Z.of_nat (digit_count (String c s))
    then Raise DigitLimit
    else Return (digits_val 0 (String c s),
                 lexer_at t (p + digit_count (String c s))).
Proof.
  intros E Hc. unfold Lexer.integer. simpl Lexer.current_char.
  rewrite get_sdrop, E. simpl shead. cbv iota beta. rewrite Hc.
  rewrite integer_loop_at.
  2:{ simpl Lexer.text. pose proof (digit_count_le (sdrop p t)).
      rewrite sdrop_length in *. lia. }
  rewrite E, bind_Return. cbv beta iota. rewrite app_empty_l.
  assert (Hint : int (take_digits (String c s))
                 = if max_str_digits <? Z.of_nat (digit_count (String c s))
                   then Raise DigitLimit
                   else Return (digits_val 0 (String c s))).
  { unfold int. rewrite int_loop_take_digits, digit_count_take_digits.
    change (take_digits (String c s))
      with (if isdecimal c then String c (take_digits s) else "").
    by rewrite Hc. }
  rewrite Hint. by destruct (_ <? _).
Qed.

(** [get_next_token] reads only the unread part of the text, and moves
    the cursor by the number of characters that [lex] reports. *)
Lemma get_next_token_at t p :
  Lexer.get_next_token (lexer_at t p)
  = let* (tok, k) := lex p (sdrop p t) in Return (tok, lexer_at t (p + k)).
Proof.
  unfold Lexer.get_next_token, lex. simpl Lexer.current_char.
  rewrite get_sdrop. destruct (sdrop p t) as [|c0 s0] eqn:E0.
  { simpl. by rewrite Nat.add_0_r. }
  simpl shead. cbv iota zeta. rewrite skip_whitespace_at, E0, bind_Return.
  generalize (ws_count (String c0 s0)). intros w.
  simpl Lexer.current_char. rewrite get_sdrop, <- sdrop_sdrop, E0.
  destruct (sdrop w (String c0 s0)) as [|c s] eqn:E; [done|]. simpl shead.
  cbv iota beta.
  assert (E' : sdrop (p + w) t = String c s) by by rewrite <- sdrop_sdrop, E0.
  destruct (isdecimal c) eqn:Hc.
  { rewrite (integer_at _ _ _ _ E' Hc). destruct (_ <? _); [done|].
    rewrite !bind_Return. cbv iota beta. by rewrite Nat.add_assoc. }
  rewrite !advance_at.
  repeat (case_match; [by rewrite bind_Return, Nat.add_assoc|]). done.
Qed.

Lemma text_lexer_at t p : Lexer.text (lexer_at t p) = t.
Proof. reflexivity. Qed.

Lemma pos_lexer_at t p : Lexer.pos (lexer_at t p) = p.
Proof. reflexivity. Qed.

End LexerFacts.

(** * Token streams *)

Section TokenStreams.

Lemma lex_consumed off s tok k :
  lex off s = Return (tok, k) ->
  (k <= String.length s)%nat /\
  (Token.type tok <> EOF -> (1 <= k)%nat) /\
  (Token.type tok = EOF -> k = O /\ s = "").
Proof.
  unfold lex. destruct s as [|c0 s0]; [intros [= <- <-]; simpl; by auto|].
  generalize (ws_count_le (String c0 s0)).
  generalize (ws_count (String c0 s0)). intros w Hw.
  destruct (sdrop w (String c0 s0)) as [|c s] eqn:E; [done|].
  pose proof (sdrop_length w (String c0 s0)) as L. rewrite E in L.
  pose proof (digit_count_le (String c s)) as D.
  simpl String.length in *.
  destruct (isdecimal c) eqn:Hc.
  { destruct (_ <? _); [done|].
    intros [= <- <-]. simpl in D |- *. rewrite Hc in D |- *.
    repeat split; (lia || done). }
  repeat (case_match; [intros [= <- <-]; simpl; repeat split; (lia || done)|]).
  done.
Qed.

Lemma get_next_token_inv t p tok l' :
  Lexer.get_next_token (lexer_at t p) = Return (tok, l') ->
  exists k, lex p (sdrop p t) = Return (tok, k) /\ l' = lexer_at t (p + k).
Proof.
  rewrite get_next_token_at.
  destruct (lex p (sdrop p t)) as [[tok' k]| |]; [|done..].
  rewrite bind_Return. intros [= <- <-]. eauto.
Qed.

Lemma get_next_token_advance t p tok p1 :
  Lexer.get_next_token (lexer_at t p) = Return (tok, lexer_at t p1) ->
  Token.type tok <> EOF ->
  (p < p1 <= String.length t)%nat.
Proof.
  intros H Hne. apply get_next_token_inv in H as (k & Hk & [= ->]).
  apply lex_consumed in Hk as (H1 & H2 & _). specialize (H2 Hne).
  rewrite sdrop_length in H1. lia.
Qed.

Lemma lexes_app_inv t p toks1 toks2 pe :
  lexes t p (toks1 ++ toks2) pe ->
  exists pm, lexes t p toks1 pm /\ lexes t pm toks2 pe.
Proof.
  revert p. induction toks1 as [|tok toks1 IH]; intros p H; simpl in H.
  - exists p. split; [constructor | done].
  - inversion H as [|? ? p1 ? ? Hg Hl]; subst.
    destruct (IH _ Hl) as (pm & H1 & H2).
    exists pm. split; [econstructor; eauto | done].
Qed.

Lemma lexes_app t p toks1 pm toks2 pe :
  lexes t p toks1 pm -> lexes t pm toks2 pe -> lexes t p (toks1 ++ toks2) pe.
Proof.
  induction 1 as [|? ? ? ? ? Hg Hl IH]; intros H2; simpl; [done|].
  econstructor; eauto.
Qed.

(** Every token but [EOF] takes at least one character of the text. *)
Lemma lexes_length t p toks1 toks2 pe :
  lexes t p (toks1 ++ toks2) pe ->
  Forall (fun tok => Token.type tok <> EOF) toks1 ->
  (length toks1 <= String.length t - p)%nat.
Proof.
  revert p. induction toks1 as [|tok toks1 IH]; intros p H HF; simpl in *.
  - lia.
  - inversion H as [|? ? p1 ? ? Hg Hl]; subst.
    inversion HF as [|? ? Hne HF']; subst.
    pose proof (get_next_token_advance _ _ _ _ Hg Hne).
    specialize (IH _ Hl HF'). lia.
Qed.

End TokenStreams.

(** * Looking ahead *)

Section Peek.

Lemma peek_loop_nth n l token :
  Lexer.peek_loop (S n) l token
  = let* (tok, l') := nth_next_token n l in Return (Some tok, l').
Proof.
  revert l token. induction n as [|n IH]; intros l token.
  - simpl. by destruct (Lexer.get_next_token l) as [[tok l']| |].
  - change (Lexer.peek_loop (S (S n)) l token)
      with (let* (tok, l') := Lexer.get_next_token l in
            Lexer.peek_loop (S n) l' (Some tok)).
    change (nth_next_token (S n) l)
      with (let* (tok, l') := Lexer.get_next_token l in nth_next_token n l').
    destruct (Lexer.get_next_token l) as [[tok l']| |]; [|done..].
    rewrite !bind_Return. cbv beta iota. apply IH.
Qed.

Lemma nth_next_token_at n t p tok l' :
  nth_next_token n (lexer_at t p) = Return (tok, l') ->
  exists p', l' = lexer_at t p'.
Proof.
  revert p. induction n as [|n IH]; intros p; simpl;
    destruct (Lexer.get_next_token (lexer_at t p)) as [[tok1 l1]| |] eqn:E;
    try done; rewrite bind_Return; cbv beta iota;
    apply get_next_token_inv in E as (k & _ & ->).
  - intros [= <- <-]. eauto.
  - apply IH.
Qed.

Lemma peek_next_token_nth l ahead :
  lexer_wf l -> 1 <= ahead ->
  Lexer.peek_next_token l ahead
  = let* (tok, _) := nth_next_token (Z.to_nat ahead - 1) l in Return (tok, l).
Proof.
  intros Hwf Ha. apply lexer_wf_at in Hwf.
  destruct l as [t p c]. simpl in Hwf. rewrite Hwf. clear Hwf c.
  unfold Lexer.peek_next_token.
  assert ((ahead >? 0) = true) as -> by lia.
  destruct (Z.to_nat ahead) as [|n] eqn:En; [lia|].
  rewrite peek_loop_nth. simpl Nat.sub. rewrite Nat.sub_0_r.
  destruct (nth_next_token n (lexer_at t p)) as [[tok l']| |] eqn:E; [|done..].
  destruct (nth_next_token_at _ _ _ _ _ E) as [p' ->].
  rewrite !bind_Return. cbv beta iota zeta.
  by rewrite set_pos_at.
Qed.

End Peek.

(** * The steps of the parser *)

Section ParserSteps.

Context (t : string).

Lemma eat_at p cur ty tok p1 :
  Lexer.get_next_token (lexer_at t p) = Return (tok, lexer_at t p1) ->
  Token.type cur = ty ->
  Parser.eat (Parser.mk (lexer_at t p) cur) ty
  = Return (Parser.mk (lexer_at t p1) tok).
Proof.
  intros Hg <-. unfold Parser.eat. simpl.
  destruct (decide _) as [_|]; [|done]. by rewrite Hg.
Qed.

Lemma peek1_at p cur tok p1 :
  Lexer.get_next_token (lexer_at t p) = Return (tok, lexer_at t p1) ->
  Parser.peek_next_token (Parser.mk (lexer_at t p) cur) 1
  = Return (tok, Parser.mk (lexer_at t p) cur).
Proof.
  intros Hg. unfold Parser.peek_next_token. simpl Parser.lexer.
  rewrite peek_next_token_nth; [|apply lexer_at_wf|lia].
  simpl. by rewrite Hg.
Qed.

Lemma peek2_at p cur tok1 p1 tok2 p2 :
  Lexer.get_next_token (lexer_at t p) = Return (tok1, lexer_at t p1) ->
  Lexer.get_next_token (lexer_at t p1) = Return (tok2, lexer_at t p2) ->
  Parser.peek_next_token (Parser.mk (lexer_at t p) cur) 2
  = Return (tok2, Parser.mk (lexer_at t p) cur).
Proof.
  intros Hg1 Hg2. unfold Parser.peek_next_token. simpl Parser.lexer.
  rewrite peek_next_token_nth; [|apply lexer_at_wf|lia].
  simpl. rewrite Hg1. simpl. by rewrite Hg2.
Qed.

(** An integer and a token that is not a delimiter follow: a modifier. *)
Lemma modifier_follows_int p cur n p1 tok2 p2 :
  Lexer.get_next_token (lexer_at t p) = Return (tINT n, lexer_at t p1) ->
  Lexer.get_next_token (lexer_at t p1) = Return (tok2, lexer_at t p2) ->
  Parser.modifier_follows (Parser.mk (lexer_at t p) cur)
  = Return (bool_decide (Token.type tok2 <> DELIM),
            Parser.mk (lexer_at t p) cur).
Proof.
  intros Hg1 Hg2. unfold Parser.modifier_follows.
  rewrite (peek1_at _ _ _ _ Hg1), bind_Return. cbv beta iota.
  simpl Token.type. destruct (decide _) as [_|]; [|done].
  by rewrite (peek2_at _ _ _ _ _ _ Hg1 Hg2).
Qed.

(** No integer follows: no modifier, and no second look-ahead. *)
Lemma modifier_follows_other p cur tok p1 :
  Lexer.get_next_token (lexer_at t p) = Return (tok, lexer_at t p1) ->
  Token.type tok <> INTEGER ->
  Parser.modifier_follows (Parser.mk (lexer_at t p) cur)
  = Return (false, Parser.mk (lexer_at t p) cur).
Proof.
  intros Hg Hne. unfold Parser.modifier_follows.
  rewrite (peek1_at _ _ _ _ Hg), bind_Return. cbv beta iota.
  by destruct (decide _).
Qed.

Lemma die_loop_unfold fuel ps m :
  Parser.die_loop fuel ps m =
  if is_operator (Token.type (Parser.current_token ps)) then
    let* (is_modifier, p) := Parser.modifier_follows ps in
    if negb is_modifier then Return (m, p)
    else
      match fuel with
      | O => OutOfFuel
      | S fuel' =>
          if decide (Token.type (Parser.current_token p) = PLUS) then
            let* p1 := Parser.eat p PLUS in
            let token := Parser.current_token p1 in
            let* p2 := Parser.eat p1 INTEGER in
            let* n := assert_int (Token.value token) in
            Parser.die_loop fuel' p2 (m + n)
          else
            let* p1 := Parser.eat p MINUS in
            let token := Parser.current_token p1 in
            let* p2 := Parser.eat p1 INTEGER in
            let* n := assert_int (Token.value token) in
            Parser.die_loop fuel' p2 (m - n)
      end
  else Return (m, ps).
Proof. by destruct fuel. Qed.

Lemma dice_loop_unfold fuel ps bag :
  Parser.dice_loop fuel ps bag =
  if is_operator (Token.type (Parser.current_token ps)) then
    match fuel with
    | O => OutOfFuel
    | S fuel' =>
        if decide (Token.type (Parser.current_token ps) = PLUS) then
          let* p1 := Parser.eat ps PLUS in
          let* (d, p2) := Parser.die p1 in
          Parser.dice_loop fuel' p2 (DiceBag.add_die bag d false)
        else
          let* p1 := Parser.eat ps MINUS in
          let* (d, p2) := Parser.die p1 in
          Parser.dice_loop fuel' p2 (DiceBag.add_die bag d true)
    end
  else Return (bag, ps).
Proof. by destruct fuel. Qed.

Lemma die_loop_stops fuel ps m :
  stops ps -> Parser.die_loop fuel ps m = Return (m, ps).
Proof.
  intros [H|H]; rewrite die_loop_unfold.
  - by rewrite H.
  - rewrite H. by destruct (is_operator _).
Qed.

End ParserSteps.

(** * The parser on the token sequence of a derivation *)

Section ParserRuns.

Context (t : string).

Lemma op_token_operator minus : is_operator (Token.type (op_token minus)) = true.
Proof. by destruct minus. Qed.

Lemma mods_tokens_not_EOF cl : Forall not_EOF (mods_tokens cl).
Proof.
  induction cl as [|[minus n] cl IH]; simpl; [constructor|].
  repeat constructor; [by destruct minus | done | done].
Qed.

Lemma term_tokens_not_EOF tm : Forall not_EOF (term_tokens tm).
Proof.
  unfold term_tokens. apply Forall_app. split.
  - destruct (t_num tm); repeat constructor; done.
  - repeat constructor; try done. apply mods_tokens_not_EOF.
Qed.

Lemma rest_tokens_not_EOF rest : Forall not_EOF (rest_tokens rest).
Proof.
  induction rest as [|[minus tm] rest IH]; simpl; [constructor|].
  constructor; [by destruct minus|].
  apply Forall_app. split; [apply term_tokens_not_EOF | done].
Qed.

Lemma mods_tokens_length cl : length (mods_tokens cl) = (2 * length cl)%nat.
Proof. induction cl as [|[minus n] cl IH]; simpl; lia. Qed.

Lemma term_tokens_length tm : (2 <= length (term_tokens tm))%nat.
Proof.
  unfold term_tokens. rewrite length_app. simpl. lia.
Qed.

Lemma rest_tokens_length rest : (length rest <= length (rest_tokens rest))%nat.
Proof.
  induction rest as [|[minus tm] rest IH]; simpl; [lia|].
  rewrite length_app. lia.
Qed.

(** What comes after a run of clauses is an operator, or the token that
    ends the run. *)
Lemma mods_tokens_head cl stop :
  exists next more,
    mods_tokens cl ++ [stop] = next :: more /\
    (cl = [] /\ next = stop \/ is_operator (Token.type next) = true).
Proof.
  destruct cl as [|[minus n] cl]; simpl; eauto 6 using op_token_operator.
Qed.

Lemma die_loop_run cl : forall ps m fuel stop pe,
  sees t ps (mods_tokens cl ++ [stop]) pe ->
  stops (Parser.mk (lexer_at t pe) stop) ->
  (cl <> [] -> Token.type stop <> DELIM) ->
  (length cl <= fuel)%nat ->
  Parser.die_loop fuel ps m
  = Return (apply_mods m cl, Parser.mk (lexer_at t pe) stop).
Proof.
  induction cl as [|[minus n] cl IH]; intros ps m fuel stop pe Hs Hstop Hd Hf.
  - destruct Hs as (p & -> & Hl). inversion Hl; subst.
    by apply die_loop_stops.
  - simpl in Hs. destruct Hs as (p & -> & Hl).
    inversion Hl as [|? ? p1 ? ? Hg1 Hl1]; subst.
    destruct (mods_tokens_head cl stop) as (next & more & Heq & Hnext).
    rewrite Heq in Hl1.
    inversion Hl1 as [|? ? p2 ? ? Hg2 Hl2]; subst.
    assert (Hnd : Token.type next <> DELIM).
    { destruct Hnext as [[-> ->]|Hop]; [by apply Hd|].
      intros E. by rewrite E in Hop. }
    rewrite die_loop_unfold. simpl Parser.current_token.
    rewrite op_token_operator.
    rewrite (modifier_follows_int _ _ _ _ _ _ _ Hg1 Hg2), bind_Return.
    cbv beta iota. rewrite bool_decide_eq_true_2 by done. simpl negb.
    cbv iota. destruct fuel as [|fuel]; [simpl in Hf; lia|].
    assert (Hsees : sees t (Parser.mk (lexer_at t p2) next)
                      (mods_tokens cl ++ [stop]) pe).
    { rewrite Heq. by exists p2. }
    destruct minus; simpl Parser.current_token; simpl Token.type;
      (destruct (decide _) as [?|?]; [try done|try done]);
      rewrite (eat_at _ _ _ _ _ _ Hg1), bind_Return by reflexivity;
      cbv zeta; simpl Parser.current_token;
      rewrite (eat_at _ _ _ _ _ _ Hg2), bind_Return by reflexivity;
      simpl assert_int; rewrite bind_Return;
      (rewrite (IH _ _ _ _ _ Hsees Hstop); [done| |simpl in Hf; lia]);
      intros Hne; apply Hd; done.
Qed.

Lemma die_tail num_dice p1 sides cl stop pe :
  lexes t p1 (tINT sides :: mods_tokens cl ++ [stop]) pe ->
  stops (Parser.mk (lexer_at t pe) stop) ->
  (cl <> [] -> Token.type stop <> DELIM) ->
  (let* p2 := Parser.eat (Parser.mk (lexer_at t p1) tDELIM) DELIM in
   let token := Parser.current_token p2 in
   let* p3 := Parser.eat p2 INTEGER in
   let* sides := assert_int (Token.value token) in
   let* (modifier, p4) :=
     Parser.die_loop (String.length (Lexer.text (Parser.lexer p3))) p3 0 in
   Return (Die.mk sides num_dice modifier, p4))
  = Return (Die.mk sides num_dice (apply_mods 0 cl),
            Parser.mk (lexer_at t pe) stop).
Proof.
  intros Hl Hstop Hd.
  inversion Hl as [|? ? p2 ? ? Hg2 Hl2]; subst.
  pose proof (lexes_length _ _ _ _ _ Hl2 (mods_tokens_not_EOF cl)) as Hlen.
  rewrite mods_tokens_length in Hlen.
  destruct (mods_tokens_head cl stop) as (next & more & Heq & _).
  rewrite Heq in Hl2.
  inversion Hl2 as [|? ? p3 ? ? Hg3 Hl3]; subst.
  rewrite (eat_at _ _ _ _ _ _ Hg2), bind_Return by reflexivity.
  cbv zeta. simpl Parser.current_token.
  rewrite (eat_at _ _ _ _ _ _ Hg3), bind_Return by reflexivity.
  simpl assert_int. rewrite bind_Return. simpl Parser.lexer.
  rewrite text_lexer_at.
  rewrite (die_loop_run cl _ _ _ stop pe); [done| |done|done|lia].
  rewrite Heq. by exists p3.
Qed.

Lemma die_run tm ps stop pe :
  sees t ps (term_tokens tm ++ [stop]) pe ->
  stops (Parser.mk (lexer_at t pe) stop) ->
  (t_mods tm <> [] -> Token.type stop <> DELIM) ->
  Parser.die ps = Return (term_die tm, Parser.mk (lexer_at t pe) stop).
Proof.
  destruct tm as [[k|] sides cl]; unfold term_tokens, term_die;
    simpl; intros (p & -> & Hl) Hstop Hd; unfold Parser.die;
    simpl Parser.current_token; simpl Token.type;
    (destruct (decide _) as [?|?]; [try done|try done]).
  - inversion Hl as [|? ? p1 ? ? Hg1 Hl1]; subst.
    rewrite (eat_at _ _ _ _ _ _ Hg1), bind_Return by reflexivity.
    simpl assert_int. rewrite !bind_Return. cbv beta iota.
    by apply die_tail.
  - rewrite bind_Return. cbv beta iota. by apply die_tail.
Qed.

End ParserRuns.

Section FormulaRuns.

Context (t : string).

(** What follows a die in a formula: the closing token, or an operator
    and the next die. *)
Lemma rest_tokens_head rest stop :
  exists stop' more,
    rest_tokens rest ++ [stop] = stop' :: more /\
    (rest = [] /\ stop' = stop /\ more = [] \/
     exists minus tm rest',
       rest = (minus, tm) :: rest' /\ stop' = op_token minus /\
       more = term_tokens tm ++ rest_tokens rest' ++ [stop]).
Proof.
  destruct rest as [|[minus tm] rest]; simpl.
  - eauto 8.
  - eexists _, _. split; [done|]. right. eexists _, _, _.
    by rewrite <- app_assoc.
Qed.

(** An operator in front of a die is not followed by a modifier. *)
Lemma stops_before_term p minus tm more pe :
  lexes t p (term_tokens tm ++ more) pe ->
  stops (Parser.mk (lexer_at t p) (op_token minus)).
Proof.
  intros Hl. right. destruct tm as [[k|] sides cl]; unfold term_tokens in Hl;
    simpl in Hl; inversion Hl as [|? ? p1 ? ? Hg1 Hl1]; subst.
  - inversion Hl1 as [|? ? p2 ? ? Hg2 Hl2]; subst.
    by rewrite (modifier_follows_int _ _ _ _ _ _ _ Hg1 Hg2).
  - by rewrite (modifier_follows_other _ _ _ _ _ Hg1).
Qed.

Lemma die_in_formula tm rest ps stop pe :
  sees t ps (term_tokens tm ++ rest_tokens rest ++ [stop]) pe ->
  is_operator (Token.type stop) = false ->
  (t_mods (last_term tm rest) <> [] -> Token.type stop <> DELIM) ->
  exists ps',
    Parser.die ps = Return (term_die tm, ps') /\
    sees t ps' (rest_tokens rest ++ [stop]) pe /\
    Lexer.text (Parser.lexer ps') = t.
Proof.
  intros Hs Hop Hd.
  destruct (rest_tokens_head rest stop) as (stop' & more & Heq & Hcases).
  rewrite Heq in Hs |- *.
  assert (Hs' : exists pm,
             sees t ps (term_tokens tm ++ [stop']) pm /\ lexes t pm more pe).
  { pose proof (term_tokens_length tm) as Hlen.
    destruct (term_tokens tm) as [|first tl]; [simpl in Hlen; lia|].
    simpl in Hs |- *. destruct Hs as (p & -> & Hl).
    change (stop' :: more) with ([stop'] ++ more) in Hl.
    rewrite app_assoc in Hl.
    apply lexes_app_inv in Hl as (pm & Hl1 & Hl2). eauto. }
  destruct Hs' as (pm & Hs1 & Hl2).
  exists (Parser.mk (lexer_at t pm) stop'). split; [|split; [by exists pm|done]].
  apply die_run; [done| |].
  - destruct Hcases as [(-> & -> & ->)|(minus & tm' & rest' & -> & -> & ->)].
    + by left.
    + by eapply stops_before_term.
  - destruct Hcases as [(-> & -> & ->)|(minus & tm' & rest' & -> & -> & ->)].
    + done.
    + intros _. by destruct minus.
Qed.

Lemma dice_loop_run rest : forall ps bag fuel stop pe,
  sees t ps (rest_tokens rest ++ [stop]) pe ->
  is_operator (Token.type stop) = false ->
  match rest with
  | [] => True
  | (_, tm) :: rest' =>
      t_mods (last_term tm rest') <> [] -> Token.type stop <> DELIM
  end ->
  (length rest <= fuel)%nat ->
  Parser.dice_loop fuel ps bag
  = Return (DiceBag.mk (DiceBag._bag bag ++ rest_items rest),
            Parser.mk (lexer_at t pe) stop).
Proof.
  induction rest as [|[minus tm] rest IH]; intros ps bag fuel stop pe Hs Hop Hd Hf.
  - destruct Hs as (p & -> & Hl). inversion Hl; subst.
    rewrite dice_loop_unfold. simpl Parser.current_token. rewrite Hop.
    destruct bag as [items]. simpl. by rewrite app_nil_r.
  - simpl in Hs. destruct Hs as (p & -> & Hl).
    rewrite <- app_assoc in Hl.
    pose proof (term_tokens_length tm) as Hlen.
    destruct (term_tokens tm) as [|first tl] eqn:Etm; [simpl in Hlen; lia|].
    simpl in Hl. inversion Hl as [|? ? p1 ? ? Hg1 Hl1]; subst.
    assert (Hs1 : sees t (Parser.mk (lexer_at t p1) first)
                    (term_tokens tm ++ rest_tokens rest ++ [stop]) pe).
    { rewrite Etm. simpl. by exists p1. }
    destruct (die_in_formula _ _ _ _ _ Hs1 Hop Hd) as (ps' & Hdie & Hs' & _).
    rewrite dice_loop_unfold. simpl Parser.current_token.
    rewrite op_token_operator.
    destruct fuel as [|fuel]; [simpl in Hf; lia|].
    assert (Hd' : match rest with
                  | [] => True
                  | (_, tm0) :: rest' =>
                      t_mods (last_term tm0 rest') <> [] ->
                      Token.type stop <> DELIM
                  end).
    { destruct rest as [|[minus' tm'] rest']; [done | exact Hd]. }
    destruct minus; simpl Token.type;
      (destruct (decide _) as [?|?]; [try done|try done]);
      rewrite (eat_at _ _ _ _ _ _ Hg1), bind_Return by reflexivity;
      rewrite Hdie, bind_Return; cbv beta iota;
      (rewrite (IH _ _ _ _ _ Hs' Hop Hd'); [|simpl in Hf; lia]);
      simpl; by rewrite <- app_assoc.
Qed.

Lemma dice_run f ps stop pe :
  sees t ps (formula_tokens f ++ [stop]) pe ->
  is_operator (Token.type stop) = false ->
  (t_mods (last_term (fst f) (snd f)) <> [] -> Token.type stop <> DELIM) ->
  Parser.dice ps = Return (formula_bag f, Parser.mk (lexer_at t pe) stop).
Proof.
  destruct f as [tm rest]. unfold formula_tokens. simpl fst. simpl snd.
  rewrite <- app_assoc. intros Hs Hop Hd.
  assert (Hfuel : (length rest <= String.length t)%nat).
  { pose proof (term_tokens_length tm) as Hlen.
    pose proof (term_tokens_not_EOF tm) as HF.
    destruct (term_tokens tm) as [|first tl]; [simpl in Hlen; lia|].
    simpl in Hs. destruct Hs as (p & _ & Hl).
    rewrite app_assoc in Hl. apply lexes_length in Hl.
    - rewrite length_app in Hl. pose proof (rest_tokens_length rest).
      simpl in Hlen. lia.
    - apply Forall_app. split; [by inversion HF | apply rest_tokens_not_EOF]. }
  destruct (die_in_formula _ _ _ _ _ Hs Hop Hd) as (ps' & Hdie & Hs' & Htext).
  unfold Parser.dice. rewrite Hdie, bind_Return. cbv beta iota zeta.
  rewrite Htext.
  rewrite (dice_loop_run rest _ _ _ stop pe); [done|done|done| |done].
  destruct rest as [|[minus' tm'] rest']; [done | exact Hd].
Qed.

(** A text that spells a derivation of the grammar up to a closing token
    parses to the bag of that derivation.  The closing token is no
    operator, and no delimiter when the last die has a modifier clause. *)
Lemma from_str_run f stop pe :
  lexes t O (formula_tokens f ++ [stop]) pe ->
  is_operator (Token.type stop) = false ->
  (t_mods (last_term (fst f) (snd f)) <> [] -> Token.type stop <> DELIM) ->
  from_str t = Return (formula_bag f).
Proof.
  intros Hl Hop Hd. unfold from_str, Parser.init.
  destruct (formula_tokens f ++ [stop]) as [|first tl] eqn:E.
  { by destruct (formula_tokens f). }
  inversion Hl as [|? ? p1 ? ? Hg1 Hl1]; subst.
  assert (Hne : t <> "").
  { intros ->. pose proof (term_tokens_length (fst f)) as Hlen.
    unfold formula_tokens in E.
    pose proof (term_tokens_not_EOF (fst f)) as HF.
    destruct (term_tokens (fst f)) as [|first' tl']; [simpl in Hlen; lia|].
    simpl in E. injection E as <- _. inversion HF as [|? ? Hne _]; subst.
    by vm_compute in Hg1; injection Hg1 as <- _. }
  assert (Hinit : Lexer.init t = Return (lexer_at t 0)) by by destruct t.
  rewrite Hinit, bind_Return, Hg1, !bind_Return. cbv beta iota.
  rewrite (dice_run f _ stop pe); [done| |done|done].
  rewrite E. by exists p1.
Qed.

End FormulaRuns.

(** * Lexing a rendered number *)

Section Digits.

Lemma all_digits_cons c ds :
  all_digits (String c ds) <-> isdecimal c = true /\ all_digits ds.
Proof.
  unfold all_digits. simpl. pose proof (digit_count_le ds).
  destruct (isdecimal c); split; intros; try lia; try tauto;
    try (split; [done | lia]).
Qed.

Lemma digits_val_app ds rest acc :
  all_digits ds ->
  digits_val acc (ds +:+ rest) = digits_val (digits_val acc ds) rest.
Proof.
  revert acc. induction ds as [|c ds IH]; intros acc H; [done|].
  apply all_digits_cons in H as [Hc H]. rewrite app_cons. simpl.
  rewrite Hc. by apply IH.
Qed.

Lemma digit_count_app ds rest :
  all_digits ds ->
  digit_count (ds +:+ rest) = (String.length ds + digit_count rest)%nat.
Proof.
  induction ds as [|c ds IH]; intros H; [done|].
  apply all_digits_cons in H as [Hc H]. rewrite app_cons. simpl.
  rewrite Hc. by rewrite IH.
Qed.

Lemma digits_val_stop acc rest : digit_count rest = O -> digits_val acc rest = acc.
Proof. destruct rest as [|c rest]; simpl; [done|]. by destruct (isdecimal c). Qed.

Lemma pretty_N_char_digit d :
  (d < 10)%N ->
  isdecimal (pretty_N_char d) = true /\
  digit_value (pretty_N_char d) = Z.of_N d.
Proof.
  intros H.
  assert (d = 0 \/ d = 1 \/ d = 2 \/ d = 3 \/ d = 4 \/ d = 5 \/ d = 6 \/ d = 7
          \/ d = 8 \/ d = 9)%N as Hd by lia.
  repeat (destruct Hd as [->|Hd]; [by vm_compute|]). subst. by vm_compute.
Qed.

Lemma pretty_N_go_digits x :
  exists ds,
    (forall s, pretty_N_go x s = ds +:+ s) /\
    all_digits ds /\ digits_val 0 ds = Z.of_N x /\
    ((0 < x)%N -> ds <> "").
Proof.
  induction (N.lt_wf_0 x) as [x _ IH].
  destruct (decide (0 < x)%N) as [Hpos|Hz].
  - destruct (IH (x `div` 10)%N) as (ds & Hgo & Hall & Hval & _).
    { by apply N.div_lt. }
    destruct (pretty_N_char_digit (x `mod` 10)%N) as [Hc Hv].
    { by apply N.mod_lt. }
    exists (ds +:+ String (pretty_N_char (x `mod` 10)) "").
    split; [|split; [|split]].
    + intros s. by rewrite pretty_N_go_step, Hgo, app_assoc_s.
    + unfold all_digits. rewrite digit_count_app, length_app_s by done.
      simpl. by rewrite Hc.
    + rewrite digits_val_app by done. simpl. rewrite Hc, Hval, Hv.
      rewrite (N.div_mod x 10) at 3 by done. lia.
    + intros _. by destruct ds.
  - assert (x = 0%N) as -> by lia. exists "".
    split; [|split; [|split]]; try done.
    all: intros s; by rewrite pretty_N_go_0.
Qed.

(** [str(n)] of a natural number is its run of decimal digits. *)
Lemma decimal_digits n :
  0 <= n ->
  all_digits (decimal n) /\ decimal n <> "" /\ digits_val 0 (decimal n) = n.
Proof.
  intros Hn. destruct n as [|p|p]; [by vm_compute| |lia].
  unfold decimal, pretty, pretty_Z, pretty, pretty_positive, pretty, pretty_N.
  destruct (decide _) as [|_]; [done|].
  destruct (pretty_N_go_digits (N.pos p)) as (ds & Hgo & Hall & Hval & Hne).
  rewrite Hgo, app_empty_r. split; [done|split]; [|by rewrite Hval].
  apply Hne. lia.
Qed.

(** The digits that [pretty] writes for a number below [10 ^ k] are at
    most [k]. *)
Lemma pretty_N_go_length x : forall s k,
  0 <= k -> Z.of_N x < 10 ^ k ->
  Z.of_nat (String.length (pretty_N_go x s))
  <= k + Z.of_nat (String.length s).
Proof.
  induction (N.lt_wf_0 x) as [x _ IH]. intros s k Hk Hx.
  destruct (decide (0 < x)%N) as [Hpos|Hz].
  - assert (1 <= k) as Hk1.
    { destruct (decide (k = 0)) as [->|]; [|lia]. simpl in Hx. lia. }
    rewrite pretty_N_go_step by done.
    etrans; [apply (IH (x `div` 10)%N); [by apply N.div_lt| |]|].
    + instantiate (1 := k - 1). lia.
    + rewrite N2Z.inj_div. apply Z.div_lt_upper_bound; [lia|].
      by rewrite <- Z.pow_succ_r, Z.sub_1_r, Z.succ_pred by lia.
    + simpl String.length. lia.
  - assert (x = 0%N) as -> by lia. rewrite pretty_N_go_0. lia.
Qed.

Lemma decimal_length n k :
  0 <= n -> 1 <= k -> n < 10 ^ k -> Z.of_nat (String.length (decimal n)) <= k.
Proof.
  intros Hn Hk Hlt. destruct n as [|q|q]; [simpl; lia| |lia].
  unfold decimal, pretty, pretty_Z, pretty, pretty_positive, pretty, pretty_N.
  destruct (decide _) as [|_]; [done|].
  pose proof (pretty_N_go_length (N.pos q) "" k) as H. simpl String.length in H.
  rewrite Z.add_0_r in H. apply H; [lia|done].
Qed.

Lemma decimal_fits n :
  0 <= n -> fits n -> Z.of_nat (String.length (decimal n)) <= max_str_digits.
Proof.
  intros Hn Hf. apply decimal_length; [done|by unfold max_str_digits|].
  unfold fits, digit_limit in Hf. lia.
Qed.

Lemma lex_off off off' s r : lex off s = Return r -> lex off' s = Return r.
Proof.
  unfold lex. destruct s as [|c0 s0]; [done|].
  destruct (sdrop _ _) as [|c s]; [done|].
  repeat case_match; done.
Qed.

(** A rendered natural number that [str] converts, not followed by a
    digit, lexes to an [INTEGER] token with its value. *)
Lemma lex_decimal off n rest :
  0 <= n -> fits n -> digit_count rest = O ->
  lex off (decimal n +:+ rest)
  = Return (tINT n, String.length (decimal n)).
Proof.
  intros Hn Hfit Hrest. destruct (decimal_digits n Hn) as (Hall & Hne & Hval).
  pose proof (decimal_fits n Hn Hfit) as Hlen.
  destruct (decimal n) as [|c ds] eqn:E; [done|].
  pose proof Hall as Hall'. apply all_digits_cons in Hall' as [Hc _].
  rewrite app_cons. unfold lex.
  simpl ws_count. rewrite (isdecimal_not_space _ Hc). simpl sdrop.
  cbv zeta iota. rewrite Hc. rewrite <- !app_cons.
  rewrite digits_val_app, digit_count_app, Hval, Hrest by done.
  rewrite digits_val_stop, Nat.add_0_r by done.
  by destruct (Z.ltb_spec max_str_digits
                 (Z.of_nat (String.length (String c ds)))); [lia|].
Qed.

Lemma lex_space off c s :
  isspace c = true -> s <> "" ->
  lex off (String c s)
  = let* (tok, k) := lex (off + 1) s in Return (tok, S k).
Proof.
  intros Hc Hs. unfold lex. destruct s as [|c1 s1]; [done|].
  assert (Hw : ws_count (String c (String c1 s1))
               = S (ws_count (String c1 s1))) by (simpl; by rewrite Hc).
  rewrite Hw. cbv zeta. generalize (ws_count (String c1 s1)). intros w.
  change (sdrop (S w) (String c (String c1 s1))) with (sdrop w (String c1 s1)).
  destruct (sdrop _ _) as [|c' s']; [done|].
  destruct (isdecimal c'); [by destruct (_ <? _)|].
  repeat (case_match; [done|]).
  by rewrite Nat.add_succ_r, Nat.add_1_r.
Qed.

End Digits.

(** * Lexing a rendered bag *)

Section Rendering.

Lemma slexes_lexes t toks : forall p k,
  slexes (sdrop p t) toks k -> lexes t p toks (p + k).
Proof.
  induction toks as [|tok toks IH]; intros p k H;
    inversion H as [|? ? k1 ? k2 Hlex Hs]; subst.
  - rewrite Nat.add_0_r. constructor.
  - rewrite sdrop_sdrop in Hs. apply IH in Hs. apply (lex_off _ p) in Hlex.
    rewrite Nat.add_assoc. econstructor; [|done].
    by rewrite get_next_token_at, Hlex.
Qed.

Lemma slexes_app s toks1 k1 toks2 k2 :
  slexes s toks1 k1 -> slexes (sdrop k1 s) toks2 k2 ->
  slexes s (toks1 ++ toks2) (k1 + k2).
Proof.
  induction 1 as [|s tok k toks k' Hl Hs IH]; intros H2; simpl; [done|].
  rewrite <- Nat.add_assoc. econstructor; [done|].
  apply IH. by rewrite sdrop_sdrop.
Qed.

Lemma slexes_one s tok k : lex O s = Return (tok, k) -> slexes s [tok] k.
Proof.
  intros H. rewrite <- (Nat.add_0_r k). econstructor; [done | constructor].
Qed.

Lemma Die_str_tail d : die_text d = decimal (Die.num_dice d) +:+ die_tail_str d.
Proof. reflexivity. Qed.

(** [str] of an integer that fits is its decimal text, and so for a die
    and a bag. *)
Lemma str_int_fits n : fits n -> str_int n = Return (decimal n).
Proof.
  unfold fits, str_int. intros H.
  by destruct (Z.leb_spec digit_limit (Z.abs n)); [lia|].
Qed.

Lemma fits_below k n :
  0 <= k <= max_str_digits -> Z.abs n < 10 ^ k -> fits n.
Proof.
  intros Hk Hn. unfold fits, digit_limit.
  eapply Z.lt_le_trans; [done|]. apply Z.pow_le_mono_r; lia.
Qed.

Lemma str_int_too_long n : ~ fits n -> str_int n = Raise DigitLimit.
Proof.
  unfold fits, str_int. intros H.
  by destruct (Z.leb_spec digit_limit (Z.abs n)); [|lia].
Qed.

Lemma format_plus_fits n : fits n -> format_plus n = Return (signed_decimal n).
Proof.
  intros H. unfold format_plus, signed_decimal. by rewrite str_int_fits.
Qed.

Lemma Die_str_text d : printable_die d -> Die.str d = Return (die_text d).
Proof.
  intros (Hs & Hn & Hm). unfold Die.str, die_text, die_tail_str.
  rewrite !str_int_fits, format_plus_fits by done.
  destruct (_ =? _); by rewrite !bind_Return.
Qed.

Lemma str_loop_text items : forall acc,
  Forall printable items ->
  DiceBag.str_loop items acc = Return (acc +:+ render_rest items).
Proof.
  induction items as [|item items IH]; intros acc H; simpl.
  - by rewrite app_empty_r.
  - inversion H as [|? ? Hi H']; subst.
    rewrite (Die_str_text _ Hi), bind_Return, IH by done.
    by rewrite !app_assoc_s.
Qed.

Lemma DiceBag_str_text item0 items :
  Forall printable (item0 :: items) ->
  DiceBag.str (DiceBag.mk (item0 :: items)) = Return (bag_text item0 items).
Proof.
  intros H. inversion H as [|? ? Hi H']; subst. unfold DiceBag.str.
  simpl DiceBag._bag. cbv iota.
  by rewrite (Die_str_text _ Hi), bind_Return, str_loop_text.
Qed.

Lemma render_rest_no_digit items : digit_count (render_rest items) = O.
Proof. by destruct items. Qed.

Lemma slexes_die_tail d rest :
  natural_die d -> printable_die d -> digit_count rest = O ->
  slexes (die_tail_str d +:+ rest)
    ([tDELIM; tINT (Die.sides d)] ++ mods_tokens (t_mods (die_term d)))
    (String.length (die_tail_str d)).
Proof.
  intros (Hs & Hn & Hm) (Fs & Fn & Fm) Hrest.
  unfold die_tail_str, die_term. simpl t_mods.
  destruct (Die.modifier d =? 0) eqn:E.
  - simpl mods_tokens. rewrite app_nil_r, app_assoc_s.
    change (String.length ("d" +:+ ?x)) with (1 + String.length x)%nat.
    apply (slexes_cons _ tDELIM 1); [done|].
    change (sdrop 1 ("d" +:+ ?x)) with x.
    apply slexes_one. by apply lex_decimal.
  - apply Z.eqb_neq in E. unfold signed_decimal.
    assert ((Die.modifier d <? 0) = false) as -> by lia.
    rewrite !app_assoc_s.
    change (String.length ("d" +:+ ?x)) with (1 + String.length x)%nat.
    rewrite length_app_s.
    change (String.length ("+" +:+ ?x)) with (1 + String.length x)%nat.
    apply (slexes_cons _ tDELIM 1); [done|].
    change (sdrop 1 ("d" +:+ ?x)) with x.
    apply (slexes_cons _ (tINT (Die.sides d))); [by apply lex_decimal|].
    rewrite sdrop_length_app.
    apply (slexes_cons _ tPLUS 1); [done|].
    change (sdrop 1 ("+" +:+ ?x)) with x.
    apply slexes_one. by apply lex_decimal.
Qed.

Lemma slexes_die d rest :
  natural_die d -> printable_die d -> digit_count rest = O ->
  slexes (die_text d +:+ rest) (term_tokens (die_term d))
    (String.length (die_text d)).
Proof.
  intros Hd Hp Hrest. rewrite Die_str_tail, app_assoc_s, length_app_s.
  unfold term_tokens. simpl t_num.
  apply (slexes_cons _ (tINT (Die.num_dice d))).
  - apply lex_decimal; [apply Hd|apply Hp|]. unfold die_tail_str.
    by destruct (_ =? _).
  - rewrite sdrop_length_app. by apply slexes_die_tail.
Qed.

Lemma slexes_space_die d rest :
  natural_die d -> printable_die d -> digit_count rest = O ->
  slexes (" " +:+ die_text d +:+ rest) (term_tokens (die_term d))
    (1 + String.length (die_text d)).
Proof.
  intros Hd Hp Hrest. rewrite Die_str_tail, app_assoc_s, length_app_s.
  unfold term_tokens. simpl t_num. rewrite Nat.add_assoc.
  apply (slexes_cons _ (tINT (Die.num_dice d))).
  - change (" " +:+ ?x) with (String " " x).
    rewrite lex_space; [|done|].
    + rewrite (lex_decimal 1); [done|apply Hd|apply Hp|]. unfold die_tail_str.
      by destruct (_ =? _).
    + destruct (decimal_digits (Die.num_dice d)) as (_ & Hne & _); [apply Hd|].
      by destruct (decimal (Die.num_dice d)).
  - change (sdrop (1 + ?n) (" " +:+ ?x)) with (sdrop n x).
    rewrite sdrop_length_app. by apply slexes_die_tail.
Qed.

End Rendering.

Section BagRendering.

Lemma term_die_die_term d : term_die (die_term d) = d.
Proof.
  destruct d as [s n m]. unfold term_die, die_term. simpl. f_equal.
  destruct (m =? 0) eqn:E; simpl; [|done].
  apply Z.eqb_eq in E. by subst.
Qed.

Lemma rest_items_items_rest items : rest_items (items_rest items) = items.
Proof.
  induction items as [|[d sub] items IH]; simpl; [done|].
  by rewrite term_die_die_term, IH.
Qed.

Lemma slexes_render_rest items :
  Forall plain_item items -> Forall printable items ->
  slexes (render_rest items) (rest_tokens (items_rest items) ++ [tEOF])
    (String.length (render_rest items)).
Proof.
  induction 1 as [|[d sub] items [Hd Hsub] _ IH]; intros Hp.
  - by apply slexes_one.
  - inversion Hp as [|? ? Hpd Hp']; subst. unfold printable in Hpd.
    specialize (IH Hp'). simpl in Hd, Hsub, Hpd. subst sub.
    change (render_rest (DiceBagItem.mk d false :: items))
      with (" " +:+ "+" +:+ " " +:+ die_text d +:+ render_rest items).
    change (rest_tokens (items_rest (DiceBagItem.mk d false :: items)))
      with (tPLUS :: term_tokens (die_term d)
                  ++ rest_tokens (items_rest items)).
    rewrite <- app_comm_cons, <- app_assoc.
    change (String.length (" " +:+ "+" +:+ " " +:+ ?x))
      with (2 + (1 + String.length x))%nat.
    apply (slexes_cons _ tPLUS 2); [done|].
    change (sdrop 2 (" " +:+ "+" +:+ ?x)) with x.
    rewrite length_app_s, Nat.add_assoc.
    apply slexes_app.
    + apply slexes_space_die; [done | done | apply render_rest_no_digit].
    + change (sdrop (1 + ?n) (" " +:+ ?x)) with (sdrop n x).
      by rewrite sdrop_length_app.
Qed.

(** The text of a bag of plain items that [str] converts spells the
    derivation made of its dice. *)
Lemma lexes_DiceBag_str item0 items :
  Forall plain_item (item0 :: items) -> Forall printable (item0 :: items) ->
  lexes (bag_text item0 items) O
    (formula_tokens (die_term (DiceBagItem.die item0), items_rest items)
       ++ [tEOF])
    (String.length (bag_text item0 items)).
Proof.
  intros H Hp. inversion H as [|? ? [Hd _] Hitems]; subst.
  inversion Hp as [|? ? Hpd Hp']; subst.
  unfold bag_text.
  apply (slexes_lexes _ _ O). simpl sdrop at 1.
  unfold formula_tokens. simpl fst. simpl snd. rewrite <- app_assoc.
  rewrite length_app_s. apply slexes_app.
  - apply slexes_die; [done | done | apply render_rest_no_digit].
  - rewrite sdrop_length_app. by apply slexes_render_rest.
Qed.

End BagRendering.

(** * Properties of the parser *)

Lemma apply_mods_net cl : forall m, apply_mods m cl = m + net_modifier cl.
Proof.
  unfold apply_mods, net_modifier.
  induction cl as [|[minus n] cl IH]; intros m; simpl.
  - lia.
  - rewrite IH. unfold signed. simpl. destruct minus; lia.
Qed.

(** C1.  In the loop of [die], when the current token is an operator, the
    next token is an integer [n] and the token [next] after it is lexed:
    if [next] is not a delimiter, the loop consumes the operator and the
    integer and goes on with the modifier increased (PLUS) or decreased
    (MINUS) by [n]; if [next] is a delimiter, the loop of [die] ends with
    the modifier and the operator untouched, and the loop of [dice]
    consumes the operator and parses a new die that starts at the integer,
    added for PLUS and subtracted for MINUS.  So ["2d6+5d4"] is two added
    dice without modifier, and ["2d6+5+1d4"] is [2d6+5] and an added
    [1d4]. *)
Theorem modifier_or_new_die :
  (forall t p cur n p1 next p2 m fuel bag,
      is_operator (Token.type cur) = true ->
      Lexer.get_next_token (lexer_at t p) = Return (tINT n, lexer_at t p1) ->
      Lexer.get_next_token (lexer_at t p1) = Return (next, lexer_at t p2) ->
      let ps := Parser.mk (lexer_at t p) cur in
      (Token.type next <> DELIM ->
       Parser.die_loop (S fuel) ps m
       = Parser.die_loop fuel (Parser.mk (lexer_at t p2) next)
           (if decide (Token.type cur = PLUS) then m + n else m - n)) /\
      (Token.type next = DELIM ->
       Parser.die_loop fuel ps m = Return (m, ps) /\
       Parser.dice_loop (S fuel) ps bag
       = let* (d, ps') := Parser.die (Parser.mk (lexer_at t p1) (tINT n)) in
         Parser.dice_loop fuel ps'
           (DiceBag.add_die bag d (bool_decide (Token.type cur = MINUS))))) /\
  from_str "2d6+5d4" = Return (bag_of [(2, 6, 0, false); (5, 4, 0, false)]) /\
  from_str "2d6+5+1d4" = Return (bag_of [(2, 6, 5, false); (1, 4, 0, false)]).
Proof.
  split; [|split; by vm_compute].
  intros t p cur n p1 next p2 m fuel bag Hop Hg1 Hg2 ps. split.
  - intros Hnd. rewrite die_loop_unfold. subst ps. simpl Parser.current_token.
    rewrite Hop, (modifier_follows_int _ _ _ _ _ _ _ Hg1 Hg2), bind_Return.
    cbv beta iota. rewrite bool_decide_eq_true_2 by done. simpl negb.
    cbv iota. simpl Parser.current_token.
    destruct (decide (Token.type cur = PLUS)) as [E|E].
    + rewrite (eat_at _ _ _ _ _ _ Hg1), bind_Return by done.
      cbv zeta. simpl Parser.current_token.
      by rewrite (eat_at _ _ _ _ _ _ Hg2), bind_Return by done.
    + assert (Token.type cur = MINUS) as E'.
      { by destruct (Token.type cur). }
      rewrite (eat_at _ _ _ _ _ _ Hg1), bind_Return by done.
      cbv zeta. simpl Parser.current_token.
      by rewrite (eat_at _ _ _ _ _ _ Hg2), bind_Return by done.
  - intros Hd. split.
    + apply die_loop_stops. right. subst ps.
      rewrite (modifier_follows_int _ _ _ _ _ _ _ Hg1 Hg2).
      by rewrite bool_decide_eq_false_2 by (intros H; by apply H).
    + rewrite dice_loop_unfold. subst ps. simpl Parser.current_token.
      rewrite Hop. destruct (decide (Token.type cur = PLUS)) as [E|E].
      * rewrite (eat_at _ _ _ _ _ _ Hg1), bind_Return by done.
        rewrite bool_decide_eq_false_2; [done|]. by rewrite E.
      * assert (Token.type cur = MINUS) as E'.
        { by destruct (Token.type cur). }
        rewrite (eat_at _ _ _ _ _ _ Hg1), bind_Return by done.
        by rewrite bool_decide_eq_true_2.
Qed.

Lemma modifier_or_new_die_witness :
  let t := "2d6+5d4" in
  Parser.die_loop 7 (Parser.mk (lexer_at t 4) tPLUS) 0
  = Return (0, Parser.mk (lexer_at t 4) tPLUS) /\
  Parser.dice_loop 8 (Parser.mk (lexer_at t 4) tPLUS)
    (bag_of [(2, 6, 0, false)])
  = let* (d, ps') := Parser.die (Parser.mk (lexer_at t 5) (tINT 5)) in
    Parser.dice_loop 7 ps'
      (DiceBag.add_die (bag_of [(2, 6, 0, false)]) d false).
Proof.
  intros t.
  apply (proj1 modifier_or_new_die t 4%nat tPLUS 5 5%nat tDELIM 6%nat 0 7%nat
           (bag_of [(2, 6, 0, false)]));
    reflexivity.
Defined.

(** C2.  When the parser is before a die whose modifier clauses are the
    run [t_mods tm], and the run is maximal (the loop of [die] stops at the
    token after it, which is no delimiter), [die] returns the die with the
    single modifier [net_modifier]: the sum of the integers of the run,
    each PLUS integer added and each MINUS integer subtracted.  So
    ["2d10-1+7-2d4+1-1+2"] is an added [2d10+6] and a subtracted
    [2d4+2]. *)
Theorem modifiers_accumulate :
  (forall t ps tm stop pe,
      sees t ps (term_tokens tm ++ [stop]) pe ->
      stops (Parser.mk (lexer_at t pe) stop) ->
      (t_mods tm <> [] -> Token.type stop <> DELIM) ->
      Parser.die ps
      = Return (Die.mk (t_sides tm) (default 1 (t_num tm))
                  (net_modifier (t_mods tm)),
                Parser.mk (lexer_at t pe) stop)) /\
  from_str "2d10-1+7-2d4+1-1+2"
  = Return (bag_of [(2, 10, 6, false); (2, 4, 2, true)]).
Proof.
  split; [|by vm_compute].
  intros t ps tm stop pe Hs Hstop Hd.
  rewrite (die_run _ _ _ _ _ Hs Hstop Hd). unfold term_die.
  by rewrite apply_mods_net.
Qed.

Lemma modifiers_accumulate_witness :
  Parser.die (Parser.mk (lexer_at "d20+2+4-1" 1) tDELIM)
  = Return (Die.mk 20 1 5, Parser.mk (lexer_at "d20+2+4-1" 9) tEOF).
Proof.
  apply (proj1 modifiers_accumulate "d20+2+4-1"
           (Parser.mk (lexer_at "d20+2+4-1" 1) tDELIM)
           (mkTerm None 20 [(false, 2); (false, 4); (true, 1)]) tEOF 9%nat).
  - exists 1%nat. split; [reflexivity|].
    apply (lexes_cons _ _ _ 3%nat); [reflexivity|].
    apply (lexes_cons _ _ _ 4%nat); [reflexivity|].
    apply (lexes_cons _ _ _ 5%nat); [reflexivity|].
    apply (lexes_cons _ _ _ 6%nat); [reflexivity|].
    apply (lexes_cons _ _ _ 7%nat); [reflexivity|].
    apply (lexes_cons _ _ _ 8%nat); [reflexivity|].
    apply (lexes_cons _ _ _ 9%nat); [reflexivity|].
    apply (lexes_cons _ _ _ 9%nat); [reflexivity|].
    apply lexes_nil.
  - left. reflexivity.
  - intros _. simpl. discriminate.
Defined.

Ltac fits_small :=
  apply (fits_below 3); [unfold max_str_digits; lia | simpl; lia].

(** C5.  A non-empty bag whose items are all added and whose dice have
    natural numbers for [sides], [num_dice] and [modifier] (the numbers
    that a die holds: counts, and here a modifier that is not negative),
    each of at most 4300 decimal digits, is parsed back from its
    rendering: [str B] returns a text, and [from_str] of that text returns
    [B] itself, that is the same items in the same order, each with the
    same sides, number of dice, modifier and sign. *)
Theorem str_from_str_roundtrip (B : DiceBag.t) :
  DiceBag._bag B <> [] ->
  Forall plain_item (DiceBag._bag B) ->
  Forall printable (DiceBag._bag B) ->
  exists s, DiceBag.str B = Return s /\ from_str s = Return B.
Proof.
  destruct B as [[|item0 items]]; simpl; [done|]. intros _ H Hp.
  exists (bag_text item0 items). split; [by apply DiceBag_str_text|].
  pose proof (lexes_DiceBag_str _ _ H Hp) as Hl.
  rewrite (from_str_run _ _ tEOF _ Hl); [|done|done].
  unfold formula_bag. simpl fst. simpl snd.
  inversion H as [|? ? [_ Hsub] _]; subst.
  destruct item0 as [d0 sub0]. simpl in Hsub. subst sub0.
  rewrite term_die_die_term. do 3 f_equal. apply rest_items_items_rest.
Qed.

Lemma str_from_str_roundtrip_witness :
  exists s,
    DiceBag.str (bag_of [(2, 6, 3, false); (1, 4, 0, false)]) = Return s /\
    from_str s = Return (bag_of [(2, 6, 3, false); (1, 4, 0, false)]).
Proof.
  apply str_from_str_roundtrip.
  - simpl. discriminate.
  - simpl. repeat constructor; simpl; lia.
  - simpl. repeat constructor; fits_small.
Defined.

(** * Properties of the lexer *)

Section LexerProperties.

(** The invariant holds initially and is kept by [get_next_token]. *)
Lemma init_wf t l : Lexer.init t = Return l -> lexer_wf l.
Proof. destruct t; [done|]. by intros [= <-]. Qed.

Lemma get_next_token_wf l tok l' :
  lexer_wf l -> Lexer.get_next_token l = Return (tok, l') ->
  lexer_wf l' /\ Lexer.text l' = Lexer.text l.
Proof.
  intros Hwf. apply lexer_wf_at in Hwf. rewrite Hwf. intros H.
  apply get_next_token_inv in H as (k & _ & ->). by split.
Qed.

(** At the end of the text the next token is [EOF]. *)
Lemma get_next_token_at_end t p :
  (String.length t <= p)%nat ->
  Lexer.get_next_token (lexer_at t p) = Return (tEOF, lexer_at t p).
Proof.
  intros H. rewrite get_next_token_at, sdrop_all by done. simpl.
  by rewrite Nat.add_0_r.
Qed.

(** Before unread text that is all whitespace, [get_next_token] skips it
    and then asks [None] for [isdecimal]. *)
Lemma get_next_token_trailing_whitespace t p :
  (p < String.length t)%nat ->
  ws_count (sdrop p t) = String.length (sdrop p t) ->
  Lexer.get_next_token (lexer_at t p) = Raise AttributeError.
Proof.
  intros Hp Hws. rewrite get_next_token_at. unfold lex.
  pose proof (sdrop_length p t) as L.
  destruct (sdrop p t) as [|c s] eqn:E; [simpl in L; lia|].
  cbv zeta. rewrite Hws, sdrop_all; done.
Qed.

End LexerProperties.

(** C3.  The formula ["d6"] parses, and with one space appended it does
    not: at position 2 of ["d6 "], where only the space is unread,
    [get_next_token] raises [AttributeError] and returns no [EOF] token,
    and so does [from_str]. *)
Theorem trailing_whitespace_raises :
  Lexer.get_next_token (lexer_at "d6 " 2) = Raise AttributeError /\
  from_str "d6" = Return (bag_of [(1, 6, 0, false)]) /\
  from_str "d6 " = Raise AttributeError.
Proof. repeat split; by vm_compute. Qed.

(** C7.  A lexer cannot be made from the empty string, and neither can a
    parser: [InvalidInput].  ["2x6"] is rejected with [InvalidCharacter]
    for the character [x] at index 1, and ["d"] with [UnexpectedToken],
    an [INTEGER] expected where [EOF] was found.  The outcome is the
    exception alone: no bag is returned. *)
Theorem malformed_input_rejected :
  Lexer.init "" = Raise (InvalidInput "") /\
  from_str "" = Raise (InvalidInput "") /\
  from_str "2x6" = Raise (InvalidCharacter "x" 1) /\
  from_str "d" = Raise (UnexpectedToken INTEGER EOF).
Proof. repeat split; by vm_compute. Qed.

(** C8.  In a lexer state that satisfies the invariant of the class,
    [peek_next_token] with [ahead >= 1] has the outcome of the [ahead]-th
    successive [get_next_token]: the same exception, or the same token
    together with the lexer exactly as it was (text, cursor and current
    character).  With [ahead < 1] it raises [InvalidArgument]. *)
Theorem peek_next_token_frame (l : Lexer.t) (ahead : Z) :
  lexer_wf l ->
  (1 <= ahead ->
   Lexer.peek_next_token l ahead
   = let* (tok, _) := nth_next_token (Z.to_nat ahead - 1) l in
     Return (tok, l)) /\
  (ahead < 1 -> Lexer.peek_next_token l ahead = Raise (InvalidArgument ahead)).
Proof.
  intros Hwf. split.
  - intros Ha. by apply peek_next_token_nth.
  - intros Ha. unfold Lexer.peek_next_token.
    by assert ((ahead >? 0) = false) as -> by lia.
Qed.

Lemma peek_next_token_frame_witness :
  Lexer.peek_next_token (lexer_at "2d6+5d4" 3) 2
  = Return (tINT 5, lexer_at "2d6+5d4" 3) /\
  Lexer.peek_next_token (lexer_at "2d6+5d4" 3) 0 = Raise (InvalidArgument 0).
Proof.
  destruct (peek_next_token_frame (lexer_at "2d6+5d4" 3) 2) as [H _];
    [reflexivity|].
  destruct (peek_next_token_frame (lexer_at "2d6+5d4" 3) 0) as [_ H0];
    [reflexivity|].
  split; [rewrite H by lia; reflexivity | apply H0; lia].
Defined.

(** C10.  ["d0"] parses to a bag of one die with no side, and a die with
    no side and at least one throw cannot be rolled: [randint(1, 0)]
    raises.  So rolling the parsed ["d0"] raises too. *)
Theorem zero_sides_parse_but_no_roll (d : Die.t) (r : Random.t) :
  Die.sides d = 0 -> 1 <= Die.num_dice d ->
  from_str "d0" = Return (bag_of [(1, 0, 0, false)]) /\
  Die.roll d r = Raise (EmptyRange 1 0) /\
  roll "d0" r = Raise (EmptyRange 1 0).
Proof.
  intros Hs Hn. split; [by vm_compute|]. split.
  - unfold Die.roll. rewrite Hs.
    destruct (Z.to_nat (Die.num_dice d)) as [|n] eqn:E; [lia|]. done.
  - done.
Qed.

Lemma zero_sides_parse_but_no_roll_witness :
  Die.roll (Die.mk 0 1 0) (Random.mk (fun _ => 0%N) 0) = Raise (EmptyRange 1 0).
Proof.
  apply (zero_sides_parse_but_no_roll (Die.mk 0 1 0)); simpl; lia.
Defined.

(** * Rolling *)

Section Rolling.

Lemma randint_1 sides r :
  1 <= sides ->
  Random.randint 1 sides r
  = Return (1 + Z.of_N (Random.source r (Random.drawn r)) mod sides,
            next_random r).
Proof.
  intros H. unfold Random.randint.
  assert ((sides <? 1) = false) as -> by lia.
  by replace (sides - 1 + 1) with sides by lia.
Qed.

Lemma sum_draws_draws n : forall sides total r,
  1 <= sides ->
  Die.sum_draws n sides total r
  = Return (total + sum_Z (draws n sides r), Nat.iter n next_random r).
Proof.
  induction n as [|n IH]; intros sides total r H; simpl.
  - by rewrite Z.add_0_r.
  - rewrite randint_1, bind_Return by done. cbv beta iota.
    rewrite IH by done. do 2 f_equal; [lia|].
    clear. revert r. induction n as [|n IH]; intros r; simpl; [done|].
    by rewrite IH.
Qed.

Lemma draws_length n : forall sides r, length (draws n sides r) = n.
Proof. induction n as [|n IH]; intros; simpl; [done | by rewrite IH]. Qed.

Lemma draws_range n : forall sides r,
  1 <= sides -> Forall (fun x => 1 <= x <= sides) (draws n sides r).
Proof.
  induction n as [|n IH]; intros sides r H; simpl; constructor; [|by apply IH].
  pose proof (Z.mod_pos_bound (Z.of_N (Random.source r (Random.drawn r))) sides).
  lia.
Qed.

(** The [i]-th draw reads the [i]-th unused number of the source, and
    nothing else. *)
Lemma draws_lookup n : forall sides r i,
  (i < n)%nat ->
  draws n sides r !! i
  = Some (1 + Z.of_N (Random.source r (Random.drawn r + i)%nat) mod sides).
Proof.
  induction n as [|n IH]; intros sides r i Hi; [lia|].
  destruct i as [|i]; simpl.
  - by rewrite Nat.add_0_r.
  - rewrite IH by lia. simpl. by rewrite Nat.add_succ_r.
Qed.

(** Every sequence of draws in [1, sides] is the one of some source. *)
Lemma draws_any sides xs :
  Forall (fun x => 1 <= x <= sides) xs ->
  exists r, draws (length xs) sides r = xs.
Proof.
  intros H.
  cut (forall k src,
          (forall i x, xs !! i = Some x -> src (k + i)%nat = Z.to_N (x - 1)) ->
          draws (length xs) sides (Random.mk src k) = xs).
  { intros Hcut.
    exists (Random.mk (fun i => Z.to_N (default 1 (xs !! i) - 1)) 0).
    apply Hcut. intros i x Hi. simpl. by rewrite Hi. }
  induction H as [|x xs Hx _ IH]; intros k src Hsrc; simpl; [done|].
  f_equal.
  - rewrite <- (Nat.add_0_r k), (Hsrc 0%nat x eq_refl), Z2N.id by lia.
    rewrite Z.mod_small by lia. lia.
  - apply IH. intros i y Hi. simpl.
    replace (S (k + i)) with (k + S i)%nat by lia. by apply Hsrc.
Qed.

Lemma sum_range l lo hi :
  Forall (fun x => lo <= x <= hi) l ->
  Z.of_nat (length l) * lo <= sum_Z l <= Z.of_nat (length l) * hi.
Proof.
  induction 1 as [|x l Hx _ IH]; simpl length; simpl sum_Z; [lia|].
  rewrite Nat2Z.inj_succ. nia.
Qed.

Lemma Die_roll_draws d r :
  1 <= Die.sides d ->
  Die.roll d r
  = Return (sum_Z (draws (Z.to_nat (Die.num_dice d)) (Die.sides d) r)
              + Die.modifier d,
            Nat.iter (Z.to_nat (Die.num_dice d)) next_random r).
Proof.
  intros H. unfold Die.roll. by rewrite sum_draws_draws.
Qed.

Lemma Die_roll_bounds d r :
  1 <= Die.sides d -> 0 <= Die.num_dice d ->
  exists v r',
    Die.roll d r = Return (v, r') /\
    Die.num_dice d * 1 + Die.modifier d <= v
    <= Die.num_dice d * Die.sides d + Die.modifier d.
Proof.
  intros Hs Hn. rewrite Die_roll_draws by done. eexists _, _. split; [done|].
  pose proof (sum_range _ _ _ (draws_range (Z.to_nat (Die.num_dice d)) _ r Hs)).
  rewrite draws_length, Z2Nat.id in * by done. lia.
Qed.

Lemma sum_rolls_die_rolls items : forall total r,
  DiceBag.sum_rolls items total r
  = let* (vs, r') := die_rolls items r in
    Return (total + signed_sum items vs, r').
Proof.
  induction items as [|item items IH]; intros total r; simpl.
  - unfold signed_sum. simpl. by rewrite Z.add_0_r.
  - unfold DiceBagItem.roll.
    destruct (Die.roll (DiceBagItem.die item) r) as [[v r1]| |]; [|done..].
    rewrite !bind_Return. cbv beta iota zeta. rewrite ?bind_Return, IH.
    destruct (die_rolls items r1) as [[vs r']| |]; [|done..].
    rewrite !bind_Return. cbv beta iota. unfold signed_sum, sign. simpl.
    by rewrite Z.add_assoc.
Qed.

Lemma sum_rolls_bounds items : forall total r,
  Forall rollable items ->
  exists v r',
    DiceBag.sum_rolls items total r = Return (v, r') /\
    total + sum_Z (map item_lo items) <= v
    <= total + sum_Z (map item_hi items).
Proof.
  induction items as [|item items IH]; intros total r H; simpl.
  - eexists _, _. split; [done | lia].
  - inversion H as [|? ? [Hs Hn] H']; subst.
    destruct (Die_roll_bounds (DiceBagItem.die item) r Hs Hn)
      as (v1 & r1 & Hroll & Hb).
    unfold DiceBagItem.roll. rewrite Hroll, !bind_Return. cbv beta iota zeta.
    rewrite ?bind_Return.
    destruct (IH (total + (if DiceBagItem.subtracted item then -1 else 1) * v1)
                r1 H') as (v & r' & -> & Hb').
    eexists _, _. split; [done|].
    generalize dependent (sum_Z (map item_lo items)).
    generalize dependent (sum_Z (map item_hi items)).
    unfold item_lo, item_hi. cbv zeta.
    destruct (DiceBagItem.subtracted item); intros; lia.
Qed.

Lemma added_bounds items :
  Forall (fun item => DiceBagItem.subtracted item = false) items ->
  sum_Z (map item_lo items)
  = sum_Z (map (fun item =>
                  let d := DiceBagItem.die item in
                  sign item * (Die.num_dice d * 1 + Die.modifier d)) items)
  /\
  sum_Z (map item_hi items)
  = sum_Z (map (fun item =>
                  let d := DiceBagItem.die item in
                  sign item * (Die.num_dice d * Die.sides d + Die.modifier d))
             items).
Proof.
  induction 1 as [|item items Hsub _ [IH1 IH2]]; simpl; [done|].
  assert (Hsign : sign item = 1) by (unfold sign; by rewrite Hsub).
  rewrite IH1, IH2, Hsign. unfold item_lo at 1, item_hi at 1.
  rewrite Hsub. cbv zeta. split; lia.
Qed.

End Rolling.

(** * Totality of the loops and the numbers of a parsed bag *)

Section Safe.

Lemma safe_Return {A} (P : A -> Prop) a : P a -> safe P (Return a).
Proof. intros H. split; [done|]. by intros ? [= <-]. Qed.

Lemma safe_Raise {A} (P : A -> Prop) e : safe P (Raise e).
Proof. by split. Qed.

Lemma safe_bind {A B} (P : A -> Prop) (Q : B -> Prop) m k :
  safe P m -> (forall a, P a -> safe Q (k a)) -> safe Q (bind m k).
Proof.
  intros [Hne HP] Hk. destruct m as [a| |]; simpl; [|by apply safe_Raise|done].
  apply Hk, HP. done.
Qed.

Lemma safe_weaken {A} (P Q : A -> Prop) m :
  safe P m -> (forall a, P a -> Q a) -> safe Q m.
Proof. intros [Hne HP] H. split; [done|]. intros a Ha. by apply H, HP. Qed.

End Safe.

Section ParserSafe.

Context (t : string).

Lemma digits_val_nonneg s : forall acc, 0 <= acc -> 0 <= digits_val acc s.
Proof.
  induction s as [|c s IH]; intros acc H; simpl; [done|].
  destruct (isdecimal c) eqn:Hc; [|done]. apply IH.
  unfold isdecimal in Hc. unfold digit_value.
  apply andb_true_iff in Hc as [Hc _]. apply N.leb_le in Hc. lia.
Qed.

Lemma lex_token_ok off s tok k : lex off s = Return (tok, k) -> token_ok tok.
Proof.
  unfold lex. destruct s as [|c0 s0]; [by intros [= <- <-]|].
  destruct (sdrop _ _) as [|c s]; [done|].
  destruct (isdecimal c).
  { destruct (_ <? _); [done|].
    intros [= <- <-]. by apply (digits_val_nonneg (String c s)). }
  repeat (case_match; [by intros [= <- <-]|]). done.
Qed.

Lemma safe_get_next_token p :
  safe (fun '(tok, l') =>
          exists p', l' = lexer_at t p' /\ token_ok tok /\ (p <= p')%nat /\
                     (Token.type tok <> EOF -> (p < p' <= String.length t)%nat))
    (Lexer.get_next_token (lexer_at t p)).
Proof.
  split.
  - rewrite get_next_token_at. destruct (lex _ _) as [[tok k]| |] eqn:E; try done.
    unfold lex in E. destruct (sdrop p t); [done|].
    destruct (sdrop _ _); [done|]. by repeat case_match.
  - intros [tok l'] H. pose proof H as H'.
    apply get_next_token_inv in H as (k & Hlex & ->).
    exists (p + k)%nat. split; [done|]. split; [by eapply lex_token_ok|].
    split; [lia|]. intros Hne. by eapply get_next_token_advance.
Qed.

Lemma safe_eat p cur ty :
  safe (fun ps' =>
          Token.type cur = ty /\
          exists p' cur',
            ps' = Parser.mk (lexer_at t p') cur' /\ token_ok cur' /\
            (p <= p')%nat /\
            (Token.type cur' <> EOF -> (p < p' <= String.length t)%nat))
    (Parser.eat (Parser.mk (lexer_at t p) cur) ty).
Proof.
  unfold Parser.eat. simpl. destruct (decide _) as [<-|]; [|apply safe_Raise].
  eapply safe_bind; [apply safe_get_next_token|].
  intros [tok l'] (p' & -> & Hok & Hle & Hlt). apply safe_Return.
  split; [done|]. eauto 8.
Qed.

Lemma safe_nth_next_token n : forall p,
  safe (fun _ => True) (nth_next_token n (lexer_at t p)).
Proof.
  induction n as [|n IH]; intros p; simpl;
    (eapply safe_bind; [apply safe_get_next_token|]);
    intros [tok l'] (p' & -> & _).
  - by apply safe_Return.
  - apply IH.
Qed.

Lemma safe_peek p cur ahead :
  1 <= ahead ->
  safe (fun '(_, ps') => ps' = Parser.mk (lexer_at t p) cur)
    (Parser.peek_next_token (Parser.mk (lexer_at t p) cur) ahead).
Proof.
  intros Ha. unfold Parser.peek_next_token. simpl Parser.lexer.
  rewrite peek_next_token_nth by (done || apply lexer_at_wf).
  eapply safe_bind.
  { eapply safe_bind; [apply safe_nth_next_token|].
    intros [tok l'] _. apply (safe_Return (fun '(_, l) => l = lexer_at t p)).
    done. }
  intros [tok l'] ->. by apply safe_Return.
Qed.

(** [modifier_follows] leaves the parser as it was, and answers [true]
    only when an integer token is still to be read. *)
Lemma safe_modifier_follows p cur :
  safe (fun '(b, ps') =>
          ps' = Parser.mk (lexer_at t p) cur /\
          (b = true -> (p < String.length t)%nat))
    (Parser.modifier_follows (Parser.mk (lexer_at t p) cur)).
Proof.
  unfold Parser.modifier_follows.
  unfold Parser.peek_next_token at 1. simpl Parser.lexer.
  rewrite peek_next_token_nth by (done || apply lexer_at_wf).
  simpl nth_next_token.
  pose proof (safe_get_next_token p) as Hg.
  destruct (Lexer.get_next_token (lexer_at t p)) as [[tok1 l1]| |] eqn:E;
    [|apply safe_Raise|by destruct Hg].
  destruct Hg as [_ Hg]. destruct (Hg _ eq_refl) as (p1 & -> & _ & _ & Hlt).
  rewrite !bind_Return. cbv beta iota. rewrite ?bind_Return. cbv beta iota.
  destruct (decide _) as [Hint|]; [|by apply safe_Return].
  eapply safe_bind; [by apply safe_peek|].
  intros [tok2 ps2] ->. apply safe_Return. split; [done|]. intros _.
  assert (Token.type tok1 <> EOF) as Hne by by rewrite Hint.
  specialize (Hlt Hne). lia.
Qed.

Lemma safe_assert_int v :
  token_ok (Token.mk INTEGER v) ->
  safe (fun n => 0 <= n) (assert_int v).
Proof.
  destruct v; simpl; intros H; [by apply safe_Return | apply safe_Raise..].
Qed.

End ParserSafe.

Section LoopsSafe.

Context (t : string).

Lemma safe_die_loop fuel : forall p cur m,
  token_ok cur ->
  (String.length t - p <= fuel)%nat ->
  safe (fun '(_, ps') => parser_at t p ps')
    (Parser.die_loop fuel (Parser.mk (lexer_at t p) cur) m).
Proof.
  induction fuel as [|fuel IH]; intros p cur m Hok Hf;
    rewrite die_loop_unfold; simpl Parser.current_token;
    (destruct (is_operator _) eqn:Hop;
     [|apply safe_Return; by exists p, cur]);
    (eapply safe_bind; [apply safe_modifier_follows|]);
    intros [b ps'] [-> Hb];
    (destruct b; simpl negb; cbv iota;
     [|apply safe_Return; by exists p, cur]);
    specialize (Hb eq_refl); [lia|].
  simpl Parser.current_token.
  destruct (decide _) as [_|_].
  all: eapply safe_bind; [apply safe_eat|].
  all: intros ps1 (_ & p1 & cur1 & -> & Hok1 & Hle1 & Hlt1); cbv zeta.
  all: simpl Parser.current_token.
  all: eapply safe_bind; [apply safe_eat|].
  all: intros ps2 (Hty & p2 & cur2 & -> & Hok2 & Hle2 & _).
  all: assert (Token.type cur1 <> EOF) as Hne by by rewrite Hty.
  all: specialize (Hlt1 Hne).
  all: eapply safe_bind;
    [apply safe_assert_int; by destruct cur1 as [ty v]; simpl in *; subst|].
  all: intros n _.
  all: eapply safe_weaken; [apply IH; [done|lia]|].
  all: intros [m' ps'] (p' & cur' & -> & Hok' & Hle); exists p', cur'.
  all: repeat split; [done|lia].
Qed.

Lemma safe_die (p : nat) cur :
  token_ok cur ->
  safe (fun '(d, ps') =>
          natural_counts (DiceBagItem.mk d false) /\
          (p < String.length t)%nat /\ parser_at t (S p) ps')
    (Parser.die (Parser.mk (lexer_at t p) cur)).
Proof.
  intros Hok. unfold Parser.die. simpl Parser.current_token.
  eapply (safe_bind (fun '(n, ps1) => 0 <= n /\ parser_at t p ps1)).
  { destruct (decide _) as [Hty|_]; [|apply safe_Return; split; [lia|]].
    - eapply safe_bind; [apply safe_eat|].
      intros ps1 (_ & p1 & cur1 & -> & Hok1 & Hle1 & _).
      eapply safe_bind.
      { apply safe_assert_int. by destruct cur as [ty v]; simpl in *; subst. }
      intros n Hn. apply safe_Return. split; [done|]. by exists p1, cur1.
    - by exists p, cur. }
  intros [num_dice ps1] (Hnum & p1 & cur1 & -> & Hok1 & Hle1).
  eapply safe_bind; [apply safe_eat|].
  intros ps2 (_ & p2 & cur2 & -> & Hok2 & Hle2 & Hlt2). cbv zeta.
  simpl Parser.current_token.
  eapply safe_bind; [apply safe_eat|].
  intros ps3 (Hty & p3 & cur3 & -> & Hok3 & Hle3 & _).
  assert (Token.type cur2 <> EOF) as Hne by by rewrite Hty.
  specialize (Hlt2 Hne).
  eapply safe_bind.
  { apply safe_assert_int. by destruct cur2 as [ty v]; simpl in *; subst. }
  intros sides Hsides. simpl Parser.lexer. rewrite text_lexer_at.
  eapply safe_bind; [apply safe_die_loop; [done|lia]|].
  intros [modifier ps4] (p4 & cur4 & -> & Hok4 & Hle4). apply safe_Return.
  simpl. repeat split; try done; try lia. exists p4, cur4.
  repeat split; [done|lia].
Qed.

Lemma safe_dice_loop fuel : forall p cur bag,
  token_ok cur ->
  (String.length t - p < fuel)%nat ->
  Forall natural_counts (DiceBag._bag bag) ->
  safe (fun '(bag', _) => Forall natural_counts (DiceBag._bag bag'))
    (Parser.dice_loop fuel (Parser.mk (lexer_at t p) cur) bag).
Proof.
  induction fuel as [|fuel IH]; intros p cur bag Hok Hf Hbag; [lia|].
  rewrite dice_loop_unfold. simpl Parser.current_token.
  destruct (is_operator _); [|by apply safe_Return].
  destruct (decide _) as [_|_].
  all: eapply safe_bind; [apply safe_eat|].
  all: intros ps1 (_ & p1 & cur1 & -> & Hok1 & Hle1 & _).
  all: eapply safe_bind; [by apply safe_die|].
  all: intros [d ps2] (Hd & Hlt & p2 & cur2 & -> & Hok2 & Hle2).
  all: apply IH; [done|lia|].
  all: simpl; apply Forall_app; split; [done|].
  all: constructor; [exact Hd | constructor].
Qed.

Lemma safe_dice p cur :
  token_ok cur ->
  safe (fun '(bag, _) => Forall natural_counts (DiceBag._bag bag))
    (Parser.dice (Parser.mk (lexer_at t p) cur)).
Proof.
  intros Hok. unfold Parser.dice.
  eapply safe_bind; [by apply safe_die|].
  intros [d ps1] (Hd & Hlt & p1 & cur1 & -> & Hok1 & Hle1). cbv zeta.
  simpl Parser.lexer. rewrite text_lexer_at.
  apply safe_dice_loop; [done|lia|]. simpl.
  constructor; [exact Hd | constructor].
Qed.

End LoopsSafe.

Lemma safe_from_str s :
  safe (fun bag => Forall natural_counts (DiceBag._bag bag)) (from_str s).
Proof.
  unfold from_str, Parser.init.
  destruct s as [|c s]; [apply safe_Raise|].
  change (Lexer.init (String c s)) with (Return (lexer_at (String c s) 0)).
  rewrite bind_Return.
  eapply (safe_bind (fun ps => exists p cur,
                         ps = Parser.mk (lexer_at (String c s) p) cur /\
                         token_ok cur)).
  { eapply safe_bind; [apply safe_get_next_token|].
    intros [tok l'] (p' & -> & Hok & _). apply safe_Return. eauto. }
  intros ps (p & cur & -> & Hok).
  eapply safe_bind; [by apply safe_dice|].
  intros [bag ps'] H. by apply safe_Return.
Qed.

(** No formula makes a loop of the model run out of fuel: [from_str]
    returns a bag or raises an exception, as the source does. *)
Theorem from_str_total s : from_str s <> OutOfFuel.
Proof. apply safe_from_str. Qed.

(** The dice of a parsed bag have natural numbers of sides and of dice. *)
Lemma from_str_natural s bag :
  from_str s = Return bag -> Forall natural_counts (DiceBag._bag bag).
Proof. intros H. by apply (proj2 (safe_from_str s)). Qed.

(** * Properties of rolling *)

Lemma die_rolls_length items : forall r vs r',
  die_rolls items r = Return (vs, r') -> length vs = length items.
Proof.
  induction items as [|item items IH]; intros r vs r'; simpl.
  - by intros [= <- <-].
  - destruct (Die.roll _ r) as [[v r1]| |]; [|done..]. rewrite bind_Return.
    cbv beta iota. destruct (die_rolls items r1) as [[vs1 r2]| |] eqn:E; [|done..].
    rewrite bind_Return. intros [= <- <-]. simpl. f_equal. by eapply IH.
Qed.

(** C6.  A die with at least one side and a count [num_dice >= 0] rolls
    to the sum of [num_dice] draws plus its modifier; every draw is in
    [1, sides], and the [i]-th draw is made from the [i]-th unused number
    of the random source alone.  A bag rolls to the sum, over its items in
    order, of the roll of the item's die taken with the sign of the item,
    the dice being rolled one after the other on the same source (and it
    raises what the first die that fails raises).  A die with one side
    thrown once rolls to [1 + modifier]. *)
Theorem roll_is_sum_of_draws :
  (forall d r,
      1 <= Die.sides d -> 0 <= Die.num_dice d ->
      let n := Z.to_nat (Die.num_dice d) in
      let xs := draws n (Die.sides d) r in
      Die.roll d r
      = Return (sum_Z xs + Die.modifier d, Nat.iter n next_random r) /\
      Z.of_nat (length xs) = Die.num_dice d /\
      Forall (fun x => 1 <= x <= Die.sides d) xs /\
      (forall i, (i < n)%nat ->
         xs !! i
         = Some (1 + Z.of_N (Random.source r (Random.drawn r + i)%nat)
                       mod Die.sides d))) /\
  (forall B r,
      DiceBag.roll B r
      = (let* (vs, r') := die_rolls (DiceBag._bag B) r in
         Return (signed_sum (DiceBag._bag B) vs, r')) /\
      (forall vs r', die_rolls (DiceBag._bag B) r = Return (vs, r') ->
                     length vs = length (DiceBag._bag B))) /\
  (forall d r,
      Die.sides d = 1 -> Die.num_dice d = 1 ->
      Die.roll d r = Return (1 + Die.modifier d, next_random r)).
Proof.
  split; [|split].
  - intros d r Hs Hn n xs. subst n xs. split; [by apply Die_roll_draws|].
    split; [by rewrite draws_length, Z2Nat.id|].
    split; [by apply draws_range|]. intros i Hi. by apply draws_lookup.
  - intros B r. split; [|apply die_rolls_length].
    unfold DiceBag.roll. rewrite sum_rolls_die_rolls.
    by destruct (die_rolls _ _) as [[vs r']| |].
  - intros d r Hs Hn. rewrite Die_roll_draws by lia. rewrite Hs, Hn. simpl.
    rewrite Z.mod_1_r. done.
Qed.

Lemma roll_is_sum_of_draws_witness :
  Die.roll (Die.mk 6 3 2) (Random.mk (fun i => N.of_nat i * 7)%N 0)
  = Return (1 + 2 + 3 + 2, Random.mk (fun i => N.of_nat i * 7)%N 3) /\
  Die.roll (Die.mk 1 1 4) (Random.mk (fun _ => 9%N) 0)
  = Return (1 + 4, Random.mk (fun _ => 9%N) 1).
Proof.
  split.
  - apply (proj1 roll_is_sum_of_draws (Die.mk 6 3 2)
             (Random.mk (fun i => N.of_nat i * 7)%N 0)); simpl; lia.
  - apply (proj2 (proj2 roll_is_sum_of_draws) (Die.mk 1 1 4)
             (Random.mk (fun _ => 9%N) 0)); reflexivity.
Defined.

(** C4, as stated, fails twice.  ["d0"] is a valid formula whose roll
    raises.  ["d6+100-d6"] parses to [1d6+100] minus [1d6]; the modifiers
    sum to 100, more than the 6 that the subtracted die can take away; the
    stated minimum and maximum are both 100, while the rolls range from 95
    to 105; and the roll with the draws 1 and 6 is 95. *)
Lemma roll_bounds_counterexample :
  (from_str "d0" = Return (bag_of [(1, 0, 0, false)]) /\
   roll "d0" (Random.mk (fun _ => 0%N) 0) = Raise (EmptyRange 1 0)) /\
  (let B := bag_of [(1, 6, 100, false); (1, 6, 0, true)] in
   let r := Random.mk (fun i => match i with O => 0 | _ => 5 end)%N 0 in
   from_str "d6+100-d6" = Return B /\
   claimed_min B = 100 /\ claimed_max B = 100 /\
   bag_lo B = 95 /\ bag_hi B = 105 /\
   exists r', DiceBag.roll B r = Return (95, r') /\
              ~ (claimed_min B <= 95 <= claimed_max B)).
Proof.
  split; [split; by vm_compute|]. cbv zeta.
  do 5 (split; [by vm_compute|]).
  eexists. split; [by vm_compute|]. vm_compute. intros [H _]. by apply H.
Qed.

(** C4, amended.  A bag whose dice all have at least one side and a count
    that is not negative rolls to an integer [v] with
    [bag_lo B <= v <= bag_hi B], whatever the random source: an added item
    counts for [num_dice * 1 + modifier] in [bag_lo] and for
    [num_dice * sides + modifier] in [bag_hi], a subtracted item for
    [-(num_dice * sides + modifier)] in [bag_lo] and for
    [-(num_dice * 1 + modifier)] in [bag_hi].  So does the module-level
    [roll] of every valid formula whose dice have at least one side.  When
    no item is subtracted, [bag_lo] and [bag_hi] are the stated minimum
    and maximum. *)
Theorem roll_within_bounds :
  (forall B r,
      Forall rollable (DiceBag._bag B) ->
      exists v r',
        DiceBag.roll B r = Return (v, r') /\ bag_lo B <= v <= bag_hi B) /\
  (forall F B r,
      from_str F = Return B ->
      Forall (fun item => 1 <= Die.sides (DiceBagItem.die item))
        (DiceBag._bag B) ->
      exists v r', roll F r = Return (v, r') /\ bag_lo B <= v <= bag_hi B) /\
  (forall B,
      Forall (fun item => DiceBagItem.subtracted item = false)
        (DiceBag._bag B) ->
      bag_lo B = claimed_min B /\ bag_hi B = claimed_max B).
Proof.
  assert (Hbag : forall B r,
             Forall rollable (DiceBag._bag B) ->
             exists v r',
               DiceBag.roll B r = Return (v, r') /\
               bag_lo B <= v <= bag_hi B).
  { intros B r H. unfold DiceBag.roll.
    destruct (sum_rolls_bounds _ 0 r H) as (v & r' & Hroll & Hb).
    exists v, r'. split; [done | unfold bag_lo, bag_hi; lia]. }
  split; [exact Hbag|]. split.
  - intros F B r HF Hs. unfold roll. rewrite HF, bind_Return.
    apply Hbag. apply from_str_natural in HF.
    rewrite Forall_forall in *. intros item Hitem. split.
    + by apply Hs.
    + by apply HF.
  - intros B. apply added_bounds.
Qed.

Lemma roll_within_bounds_witness :
  exists v r',
    roll "2d10-1+7-2d4+1-1+2" (Random.mk (fun i => N.of_nat i) 0)
    = Return (v, r') /\
    -2 <= v <= 22.
Proof.
  apply (proj1 (proj2 roll_within_bounds) "2d10-1+7-2d4+1-1+2"
           (bag_of [(2, 10, 6, false); (2, 4, 2, true)])).
  - reflexivity.
  - repeat constructor; simpl; lia.
Defined.

(** * Text after a formula *)

Section TrailingText.

Lemma ws_count_app s u :
  sdrop (ws_count s) s <> "" -> ws_count (s +:+ u) = ws_count s.
Proof.
  induction s as [|c s IH]; [done|]. rewrite app_cons. simpl.
  destruct (isspace c); [|done]. simpl. intros H. by rewrite IH.
Qed.

Lemma digit_count_app_stop s u :
  digit_count u = O -> digit_count (s +:+ u) = digit_count s.
Proof.
  intros Hu. induction s as [|c s IH]; [done|]. rewrite app_cons. simpl.
  by rewrite IH.
Qed.

Lemma digits_val_app_stop s u : forall acc,
  digit_count u = O -> digits_val acc (s +:+ u) = digits_val acc s.
Proof.
  induction s as [|c s IH]; intros acc Hu.
  - by apply digits_val_stop.
  - rewrite app_cons. simpl. destruct (isdecimal c); [by apply IH | done].
Qed.

(** A token that is lexed from [s] is lexed the same from [s] followed by
    a text that does not start with a digit. *)
Lemma lex_app off s u tok k :
  lex off s = Return (tok, k) -> Token.type tok <> EOF ->
  digit_count u = O ->
  lex off (s +:+ u) = Return (tok, k).
Proof.
  intros H Hne Hu. unfold lex in *.
  destruct s as [|c0 s0]; [by injection H as <- _|].
  rewrite app_cons, <- app_cons.
  destruct (sdrop (ws_count (String c0 s0)) (String c0 s0)) as [|c s] eqn:E;
    [done|].
  cbv zeta in *. rewrite ws_count_app by by rewrite E.
  rewrite sdrop_app by apply ws_count_le. rewrite E, app_cons.
  rewrite <- (app_cons c s u), digits_val_app_stop, digit_count_app_stop by done.
  done.
Qed.

Lemma lexes_app_text F u toks : forall p pe,
  lexes F p toks pe -> Forall not_EOF toks -> digit_count u = O ->
  lexes (F +:+ u) p toks pe /\ (toks <> [] -> (pe <= String.length F)%nat).
Proof.
  induction toks as [|tok toks IH]; intros p pe H HF Hu;
    inversion H as [|? ? p1 ? ? Hg Hl]; subst.
  - split; [constructor | done].
  - inversion HF as [|? ? Hne HF']; subst.
    destruct (IH _ _ Hl HF' Hu) as [IH1 IH2].
    pose proof (get_next_token_advance _ _ _ _ Hg Hne) as Hadv.
    apply get_next_token_inv in Hg as (k & Hlex & [= ->]).
    split.
    + econstructor; [|exact IH1]. rewrite get_next_token_at.
      rewrite sdrop_app by lia. by rewrite (lex_app _ _ _ _ _ Hlex Hne Hu).
    + intros _. destruct toks as [|tok' toks'].
      * inversion Hl; subst. lia.
      * by apply IH2.
Qed.

Lemma lexes_EOF_end F p pe : lexes F p [tEOF] pe -> (String.length F <= p)%nat.
Proof.
  intros H. inversion H as [|? ? p1 ? ? Hg Hl]; subst.
  apply get_next_token_inv in Hg as (k & Hlex & _).
  apply lex_consumed in Hlex as (_ & _ & Hend).
  destruct (Hend eq_refl) as [_ Hs].
  pose proof (sdrop_length p F) as L. rewrite Hs in L. simpl in L. lia.
Qed.

Lemma formula_tokens_not_EOF f : Forall not_EOF (formula_tokens f).
Proof.
  apply Forall_app.
  split; [apply term_tokens_not_EOF | apply rest_tokens_not_EOF].
Qed.

Lemma formula_tokens_not_nil f : formula_tokens f <> [].
Proof.
  unfold formula_tokens. pose proof (term_tokens_length (fst f)).
  destruct (term_tokens (fst f)); [simpl in *; lia | done].
Qed.

End TrailingText.

(** C9, as stated, fails: ["2d6+5"] is a well-formed formula and the
    first token of [" d4"] is a delimiter, but ["2d6+5 d4"] does not parse
    to the bag of ["2d6+5"]: the delimiter turns the [+5] into the start
    of a second die.  And ["2d6+5 d"] raises.  Likewise the first token of
    ["5"] is an integer, but ["d6"] followed by ["5"] is the die [d65]. *)
Lemma trailing_delim_counterexample :
  from_str "2d6+5" = Return (bag_of [(2, 6, 5, false)]) /\
  Lexer.get_next_token (lexer_at " d4" 0) = Return (tDELIM, lexer_at " d4" 2) /\
  from_str ("2d6+5" +:+ " d4")
  = Return (bag_of [(2, 6, 0, false); (5, 4, 0, false)]) /\
  from_str ("2d6+5" +:+ " d4") <> from_str "2d6+5" /\
  from_str ("2d6+5" +:+ " d") = Raise (UnexpectedToken INTEGER EOF) /\
  from_str "d6" = Return (bag_of [(1, 6, 0, false)]) /\
  Lexer.get_next_token (lexer_at "5" 0) = Return (tINT 5, lexer_at "5" 1) /\
  from_str ("d6" +:+ "5") = Return (bag_of [(1, 65, 0, false)]).
Proof. repeat split; by vm_compute. Qed.

(** C9, amended.  Let [F] spell a derivation [f] of the grammar up to its
    end, and let [T] be a text that does not start with a digit and whose
    first token is an integer, or is a delimiter while the last die of
    [f] has no modifier clause.  Then [from_str] returns the bag of [f]
    for [F] and for [F] followed by [T], whatever comes after the first
    token of [T]. *)
Theorem trailing_input_ignored F T f tokT lT pe :
  lexes F O (formula_tokens f ++ [tEOF]) pe ->
  digit_count T = O ->
  Lexer.get_next_token (lexer_at T 0) = Return (tokT, lT) ->
  Token.type tokT = INTEGER \/
  (Token.type tokT = DELIM /\ t_mods (last_term (fst f) (snd f)) = []) ->
  from_str F = Return (formula_bag f) /\
  from_str (F +:+ T) = Return (formula_bag f).
Proof.
  intros Hl HT Hg Htok. split.
  { by apply (from_str_run F f tEOF pe). }
  apply lexes_app_inv in Hl as (pm & Hl1 & Hl2).
  apply lexes_EOF_end in Hl2.
  destruct (lexes_app_text F T _ _ _ Hl1 (formula_tokens_not_EOF f) HT)
    as [Hl1' Hpm].
  specialize (Hpm (formula_tokens_not_nil f)).
  assert (pm = String.length F) as -> by lia.
  apply get_next_token_inv in Hg as (k & Hlex & _). simpl sdrop in Hlex.
  apply (lex_off _ (String.length F)) in Hlex.
  apply (from_str_run (F +:+ T) f tokT (String.length F + k)).
  - eapply lexes_app; [exact Hl1'|].
    econstructor; [|constructor].
    by rewrite get_next_token_at, sdrop_length_app, Hlex.
  - by destruct Htok as [->|[-> _]].
  - intros Hne. destruct Htok as [->|[_ Hnil]]; done.
Qed.

Lemma trailing_input_ignored_witness :
  (from_str "2d6" = Return (bag_of [(2, 6, 0, false)]) /\
   from_str ("2d6" +:+ " d4") = Return (bag_of [(2, 6, 0, false)])) /\
  (from_str "d6+1" = Return (bag_of [(1, 6, 1, false)]) /\
   from_str ("d6+1" +:+ " 5)") = Return (bag_of [(1, 6, 1, false)])).
Proof.
  split.
  - apply (trailing_input_ignored "2d6" " d4" (mkTerm (Some 2) 6 [], [])
             tDELIM (lexer_at " d4" 2) 3).
    + apply (lexes_cons _ _ _ 1%nat); [reflexivity|].
      apply (lexes_cons _ _ _ 2%nat); [reflexivity|].
      apply (lexes_cons _ _ _ 3%nat); [reflexivity|].
      apply (lexes_cons _ _ _ 3%nat); [reflexivity|].
      apply lexes_nil.
    + reflexivity.
    + reflexivity.
    + right. split; reflexivity.
  - apply (trailing_input_ignored "d6+1" " 5)" (mkTerm None 6 [(false, 1)], [])
             (tINT 5) (lexer_at " 5)" 2) 4).
    + apply (lexes_cons _ _ _ 1%nat); [reflexivity|].
      apply (lexes_cons _ _ _ 2%nat); [reflexivity|].
      apply (lexes_cons _ _ _ 3%nat); [reflexivity|].
      apply (lexes_cons _ _ _ 4%nat); [reflexivity|].
      apply (lexes_cons _ _ _ 4%nat); [reflexivity|].
      apply lexes_nil.
    + reflexivity.
    + reflexivity.
    + left. reflexivity.
Defined.

(** * What a parse returns and what it raises *)

Section ParseOutcomes.

Context (t : string).

Lemma ws_count_stop s c s' :
  sdrop (ws_count s) s = String c s' -> isspace c = false.
Proof.
  induction s as [|a s IH]; simpl; [done|].
  destruct (isspace a) eqn:Ha; simpl; [done|]. by intros [= <- _].
Qed.

Lemma all_whitespace_last s :
  s <> "" -> sdrop (ws_count s) s = "" ->
  exists c, shead (sdrop (String.length s - 1) s) = Some c /\ isspace c = true.
Proof.
  induction s as [|a s IH]; [done|]. intros _. simpl.
  destruct (isspace a) eqn:Ha; [|done]. simpl. intros H.
  destruct s as [|b s]; [by exists a|].
  destruct IH as (c & Hc & Hs); [done|done|].
  exists c. split; [|done]. simpl in Hc |- *.
  by rewrite Nat.sub_0_r in *.
Qed.

Lemma lex_sat p :
  sat (fun '(tok, _) => canonical tok) (parse_error t) (lex p (sdrop p t)).
Proof.
  unfold lex. destruct (sdrop p t) as [|c0 s0] eqn:E0; [by left|].
  cbv zeta.
  destruct (sdrop (ws_count (String c0 s0)) (String c0 s0)) as [|c s] eqn:E.
  - destruct (all_whitespace_last (String c0 s0)) as (c & Hc & Hs); [done..|].
    exists c. split; [|done].
    pose proof (sdrop_length p t) as L. rewrite E0 in L.
    rewrite get_sdrop, <- Hc, L, <- E0, sdrop_sdrop.
    simpl in L. f_equal. f_equal. lia.
  - pose proof (ws_count_stop _ _ _ E) as Hsp.
    destruct (isdecimal c) eqn:Hc.
    { destruct (Z.ltb_spec max_str_digits
                  (Z.of_nat (digit_count (String c s)))) as [Hlim|Hlim].
      - exists (p + ws_count (String c0 s0))%nat.
        by rewrite <- sdrop_sdrop, E0, E.
      - do 4 right. eexists. split; [|done].
        by apply (digits_val_nonneg (String c s)). }
    destruct (Ascii.eqb c "d") eqn:H1; [simpl; unfold canonical; auto|].
    destruct (Ascii.eqb c "+") eqn:H2; [simpl; unfold canonical; auto|].
    destruct (Ascii.eqb c "-") eqn:H3; [simpl; unfold canonical; auto 6|].
    split.
    + by rewrite get_sdrop, <- sdrop_sdrop, E0, E.
    + unfold token_char. by rewrite Hsp, Hc, H1, H2, H3.
Qed.

Lemma get_next_token_sat p :
  sat (fun '(tok, l') => canonical tok /\ exists p', l' = lexer_at t p')
    (parse_error t) (Lexer.get_next_token (lexer_at t p)).
Proof.
  rewrite get_next_token_at. pose proof (lex_sat p) as H.
  destruct (lex p (sdrop p t)) as [[tok k]| |]; simpl in *; eauto.
Qed.

Lemma nth_next_token_sat n : forall p,
  sat (fun '(tok, l') => canonical tok /\ exists p', l' = lexer_at t p')
    (parse_error t) (nth_next_token n (lexer_at t p)).
Proof.
  induction n as [|n IH]; intros p; simpl;
    pose proof (get_next_token_sat p) as H;
    destruct (Lexer.get_next_token (lexer_at t p)) as [[tok l']| |];
    simpl in *; try done.
  destruct H as (_ & p' & ->). apply IH.
Qed.

Lemma sat_bind {A B} (P : A -> Prop) (Q : B -> Prop) E m (k : A -> Outcome B) :
  sat P E m -> (forall a, P a -> sat Q E (k a)) -> sat Q E (bind m k).
Proof. destruct m; simpl; auto. Qed.

Lemma sat_weaken {A} (P Q : A -> Prop) (E F : Exception -> Prop) m :
  sat P E m -> (forall a, P a -> Q a) -> (forall e, E e -> F e) -> sat Q F m.
Proof. destruct m; simpl; auto. Qed.

Lemma canonical_operator cur :
  canonical cur -> is_operator (Token.type cur) = true ->
  exists minus, cur = op_token minus /\
    (Token.type cur = PLUS <-> minus = false).
Proof.
  intros [->|[->|[->|[->|(n & _ & ->)]]]]; try done; intros _.
  - by exists false.
  - by exists true.
Qed.

Lemma canonical_INTEGER cur :
  canonical cur -> Token.type cur = INTEGER -> exists n, 0 <= n /\ cur = tINT n.
Proof. intros [->|[->|[->|[->|(n & ? & ->)]]]]; try done. eauto. Qed.

Lemma canonical_DELIM cur :
  canonical cur -> Token.type cur = DELIM -> cur = tDELIM.
Proof. by intros [->|[->|[->|[->|(n & ? & ->)]]]]. Qed.

Lemma parsed_at_token ps toks ps' : parsed_upto t ps toks ps' -> at_token t ps'.
Proof. intros (pe & stop & _ & -> & Hc). by exists pe, stop. Qed.

Lemma parsed_nil ps : at_token t ps -> parsed_upto t ps [] ps.
Proof.
  intros (p & cur & -> & Hc). exists p, cur. split; [|done].
  exists p. split; [done|constructor].
Qed.

Lemma parsed_nil_inv ps ps' : parsed_upto t ps [] ps' -> ps' = ps.
Proof.
  intros (pe & stop & (p & -> & H) & -> & _). by inversion H.
Qed.

Lemma parsed_step p cur tok p' :
  Lexer.get_next_token (lexer_at t p) = Return (tok, lexer_at t p') ->
  canonical tok ->
  parsed_upto t (Parser.mk (lexer_at t p) cur) [cur]
    (Parser.mk (lexer_at t p') tok).
Proof.
  intros Hg Hc. exists p', tok. split; [|done].
  exists p. split; [done|]. econstructor; [done|constructor].
Qed.

Lemma parsed_app ps l1 ps1 l2 ps2 :
  parsed_upto t ps l1 ps1 -> parsed_upto t ps1 l2 ps2 ->
  parsed_upto t ps (l1 ++ l2) ps2.
Proof.
  intros (pe1 & stop1 & H1 & -> & _) (pe2 & stop2 & H2 & -> & Hc).
  exists pe2, stop2. split; [|done].
  rewrite <- app_assoc.
  destruct (l2 ++ [stop2]) as [|c2 r2]; [done|].
  destruct H2 as (p & Hp & H2).
  pose proof (f_equal (fun x => Lexer._pos (Parser.lexer x)) Hp) as Hq.
  pose proof (f_equal Parser.current_token Hp) as Hr.
  simpl in Hq, Hr. subst p c2. clear Hp.
  change (l1 ++ stop1 :: r2) with (l1 ++ [stop1] ++ r2). rewrite app_assoc.
  destruct (l1 ++ [stop1]) as [|c1 r1]; [done|].
  destruct H1 as (p & -> & H1). exists p. split; [done|].
  by apply (lexes_app _ _ _ pe1).
Qed.

End ParseOutcomes.

Section ParserOutcomes.

Context (t : string).

Lemma eat_sat ps ty :
  at_token t ps ->
  ty = DELIM \/ ty = INTEGER \/ ty = Token.type (Parser.current_token ps) ->
  sat (fun ps' => Token.type (Parser.current_token ps) = ty /\
                  parsed_upto t ps [Parser.current_token ps] ps')
    (parse_error t) (Parser.eat ps ty).
Proof.
  intros (p & cur & -> & Hc) Hty. unfold Parser.eat. simpl.
  destruct (decide (ty = Token.type cur)) as [->|Hne].
  - pose proof (get_next_token_sat t p) as H.
    destruct (Lexer.get_next_token (lexer_at t p)) as [[tok l']| |] eqn:E;
      simpl in *; try done.
    destruct H as (Hk & p' & ->). split; [done|]. by apply parsed_step.
  - simpl. split; [|done]. destruct Hty as [?|[?|?]]; auto. done.
Qed.

Lemma modifier_follows_sat p cur :
  sat (fun '(b, ps') =>
         ps' = Parser.mk (lexer_at t p) cur /\
         (b = true ->
          exists n p1 tok2 p2,
            Lexer.get_next_token (lexer_at t p) = Return (tINT n, lexer_at t p1) /\
            Lexer.get_next_token (lexer_at t p1) = Return (tok2, lexer_at t p2) /\
            canonical tok2 /\ Token.type tok2 <> DELIM))
    (parse_error t) (Parser.modifier_follows (Parser.mk (lexer_at t p) cur)).
Proof.
  unfold Parser.modifier_follows, Parser.peek_next_token. simpl Parser.lexer.
  rewrite peek_next_token_nth; [|apply lexer_at_wf|lia].
  simpl nth_next_token.
  pose proof (get_next_token_sat t p) as H1.
  destruct (Lexer.get_next_token (lexer_at t p)) as [[tok1 l1]| |] eqn:E1;
    simpl in *; try done.
  destruct H1 as (Hc1 & p1 & ->).
  destruct (decide (Token.type tok1 = INTEGER)) as [Hi|]; [|done].
  destruct (canonical_INTEGER _ Hc1 Hi) as (n & _ & ->).
  rewrite peek_next_token_nth; [|apply lexer_at_wf|lia].
  simpl nth_next_token. rewrite E1. simpl.
  pose proof (get_next_token_sat t p1) as H2.
  destruct (Lexer.get_next_token (lexer_at t p1)) as [[tok2 l2]| |] eqn:E2;
    simpl in *; try done.
  destruct H2 as (Hc2 & p2 & ->). split; [done|].
  intros Hb. apply bool_decide_eq_true in Hb. by exists n, p1, tok2, p2.
Qed.

Lemma die_loop_sat fuel : forall ps m,
  at_token t ps ->
  sat (fun '(m', ps') =>
         exists cl,
           parsed_upto t ps (mods_tokens cl) ps' /\
           m' = apply_mods m cl /\ stops ps' /\
           (cl <> [] -> Token.type (Parser.current_token ps') <> DELIM))
    (parse_error t) (Parser.die_loop fuel ps m).
Proof.
  induction fuel as [|fuel IH]; intros ps m Hps; rewrite die_loop_unfold;
    (destruct (is_operator _) eqn:Hop;
     [|exists []; split; [by apply parsed_nil|]; split; [done|];
       split; [by left|done]]);
    destruct Hps as (p & cur & -> & Hc);
    pose proof (modifier_follows_sat p cur) as Hm;
    (destruct (Parser.modifier_follows _) as [[b ps1]|e|] eqn:Em;
     simpl in Hm |- *; try done);
    destruct Hm as [-> Hb];
    (destruct b; simpl negb; cbv iota;
     [|exists []; split; [apply parsed_nil; by exists p, cur|];
       split; [done|]; split; [by right|done]]);
    [done|].
  destruct Hb as (n & p1 & tok2 & p2 & H1 & H2 & Hc2 & Hd); [done|].
  destruct (canonical_operator _ Hc Hop) as (minus & -> & _).
  assert (parsed_upto t (Parser.mk (lexer_at t p) (op_token minus))
            [op_token minus; tINT n] (Parser.mk (lexer_at t p2) tok2)) as Hp.
  { exists p2, tok2. split; [|done]. exists p. split; [done|].
    econstructor; [done|]. econstructor; [done|constructor]. }
  assert (at_token t (Parser.mk (lexer_at t p2) tok2)) as Hps2
    by by exists p2, tok2.
  simpl Parser.current_token.
  destruct minus; simpl op_token in *;
    (destruct (decide _) as [Hpl|Hmi]; [try done|try done]);
    rewrite (eat_at _ _ _ _ _ _ H1), bind_Return by done;
    cbv zeta; simpl Parser.current_token;
    rewrite (eat_at _ _ _ _ _ _ H2), bind_Return by done;
    simpl Token.value; unfold assert_int; rewrite bind_Return;
    (eapply sat_weaken; [apply IH, Hps2| |done]);
    intros [m' ps'] (cl & Hcl & -> & Hst & Hnd);
    [exists ((true, n) :: cl)|exists ((false, n) :: cl)];
    (split; [apply (parsed_app _ _ _ _ _ _ Hp Hcl)|]);
    (split; [done|split; [done|]]);
    intros _; (destruct cl as [|c cl]; [|by apply Hnd]);
    by apply parsed_nil_inv in Hcl as ->.
Qed.

Lemma die_sat ps :
  at_token t ps ->
  sat (fun '(d, ps') =>
         exists tm,
           parsed_upto t ps (term_tokens tm) ps' /\
           d = term_die tm /\ stops ps' /\
           (t_mods tm <> [] -> Token.type (Parser.current_token ps') <> DELIM))
    (parse_error t) (Parser.die ps).
Proof.
  intros Hps. unfold Parser.die. cbv zeta.
  eapply (sat_bind (fun '(k, p1) =>
            exists num,
              parsed_upto t ps
                (match num with Some k' => [tINT k'] | None => [] end) p1 /\
              k = default 1 num)).
  { destruct (decide _) as [Hi|].
    - eapply sat_bind; [apply eat_sat; auto|]. intros p1 [_ Hp1].
      destruct Hps as (p & cur & -> & Hc).
      destruct (canonical_INTEGER _ Hc Hi) as (n & _ & ->).
      by exists (Some n).
    - exists None. split; [by apply parsed_nil|done]. }
  intros [k p1] (num & Hp1 & ->).
  destruct (parsed_at_token _ _ _ _ Hp1) as (q1 & c1 & -> & Hc1).
  eapply sat_bind; [apply eat_sat; [by exists q1, c1|auto]|].
  intros p2 [Hd Hp2]. simpl in Hd, Hp2.
  apply (canonical_DELIM _ Hc1) in Hd as ->.
  destruct (parsed_at_token _ _ _ _ Hp2) as (q2 & c2 & -> & Hc2).
  eapply sat_bind; [apply eat_sat; [by exists q2, c2|auto]|].
  intros p3 [Hi Hp3]. simpl in Hi, Hp3.
  destruct (canonical_INTEGER _ Hc2 Hi) as (n & _ & ->).
  simpl Token.value. unfold assert_int. rewrite bind_Return.
  eapply sat_bind; [apply die_loop_sat; by eapply parsed_at_token|].
  intros [m p4] (cl & Hp4 & -> & Hst & Hnd).
  exists (mkTerm num n cl). split; [|done].
  apply (parsed_app _ _ _ _ _ _ Hp1).
  apply (parsed_app _ _ [tDELIM] _ _ _ Hp2).
  apply (parsed_app _ _ [tINT n] _ _ _ Hp3), Hp4.
Qed.

Lemma dice_loop_sat fuel : forall ps bag tm0,
  at_token t ps ->
  (t_mods tm0 <> [] -> Token.type (Parser.current_token ps) <> DELIM) ->
  sat (fun '(bag', ps') =>
         exists rest,
           parsed_upto t ps (rest_tokens rest) ps' /\
           bag' = DiceBag.mk (DiceBag._bag bag ++ rest_items rest) /\
           is_operator (Token.type (Parser.current_token ps')) = false /\
           (t_mods (last_term tm0 rest) <> [] ->
            Token.type (Parser.current_token ps') <> DELIM))
    (parse_error t) (Parser.dice_loop fuel ps bag).
Proof.
  induction fuel as [|fuel IH]; intros ps bag tm0 Hps Hd0;
    rewrite dice_loop_unfold;
    (destruct (is_operator _) eqn:Hop;
     [|exists []; split; [by apply parsed_nil|];
       destruct bag; simpl; by rewrite app_nil_r]);
    [done|].
  pose proof Hps as (p & cur & -> & Hc).
  destruct (canonical_operator _ Hc Hop) as (minus & -> & _).
  simpl Parser.current_token.
  destruct minus; simpl op_token in *;
    (destruct (decide _) as [Hpl|Hmi]; [try done|try done]);
    (eapply sat_bind; [apply eat_sat; [done|auto]|]);
    intros p1 [_ Hp1]; simpl in Hp1;
    (eapply sat_bind; [apply die_sat; by eapply parsed_at_token|]);
    intros [d p2] (tm & Hp2 & -> & _ & Hnd);
    (eapply sat_weaken;
     [apply (IH _ _ tm); [by eapply parsed_at_token|done]| |done]);
    intros [bag' ps'] (rest & Hr & -> & Hno & Hl);
    [exists ((true, tm) :: rest)|exists ((false, tm) :: rest)];
    (split; [apply (parsed_app _ _ _ _ _ _ Hp1),
              (parsed_app _ _ _ _ _ _ Hp2), Hr|]);
    (split; [simpl; by rewrite <- app_assoc|done]).
Qed.

Lemma dice_sat ps :
  at_token t ps ->
  sat (fun '(bag, ps') =>
         exists f,
           parsed_upto t ps (formula_tokens f) ps' /\
           bag = formula_bag f /\
           is_operator (Token.type (Parser.current_token ps')) = false /\
           (t_mods (last_term (fst f) (snd f)) <> [] ->
            Token.type (Parser.current_token ps') <> DELIM))
    (parse_error t) (Parser.dice ps).
Proof.
  intros Hps. unfold Parser.dice. cbv zeta.
  eapply sat_bind; [by apply die_sat|].
  intros [d p1] (tm & Hp1 & -> & _ & Hnd).
  eapply sat_weaken;
    [apply (dice_loop_sat _ _ _ tm); [by eapply parsed_at_token|done]| |done].
  intros [bag ps'] (rest & Hr & -> & Hno & Hl).
  exists (tm, rest). split; [apply (parsed_app _ _ _ _ _ _ Hp1), Hr|done].
Qed.

Lemma from_str_sat :
  sat (fun bag => exists f, spells t f /\ bag = formula_bag f)
    (parse_error t) (from_str t).
Proof.
  unfold from_str, Parser.init. destruct t as [|c0 t0] eqn:Et; [done|].
  rewrite <- Et.
  assert (Hinit : Lexer.init t = Return (lexer_at t 0)) by by rewrite Et.
  rewrite Hinit, bind_Return.
  pose proof (get_next_token_sat t 0) as H.
  destruct (Lexer.get_next_token (lexer_at t 0)) as [[tok l']| |] eqn:E;
    simpl in *; try done.
  destruct H as (Hc & p1 & ->).
  eapply sat_bind; [apply dice_sat; by exists p1, tok|].
  intros [bag ps'] (f & (pe & stop & Hs & -> & _) & -> & Hno & Hl).
  exists f. split; [|done]. exists stop, pe.
  split; [|done].
  destruct (formula_tokens f ++ [stop]) as [|c r]; [done|].
  destruct Hs as (p & Hp & Hs).
  pose proof (f_equal (fun x => Lexer._pos (Parser.lexer x)) Hp) as Hq.
  pose proof (f_equal Parser.current_token Hp) as Hr.
  simpl in Hq, Hr. subst p c. by econstructor.
Qed.

End ParserOutcomes.

(** * Further properties of parsing *)

Lemma lexes_prefix t l1 : forall p pe1 l2 pe2,
  lexes t p l1 pe1 -> lexes t p l2 pe2 -> (length l1 <= length l2)%nat ->
  exists l3, l2 = l1 ++ l3 /\ lexes t pe1 l3 pe2.
Proof.
  induction l1 as [|a l1 IH]; intros p pe1 l2 pe2 H1 H2 Hlen.
  - inversion H1; subst. by exists l2.
  - inversion H1 as [|? ? q1 ? ? Hg1 Hl1]; subst.
    inversion H2 as [|? b q2 l2' ? Hg2 Hl2]; subst; [simpl in Hlen; lia|].
    rewrite Hg1 in Hg2. injection Hg2 as <- Hq. subst q2.
    destruct (IH _ _ _ _ Hl1 Hl2) as (l3 & -> & H3); [simpl in Hlen; lia|].
    by exists l3.
Qed.

(** The tokens of a derivation and its closing token are among the
    tokens that the whole text lexes to. *)
Lemma spelled_prefix t f stop pe toks pt :
  lexes t O (formula_tokens f ++ [stop]) pe ->
  lexes t O (toks ++ [tEOF]) pt ->
  exists l3, toks ++ [tEOF] = (formula_tokens f ++ [stop]) ++ l3.
Proof.
  intros Hf Ht.
  destruct (decide (length (formula_tokens f ++ [stop])
                    <= length (toks ++ [tEOF]))%nat) as [Hle|Hgt].
  - destruct (lexes_prefix _ _ _ _ _ _ Hf Ht Hle) as (l3 & -> & _). eauto.
  - destruct (lexes_prefix _ _ _ _ _ _ Ht Hf) as (l3 & E & _); [lia|].
    exfalso. rewrite E, !length_app in Hgt. simpl in Hgt.
    destruct l3 as [|x l3 _] using rev_ind; [simpl in Hgt; lia|].
    rewrite !app_assoc in E. apply app_inj_tail in E as [E _].
    pose proof (formula_tokens_not_EOF f) as HF. rewrite E in HF.
    rewrite <- app_assoc in HF.
    apply Forall_app in HF as [_ HF]. by inversion HF.
Qed.

(** X1.  What [from_str] returns: it returns a bag exactly when the text
    spells a derivation of the grammar, that is when its tokens start with
    the tokens of a formula, followed by a token that is no operator (and
    no delimiter when the last die has a modifier clause); the bag is the
    bag of that derivation. *)
Theorem from_str_sound_complete (t : string) (bag : DiceBag.t) :
  from_str t = Return bag <-> exists f, spells t f /\ bag = formula_bag f.
Proof.
  split.
  - intros H. pose proof (from_str_sat t) as Hs. by rewrite H in Hs.
  - intros (f & (stop & pe & Hl & Hop & Hd) & ->). by eapply from_str_run.
Qed.

(** X2.  [from_str] returns a bag or raises; it is never cut short, so each
    loop of the parser ends.  What it raises is [InvalidInput] for the empty
    text only; [InvalidCharacter c i] where [c] is the character of the text
    at index [i], and is no whitespace, digit, [d], [+] or [-];
    [UnexpectedToken] with a [DELIM] or an [INTEGER] expected and another
    type found; [AttributeError], and then the text ends with a
    whitespace character; or [DigitLimit], the [ValueError] of [int], and
    then the text holds a run of more than 4300 digits.  The assertions of
    the lexer and of the parser never fail. *)
Theorem from_str_raises (t : string) :
  (exists bag, from_str t = Return bag) \/
  (exists e, from_str t = Raise e /\ parse_error t e).
Proof.
  pose proof (from_str_sat t) as Hs. pose proof (proj1 (safe_from_str t)) as Hf.
  destruct (from_str t) as [bag|e|]; [eauto|eauto|done].
Qed.

(** X3.  A parsed bag is never empty, its first die is added, and every
    die has a natural number of sides and of dice. *)
Theorem from_str_shape (t : string) (bag : DiceBag.t) :
  from_str t = Return bag ->
  (exists d items, DiceBag._bag bag = DiceBagItem.mk d false :: items) /\
  Forall natural_counts (DiceBag._bag bag).
Proof.
  intros H. split.
  - pose proof (from_str_sat t) as Hs. rewrite H in Hs.
    destruct Hs as (f & _ & ->). simpl. eauto.
  - by apply (proj2 (safe_from_str t)).
Qed.

Lemma from_str_shape_witness :
  (exists d items,
      DiceBag._bag (bag_of [(2, 6, 0, false); (1, 4, 0, true)])
      = DiceBagItem.mk d false :: items) /\
  Forall natural_counts
    (DiceBag._bag (bag_of [(2, 6, 0, false); (1, 4, 0, true)])).
Proof. apply (from_str_shape "2d6-d4"). reflexivity. Defined.

(** X4.  Two texts that lex to the same tokens up to the end parse alike:
    if one gives a bag, the other gives the same bag.  So the whitespace
    before a token and the leading zeros of a number do not count. *)
Theorem same_tokens_same_bag (t1 t2 : string) (toks : list Token.t)
    (p1 p2 : nat) (bag : DiceBag.t) :
  lexes t1 O (toks ++ [tEOF]) p1 ->
  lexes t2 O (toks ++ [tEOF]) p2 ->
  from_str t1 = Return bag <-> from_str t2 = Return bag.
Proof.
  assert (forall u1 u2 q1 q2,
             lexes u1 O (toks ++ [tEOF]) q1 ->
             lexes u2 O (toks ++ [tEOF]) q2 ->
             from_str u1 = Return bag -> from_str u2 = Return bag) as Hdir.
  { intros u1 u2 q1 q2 H1 H2 H.
    pose proof (from_str_sat u1) as Hs. rewrite H in Hs.
    destruct Hs as (f & (stop & pe & Hl & Hop & Hd) & ->).
    destruct (spelled_prefix _ _ _ _ _ _ Hl H1) as (l3 & E).
    rewrite E in H2. apply lexes_app_inv in H2 as (pm & H2 & _).
    by eapply from_str_run. }
  intros H1 H2. split; eauto.
Qed.

Lemma same_tokens_same_bag_witness :
  from_str "2d6+1" = Return (bag_of [(2, 6, 1, false)]) <->
  from_str "  2 d 06 +1" = Return (bag_of [(2, 6, 1, false)]).
Proof.
  apply (same_tokens_same_bag "2d6+1" "  2 d 06 +1"
           [tINT 2; tDELIM; tINT 6; tPLUS; tINT 1] 5 11).
  - apply (lexes_cons _ _ _ 1%nat); [reflexivity|].
    apply (lexes_cons _ _ _ 2%nat); [reflexivity|].
    apply (lexes_cons _ _ _ 3%nat); [reflexivity|].
    apply (lexes_cons _ _ _ 4%nat); [reflexivity|].
    apply (lexes_cons _ _ _ 5%nat); [reflexivity|].
    apply (lexes_cons _ _ _ 5%nat); [reflexivity|].
    apply lexes_nil.
  - apply (lexes_cons _ _ _ 3%nat); [reflexivity|].
    apply (lexes_cons _ _ _ 5%nat); [reflexivity|].
    apply (lexes_cons _ _ _ 8%nat); [reflexivity|].
    apply (lexes_cons _ _ _ 10%nat); [reflexivity|].
    apply (lexes_cons _ _ _ 11%nat); [reflexivity|].
    apply (lexes_cons _ _ _ 11%nat); [reflexivity|].
    apply lexes_nil.
Defined.

(** * Further properties of rolling *)

Section RollOutcomes.

Lemma iter_next_random n : forall r, Nat.iter n next_random r = after_draws n r.
Proof.
  induction n as [|n IH]; intros [src k]; unfold after_draws; simpl.
  - by rewrite Nat.add_0_r.
  - rewrite IH. unfold next_random, after_draws. simpl. f_equal. lia.
Qed.

Lemma after_draws_add n m r :
  after_draws m (after_draws n r) = after_draws (n + m) r.
Proof. unfold after_draws. simpl. f_equal. lia. Qed.

Lemma Die_roll_nothing d r :
  Die.num_dice d <= 0 -> Die.roll d r = Return (Die.modifier d, r).
Proof.
  intros H. unfold Die.roll.
  by replace (Z.to_nat (Die.num_dice d)) with O by lia.
Qed.

Lemma Die_roll_empty_range d r :
  1 <= Die.num_dice d -> Die.sides d < 1 ->
  Die.roll d r = Raise (EmptyRange 1 (Die.sides d)).
Proof.
  intros Hn Hs. unfold Die.roll.
  destruct (Z.to_nat (Die.num_dice d)) as [|n] eqn:E; [lia|].
  simpl. unfold Random.randint.
  by assert ((Die.sides d <? 1) = true) as -> by lia.
Qed.

Lemma Die_roll_throwable d r :
  Die.num_dice d <= 0 \/ 1 <= Die.sides d ->
  exists v,
    Die.roll d r = Return (v, after_draws (Z.to_nat (Die.num_dice d)) r).
Proof.
  intros [H|H].
  - rewrite Die_roll_nothing by done. exists (Die.modifier d).
    replace (Z.to_nat (Die.num_dice d)) with O by lia.
    destruct r as [src k]. unfold after_draws. simpl. by rewrite Nat.add_0_r.
  - rewrite Die_roll_draws, iter_next_random by done. eauto.
Qed.

Lemma sum_rolls_throwable items : forall total r,
  Forall throwable items ->
  exists v,
    DiceBag.sum_rolls items total r
    = Return (v, after_draws (dice_thrown items) r).
Proof.
  induction items as [|item items IH]; intros total r H; simpl.
  - exists total. destruct r as [src k]. unfold after_draws. simpl.
    by rewrite Nat.add_0_r.
  - inversion H as [|? ? Hi H']; subst.
    destruct (Die_roll_throwable _ r Hi) as (v & Hv).
    unfold DiceBagItem.roll. cbv zeta. rewrite Hv, !bind_Return.
    cbv beta iota. rewrite ?bind_Return.
    destruct (IH (total + (if DiceBagItem.subtracted item then -1 else 1) * v)
                (after_draws (Z.to_nat (Die.num_dice (DiceBagItem.die item))) r)
                H') as (v' & ->).
    exists v'. by rewrite after_draws_add.
Qed.

Lemma sum_rolls_stuck items1 item items2 : forall total r,
  Forall throwable items1 -> ~ throwable item ->
  DiceBag.sum_rolls (items1 ++ item :: items2) total r
  = Raise (EmptyRange 1 (Die.sides (DiceBagItem.die item))).
Proof.
  induction items1 as [|i1 items1 IH]; intros total r H Hn; simpl.
  - unfold DiceBagItem.roll. cbv zeta.
    rewrite Die_roll_empty_range; [done|unfold throwable in Hn; lia..].
  - inversion H as [|? ? Hi H']; subst.
    destruct (Die_roll_throwable _ r Hi) as (v & Hv).
    unfold DiceBagItem.roll. cbv zeta. rewrite Hv, !bind_Return.
    cbv beta iota. rewrite ?bind_Return. by apply IH.
Qed.

Lemma sum_rolls_natural items : forall total r,
  Forall natural_counts items ->
  (exists v r', DiceBag.sum_rolls items total r = Return (v, r')) \/
  DiceBag.sum_rolls items total r = Raise (EmptyRange 1 0).
Proof.
  induction items as [|item items IH]; intros total r H; simpl; [eauto|].
  inversion H as [|? ? [Hs Hn] H']; subst.
  unfold DiceBagItem.roll. cbv zeta.
  destruct (decide (1 <= Die.num_dice (DiceBagItem.die item)
                    /\ Die.sides (DiceBagItem.die item) = 0)) as [[H1 H0]|Hok].
  - right. rewrite Die_roll_empty_range by lia. by rewrite H0.
  - destruct (Die_roll_throwable (DiceBagItem.die item) r) as (v & ->); [lia|].
    rewrite !bind_Return. cbv beta iota. rewrite ?bind_Return. by apply IH.
Qed.

End RollOutcomes.

(** X5.  A die with no dice to throw ([num_dice <= 0]) rolls to its
    modifier and draws nothing, whatever its sides; a die with dice to
    throw and fewer than one side raises, the range of its draws being
    empty. *)
Theorem Die_roll_edges (d : Die.t) (r : Random.t) :
  (Die.num_dice d <= 0 -> Die.roll d r = Return (Die.modifier d, r)) /\
  (1 <= Die.num_dice d -> Die.sides d < 1 ->
   Die.roll d r = Raise (EmptyRange 1 (Die.sides d))).
Proof.
  split; [apply Die_roll_nothing | apply Die_roll_empty_range].
Qed.

Lemma Die_roll_edges_witness :
  Die.roll (Die.mk 0 (-2) 3) (Random.mk (fun _ => 0%N) 0)
  = Return (3, Random.mk (fun _ => 0%N) 0) /\
  Die.roll (Die.mk (-4) 2 3) (Random.mk (fun _ => 0%N) 0)
  = Raise (EmptyRange 1 (-4)).
Proof.
  split.
  - apply (proj1 (Die_roll_edges (Die.mk 0 (-2) 3) (Random.mk (fun _ => 0%N) 0))).
    simpl. lia.
  - apply (proj2 (Die_roll_edges (Die.mk (-4) 2 3) (Random.mk (fun _ => 0%N) 0)));
      simpl; lia.
Defined.

(** X6.  The roll of a bag returns when every die can be thrown, and then
    it has taken from the random source exactly as many draws as there
    are dice to throw; it raises at the first die that cannot be thrown,
    with the empty range of that die. *)
Theorem DiceBag_roll_outcome (B : DiceBag.t) (r : Random.t) :
  (Forall throwable (DiceBag._bag B) ->
   exists v,
     DiceBag.roll B r
     = Return (v, after_draws (dice_thrown (DiceBag._bag B)) r)) /\
  (forall items1 item items2,
      DiceBag._bag B = items1 ++ item :: items2 ->
      Forall throwable items1 -> ~ throwable item ->
      DiceBag.roll B r
      = Raise (EmptyRange 1 (Die.sides (DiceBagItem.die item)))).
Proof.
  split.
  - intros H. by apply sum_rolls_throwable.
  - intros items1 item items2 E H Hn. unfold DiceBag.roll. rewrite E.
    by apply sum_rolls_stuck.
Qed.

Lemma DiceBag_roll_outcome_witness :
  (exists v,
      DiceBag.roll (bag_of [(2, 6, 1, false); (0, 0, 0, true)])
        (Random.mk (fun i => N.of_nat i) 0)
      = Return (v, Random.mk (fun i => N.of_nat i) 2)) /\
  DiceBag.roll (bag_of [(2, 6, 1, false); (1, 0, 0, true); (1, 4, 0, false)])
    (Random.mk (fun i => N.of_nat i) 0)
  = Raise (EmptyRange 1 0).
Proof.
  split.
  - apply (proj1 (DiceBag_roll_outcome
                    (bag_of [(2, 6, 1, false); (0, 0, 0, true)])
                    (Random.mk (fun i => N.of_nat i) 0))).
    constructor; [right; simpl; lia|].
    constructor; [left; simpl; lia|constructor].
  - apply (proj2 (DiceBag_roll_outcome
                    (bag_of [(2, 6, 1, false); (1, 0, 0, true); (1, 4, 0, false)])
                    (Random.mk (fun i => N.of_nat i) 0))
             [DiceBagItem.mk (Die.mk 6 2 1) false]
             (DiceBagItem.mk (Die.mk 0 1 0) true)
             [DiceBagItem.mk (Die.mk 4 1 0) false]).
    + reflexivity.
    + constructor; [right; simpl; lia|constructor].
    + unfold throwable. simpl. lia.
Defined.

(** X7.  The module-level [roll] of a text returns a value or raises; what
    it raises is what the parse of the text raises (the digit limit of
    [int] among it), or the empty range [randint(1, 0)] of a parsed die
    without sides.  Nothing else goes wrong in a roll. *)
Theorem roll_raises (t : string) (r : Random.t) :
  (exists v r', roll t r = Return (v, r')) \/
  (exists e, roll t r = Raise e /\ (parse_error t e \/ e = EmptyRange 1 0)).
Proof.
  unfold roll. pose proof (from_str_sat t) as Hs.
  pose proof (safe_from_str t) as [Hf Hn].
  destruct (from_str t) as [bag|e|]; [|right; exists e; by auto|done].
  rewrite bind_Return. unfold DiceBag.roll.
  destruct (sum_rolls_natural (DiceBag._bag bag) 0 r) as [H|H]; [by auto|by left|].
  right. exists (EmptyRange 1 0). by auto.
Qed.

(** * Further properties of the lexer *)

Section LexerSteps.

Lemma ws_count_spaces s : forall i,
  (i < ws_count s)%nat ->
  exists c, String.get i s = Some c /\ isspace c = true.
Proof.
  induction s as [|a s IH]; intros i Hi; simpl in Hi; [lia|].
  destruct (isspace a) eqn:Ha; [|lia].
  destruct i as [|i]; simpl; [eauto|]. apply IH. lia.
Qed.

Lemma ws_count_end s c :
  String.get (ws_count s) s = Some c -> isspace c = false.
Proof.
  induction s as [|a s IH]; simpl; [done|].
  destruct (isspace a) eqn:Ha; simpl; [done|]. by intros [= <-].
Qed.

Lemma ws_count_again s : ws_count (sdrop (ws_count s) s) = O.
Proof.
  induction s as [|a s IH]; simpl; [done|].
  destruct (isspace a) eqn:Ha; simpl; [done|]. by rewrite Ha.
Qed.

Lemma get_after p i t :
  (p <= i)%nat -> String.get i t = String.get (i - p) (sdrop p t).
Proof.
  intros H. rewrite !get_sdrop, sdrop_sdrop. do 2 f_equal. lia.
Qed.

Lemma integer_wf l n l' :
  lexer_wf l -> Lexer.integer l = Return (n, l') ->
  lexer_wf l' /\ Lexer.text l' = Lexer.text l.
Proof.
  intros Hwf. apply lexer_wf_at in Hwf. rewrite Hwf.
  generalize (Lexer.text l) (Lexer.pos l). clear. intros t p.
  unfold Lexer.integer. simpl Lexer.current_char.
  destruct (String.get p t) as [c|] eqn:E; [|done].
  destruct (isdecimal c) eqn:Hc; [|done]. intros H.
  rewrite get_sdrop in E. destruct (sdrop p t) as [|c' s] eqn:Es; [done|].
  injection E as ->.
  assert (Lexer.integer (lexer_at t p) = Return (n, l')) as Hi.
  { unfold Lexer.integer. simpl Lexer.current_char.
    by rewrite get_sdrop, Es; simpl; rewrite Hc. }
  rewrite (integer_at _ _ _ _ Es Hc) in Hi.
  destruct (_ <? _); [done|]. by injection Hi as <- <-.
Qed.

End LexerSteps.

(** X8.  [skip_whitespace] moves the cursor over a run of whitespace and
    no further: the text is kept, every character passed is whitespace,
    and the cursor stops at the end of the text or on a character that is
    not whitespace.  A second call changes nothing. *)
Theorem skip_whitespace_spec (l : Lexer.t) :
  lexer_wf l ->
  exists l',
    Lexer.skip_whitespace l = Return l' /\
    Lexer.text l' = Lexer.text l /\ lexer_wf l' /\
    (Lexer.pos l <= Lexer.pos l')%nat /\
    (forall i, (Lexer.pos l <= i < Lexer.pos l')%nat ->
       exists c, String.get i (Lexer.text l) = Some c /\ isspace c = true) /\
    (forall c, Lexer.current_char l' = Some c -> isspace c = false) /\
    Lexer.skip_whitespace l' = Return l'.
Proof.
  intros Hwf. apply lexer_wf_at in Hwf. rewrite Hwf.
  generalize (Lexer.text l) (Lexer.pos l). clear. intros t p.
  exists (lexer_at t (p + ws_count (sdrop p t))).
  split; [apply skip_whitespace_at|]. split; [done|]. split; [done|].
  split; [simpl; unfold Lexer.pos; simpl; lia|]. split; [|split].
  - unfold Lexer.pos. simpl. intros i Hi.
    rewrite (get_after p) by lia. apply ws_count_spaces. lia.
  - simpl. intros c. rewrite (get_after p) by lia.
    replace (p + ws_count (sdrop p t) - p)%nat with (ws_count (sdrop p t))
      by lia.
    apply ws_count_end.
  - rewrite skip_whitespace_at, <- sdrop_sdrop, ws_count_again.
    by rewrite Nat.add_0_r.
Qed.

Lemma skip_whitespace_spec_witness :
  exists l',
    Lexer.skip_whitespace (lexer_at "2  d6" 1) = Return l' /\
    Lexer.text l' = "2  d6" /\ lexer_wf l' /\
    (1 <= Lexer.pos l')%nat /\
    (forall i, (1 <= i < Lexer.pos l')%nat ->
       exists c, String.get i "2  d6" = Some c /\ isspace c = true) /\
    (forall c, Lexer.current_char l' = Some c -> isspace c = false) /\
    Lexer.skip_whitespace l' = Return l'.
Proof. apply (skip_whitespace_spec (lexer_at "2  d6" 1)). reflexivity. Defined.

(** X9.  [get_next_token] at or past the end of the text returns [EOF] and
    leaves the lexer as it is, so every later call returns [EOF] again.
    A token that is not [EOF] moves the cursor forward by at least one
    character and never past the end; [EOF] is only returned at the end.
    The text is kept. *)
Theorem get_next_token_progress (l : Lexer.t) :
  lexer_wf l ->
  ((String.length (Lexer.text l) <= Lexer.pos l)%nat ->
   Lexer.get_next_token l = Return (tEOF, l)) /\
  (forall tok l',
      Lexer.get_next_token l = Return (tok, l') ->
      Lexer.text l' = Lexer.text l /\
      (Token.type tok = EOF ->
       l' = l /\ (String.length (Lexer.text l) <= Lexer.pos l)%nat) /\
      (Token.type tok <> EOF ->
       (Lexer.pos l < Lexer.pos l' <= String.length (Lexer.text l))%nat)).
Proof.
  intros Hwf. apply lexer_wf_at in Hwf. rewrite Hwf.
  generalize (Lexer.text l) (Lexer.pos l). clear. intros t p.
  rewrite text_lexer_at, pos_lexer_at. split.
  - apply get_next_token_at_end.
  - intros tok l' H. pose proof H as H'.
    apply get_next_token_inv in H as (k & Hk & ->).
    split; [done|]. rewrite pos_lexer_at. split.
    + intros He. apply lex_consumed in Hk as (_ & _ & Hend).
      destruct (Hend He) as [-> Hs]. rewrite Nat.add_0_r. split; [done|].
      pose proof (sdrop_length p t) as L. rewrite Hs in L. simpl in L. lia.
    + intros Hne. by apply (get_next_token_advance t p tok).
Qed.

Lemma get_next_token_progress_witness :
  ((String.length "d6" <= 0)%nat ->
   Lexer.get_next_token (lexer_at "d6" 0) = Return (tEOF, lexer_at "d6" 0)) /\
  (forall tok l',
      Lexer.get_next_token (lexer_at "d6" 0) = Return (tok, l') ->
      Lexer.text l' = "d6" /\
      (Token.type tok = EOF ->
       l' = lexer_at "d6" 0 /\ (String.length "d6" <= 0)%nat) /\
      (Token.type tok <> EOF ->
       (0 < Lexer.pos l' <= String.length "d6")%nat)).
Proof. apply (get_next_token_progress (lexer_at "d6" 0)). reflexivity. Defined.

Lemma str_int_inv n s : str_int n = Return s -> fits n /\ s = decimal n.
Proof.
  unfold str_int, fits.
  destruct (Z.leb_spec digit_limit (Z.abs n)); [done|]. by intros [= <-].
Qed.

Lemma integer_long_run t p :
  max_str_digits < Z.of_nat (digit_count (sdrop p t)) ->
  Lexer.integer (lexer_at t p) = Raise DigitLimit.
Proof.
  intros H. destruct (sdrop p t) as [|c s] eqn:E.
  { simpl in H. unfold max_str_digits in H. lia. }
  assert (isdecimal c = true) as Hc.
  { destruct (isdecimal c) eqn:Hc; [done|]. simpl in H. rewrite Hc in H.
    unfold max_str_digits in H. simpl in H. lia. }
  rewrite (integer_at _ _ _ _ E Hc).
  by destruct (Z.ltb_spec max_str_digits
                 (Z.of_nat (digit_count (String c s)))); [|lia].
Qed.

(** X10.  [Lexer.integer] reads back the decimal rendering of a natural
    number: on the digits that [str(n)] returns, wherever they stand in
    the text and not followed by a digit, it returns [n] and leaves the
    cursor just after them.  On a run of more than 4300 digits it raises
    [DigitLimit], the [ValueError] of [int]. *)
Theorem integer_reads_str_int :
  (forall (pre rest s : string) (n : Z),
      0 <= n -> str_int n = Return s -> digit_count rest = O ->
      Lexer.integer (lexer_at (pre +:+ s +:+ rest) (String.length pre))
      = Return (n, lexer_at (pre +:+ s +:+ rest)
                     (String.length pre + String.length s))) /\
  (forall (t : string) (p : nat),
      max_str_digits < Z.of_nat (digit_count (sdrop p t)) ->
      Lexer.integer (lexer_at t p) = Raise DigitLimit).
Proof.
  split; [|apply integer_long_run].
  intros pre rest s n Hn Hs Hrest. apply str_int_inv in Hs as [Hfit ->].
  destruct (decimal_digits n Hn) as (Hall & Hne & Hval).
  pose proof (decimal_fits n Hn Hfit) as Hlen.
  destruct (decimal n) as [|c ds] eqn:E; [done|].
  pose proof Hall as Hall'. apply all_digits_cons in Hall' as [Hc _].
  rewrite (integer_at _ _ c (ds +:+ rest)); [| |done].
  - rewrite <- app_cons, digits_val_app, digit_count_app, Hval, Hrest by done.
    rewrite digits_val_stop, Nat.add_0_r by done.
    by destruct (Z.ltb_spec max_str_digits
                   (Z.of_nat (String.length (String c ds)))); [lia|].
  - by rewrite sdrop_length_app, app_cons.
Qed.

Lemma integer_reads_str_int_witness :
  Lexer.integer (lexer_at ("2d" +:+ "120" +:+ "+1") 2)
  = Return (120, lexer_at ("2d" +:+ "120" +:+ "+1") (2 + 3)).
Proof.
  apply (proj1 integer_reads_str_int "2d" "+1" "120" 120);
    [lia|apply str_int_fits; fits_small|reflexivity].
Defined.

(** X11.  The invariant of the lexer, that [current_char] is the character
    of the text under the cursor, or [None] past the end: the constructor
    establishes it, the setter of [pos] and [advance] establish it from any
    state, and [skip_whitespace], [integer], [get_next_token] and
    [peek_next_token] keep it.  None of them changes the text. *)
Theorem lexer_invariant :
  (forall t l, Lexer.init t = Return l -> lexer_wf l /\ Lexer.text l = t) /\
  (forall l v,
      lexer_wf (Lexer.set_pos l v) /\
      Lexer.text (Lexer.set_pos l v) = Lexer.text l) /\
  (forall l,
      lexer_wf (Lexer.advance l) /\
      Lexer.text (Lexer.advance l) = Lexer.text l) /\
  (forall l l',
      lexer_wf l -> Lexer.skip_whitespace l = Return l' ->
      lexer_wf l' /\ Lexer.text l' = Lexer.text l) /\
  (forall l n l',
      lexer_wf l -> Lexer.integer l = Return (n, l') ->
      lexer_wf l' /\ Lexer.text l' = Lexer.text l) /\
  (forall l tok l',
      lexer_wf l -> Lexer.get_next_token l = Return (tok, l') ->
      lexer_wf l' /\ Lexer.text l' = Lexer.text l) /\
  (forall l ahead tok l',
      lexer_wf l -> Lexer.peek_next_token l ahead = Return (tok, l') ->
      lexer_wf l' /\ Lexer.text l' = Lexer.text l).
Proof.
  split; [|split; [|split; [|split; [|split; [|split]]]]].
  - intros t l H. split; [by eapply init_wf|].
    destruct t; [done|]. by injection H as <-.
  - intros l v. by rewrite set_pos_at.
  - intros l. unfold Lexer.advance. by rewrite set_pos_at.
  - intros l l' Hwf. apply lexer_wf_at in Hwf. rewrite Hwf.
    rewrite skip_whitespace_at. by intros [= <-].
  - apply integer_wf.
  - apply get_next_token_wf.
  - intros l ahead tok l' Hwf.
    destruct (decide (1 <= ahead)) as [Ha|Ha].
    + rewrite peek_next_token_nth by done.
      destruct (nth_next_token _ l) as [[tok' l1]| |]; [|done..].
      rewrite bind_Return. by intros [= <- <-].
    + unfold Lexer.peek_next_token.
      by assert ((ahead >? 0) = false) as -> by lia.
Qed.

Lemma lexer_invariant_witness :
  lexer_wf (lexer_at "d6" 0) /\ Lexer.text (lexer_at "d6" 0) = "d6".
Proof. apply (proj1 lexer_invariant "d6"). reflexivity. Defined.

(** * Rendering and parsing back, with signs *)

Section SignedRendering.

Lemma decimal_neg m : m < 0 -> decimal m = "-" +:+ decimal (- m).
Proof. intros H. destruct m as [|q|q]; [lia|lia|reflexivity]. Qed.

Lemma rendered_term_natural d :
  0 <= Die.modifier d -> rendered_term d = die_term d.
Proof.
  intros H. unfold rendered_term, die_term.
  destruct (Die.modifier d =? 0); [done|].
  by assert ((Die.modifier d <? 0) = false) as -> by lia.
Qed.

Lemma term_die_rendered_term d : term_die (rendered_term d) = d.
Proof.
  destruct d as [s n m]. unfold term_die, rendered_term. simpl. f_equal.
  destruct (m =? 0) eqn:E; simpl; [apply Z.eqb_eq in E; by subst|].
  destruct (m <? 0); simpl; lia.
Qed.

Lemma rest_items_rendered_rest items : rest_items (rendered_rest items) = items.
Proof.
  induction items as [|[d sub] items IH]; simpl; [done|].
  by rewrite term_die_rendered_term, IH.
Qed.

Lemma slexes_die_signed d rest :
  0 <= Die.sides d -> 0 <= Die.num_dice d -> printable_die d ->
  digit_count rest = O ->
  slexes (die_text d +:+ rest) (term_tokens (rendered_term d))
    (String.length (die_text d)).
Proof.
  intros Hs Hn Hp Hrest.
  destruct (decide (0 <= Die.modifier d)) as [Hm|Hm].
  { rewrite rendered_term_natural by done. by apply slexes_die. }
  destruct Hp as (Fs & Fn & Fm).
  unfold die_text, die_tail_str, rendered_term, term_tokens.
  simpl t_num. simpl t_sides. simpl t_mods.
  assert ((Die.modifier d =? 0) = false) as -> by lia.
  assert ((Die.modifier d <? 0) = true) as -> by lia.
  unfold signed_decimal.
  assert ((Die.modifier d <? 0) = true) as -> by lia.
  rewrite (decimal_neg (Die.modifier d)) by lia. simpl mods_tokens.
  rewrite !app_assoc_s, length_app_s.
  change (String.length ("d" +:+ ?x)) with (1 + String.length x)%nat.
  rewrite length_app_s.
  change (String.length ("-" +:+ ?x)) with (1 + String.length x)%nat.
  apply (slexes_cons _ (tINT (Die.num_dice d))); [by apply lex_decimal|].
  rewrite sdrop_length_app.
  apply (slexes_cons _ tDELIM 1); [done|].
  change (sdrop 1 ("d" +:+ ?x)) with x.
  apply (slexes_cons _ (tINT (Die.sides d))); [by apply lex_decimal|].
  rewrite sdrop_length_app.
  apply (slexes_cons _ tMINUS 1); [done|].
  change (sdrop 1 ("-" +:+ ?x)) with x.
  apply slexes_one. apply lex_decimal; [lia| |done].
  unfold fits in *. by rewrite Z.abs_opp.
Qed.

Lemma slexes_space s toks k :
  slexes s toks k -> toks <> [] -> s <> "" ->
  slexes (String " " s) toks (S k).
Proof.
  intros H Hne Hs. destruct H as [|s tok k toks k' Hl Hr]; [done|].
  change (S (k + k')) with (S k + k')%nat.
  apply slexes_cons; [|done].
  rewrite lex_space by done. by rewrite (lex_off _ (0 + 1) _ _ Hl).
Qed.

Lemma Die_str_not_empty d rest : 0 <= Die.num_dice d -> die_text d +:+ rest <> "".
Proof.
  intros Hn. destruct (decimal_digits _ Hn) as (_ & Hne & _).
  unfold die_text. by destruct (decimal (Die.num_dice d)).
Qed.

Lemma term_tokens_not_nil tm : term_tokens tm <> [].
Proof.
  pose proof (term_tokens_length tm). destruct (term_tokens tm); [simpl in *; lia|done].
Qed.

Lemma slexes_render_rest_signed items :
  Forall natural_counts items -> Forall printable items ->
  slexes (render_rest items) (rest_tokens (rendered_rest items) ++ [tEOF])
    (String.length (render_rest items)).
Proof.
  induction 1 as [|[d sub] items [Hs Hn] _ IH]; intros Hp.
  - by apply slexes_one.
  - inversion Hp as [|? ? Hpd Hp']; subst. unfold printable in Hpd.
    specialize (IH Hp'). simpl in Hs, Hn, Hpd.
    change (render_rest (DiceBagItem.mk d sub :: items))
      with (" " +:+ (if sub then "-" else "+") +:+ " " +:+ die_text d
              +:+ render_rest items).
    change (rest_tokens (rendered_rest (DiceBagItem.mk d sub :: items)))
      with (op_token sub :: term_tokens (rendered_term d)
                  ++ rest_tokens (rendered_rest items)).
    rewrite <- app_comm_cons, <- app_assoc.
    assert (String.length (" " +:+ (if sub then "-" else "+") +:+ " "
                             +:+ die_text d +:+ render_rest items)
            = (2 + S (String.length (die_text d)
                      + String.length (render_rest items)))%nat) as ->.
    { destruct sub; rewrite !app_cons, app_empty_l; simpl;
        by rewrite app_empty_l, length_app_s. }
    apply (slexes_cons _ (op_token sub) 2); [by destruct sub|].
    assert (sdrop 2 (" " +:+ (if sub then "-" else "+") +:+ " "
                       +:+ die_text d +:+ render_rest items)
            = String " " (die_text d +:+ render_rest items)) as ->
      by by destruct sub.
    change (S (?a + ?b)) with (S a + b)%nat.
    apply slexes_app.
    + apply slexes_space;
        [apply slexes_die_signed; [done..|apply render_rest_no_digit]
        |apply term_tokens_not_nil|by apply Die_str_not_empty].
    + change (sdrop (S ?n) (String " " ?x)) with (sdrop n x).
      by rewrite sdrop_length_app.
Qed.

(** The text of a bag that [str] converts spells the derivation made of
    its dice. *)
Lemma lexes_DiceBag_str_signed item0 items :
  Forall natural_counts (item0 :: items) -> Forall printable (item0 :: items) ->
  lexes (bag_text item0 items) O
    (formula_tokens (rendered_term (DiceBagItem.die item0), rendered_rest items)
       ++ [tEOF])
    (String.length (bag_text item0 items)).
Proof.
  intros H Hp. inversion H as [|? ? [Hs Hn] Hitems]; subst.
  inversion Hp as [|? ? Hpd Hp']; subst.
  unfold bag_text.
  apply (slexes_lexes _ _ O). simpl sdrop at 1.
  unfold formula_tokens. simpl fst. simpl snd. rewrite <- app_assoc.
  rewrite length_app_s. apply slexes_app.
  - apply slexes_die_signed; [done..|apply render_rest_no_digit].
  - rewrite sdrop_length_app. by apply slexes_render_rest_signed.
Qed.

End SignedRendering.

Section TooLong.

Lemma digit_limit_pos : 0 < digit_limit.
Proof. unfold digit_limit. by apply Z.pow_pos_nonneg. Qed.

Lemma Die_str_too_long d : ~ printable_die d -> Die.str d = Raise DigitLimit.
Proof.
  intros Hn. unfold Die.str.
  destruct (Z_lt_dec (Z.abs (Die.num_dice d)) digit_limit) as [Fn|Fn];
    [|rewrite (str_int_too_long _ Fn); by destruct (_ =? _)].
  destruct (Z_lt_dec (Z.abs (Die.sides d)) digit_limit) as [Fs|Fs];
    [|rewrite (str_int_fits _ Fn), (str_int_too_long _ Fs);
      by destruct (_ =? _)].
  assert (~ fits (Die.modifier d)) as Fm by (intros Fm; by apply Hn).
  destruct (Z.eqb_spec (Die.modifier d) 0) as [E|E].
  { destruct Fm. unfold fits. rewrite E. apply digit_limit_pos. }
  rewrite (str_int_fits _ Fn), (str_int_fits _ Fs), !bind_Return.
  unfold format_plus. by rewrite (str_int_too_long _ Fm).
Qed.

Lemma printable_dec item : {printable item} + {~ printable item}.
Proof.
  unfold printable, printable_die, fits.
  destruct (Z_lt_dec (Z.abs (Die.sides (DiceBagItem.die item))) digit_limit);
    [|right; tauto].
  destruct (Z_lt_dec (Z.abs (Die.num_dice (DiceBagItem.die item))) digit_limit);
    [|right; tauto].
  destruct (Z_lt_dec (Z.abs (Die.modifier (DiceBagItem.die item))) digit_limit);
    [left|right]; tauto.
Qed.

Lemma str_loop_too_long items : forall acc,
  ~ Forall printable items -> DiceBag.str_loop items acc = Raise DigitLimit.
Proof.
  induction items as [|item items IH]; intros acc Hn; simpl.
  - by destruct Hn.
  - destruct (printable_dec item) as [Hp|Hp].
    + rewrite (Die_str_text _ Hp), bind_Return. apply IH.
      intros H. apply Hn. by constructor.
    + by rewrite (Die_str_too_long _ Hp).
Qed.

Lemma DiceBag_str_too_long B :
  ~ Forall printable (DiceBag._bag B) -> DiceBag.str B = Raise DigitLimit.
Proof.
  destruct B as [[|item0 items]]; unfold DiceBag.str; simpl DiceBag._bag.
  - intros Hn. by destruct Hn.
  - intros Hn. cbv iota. destruct (printable_dec item0) as [Hp|Hp].
    + rewrite (Die_str_text _ Hp), bind_Return. apply str_loop_too_long.
      intros H. apply Hn. by constructor.
    + by rewrite (Die_str_too_long _ Hp).
Qed.

End TooLong.

Section LongRuns.

Lemma repeat_char_length n c : String.length (repeat_char n c) = n.
Proof. induction n as [|n IH]; simpl; [done|]. by rewrite IH. Qed.

Lemma repeat_char_digits n c :
  isdecimal c = true -> all_digits (repeat_char n c).
Proof.
  intros Hc. induction n as [|n IH]; [done|].
  simpl repeat_char. by apply all_digits_cons.
Qed.

Lemma digits_val_nines n : forall acc,
  digits_val acc (repeat_char n "9") = (acc + 1) * 10 ^ Z.of_nat n - 1.
Proof.
  induction n as [|n IH]; intros acc.
  - simpl. lia.
  - change (digits_val acc (repeat_char (S n) "9"))
      with (digits_val (10 * acc + 9) (repeat_char n "9")).
    rewrite IH, Nat2Z.inj_succ, Z.pow_succ_r by lia. ring.
Qed.

(** A run of [n] nines, within the limit and not followed by a digit, is
    the integer [10 ^ n - 1]. *)
Lemma lex_nines off n rest :
  (1 <= n)%nat -> Z.of_nat n <= max_str_digits -> digit_count rest = O ->
  lex off (repeat_char n "9" +:+ rest)
  = Return (tINT (10 ^ Z.of_nat n - 1), n).
Proof.
  intros Hn Hmax Hrest.
  pose proof (repeat_char_digits n "9" eq_refl) as Hall.
  pose proof (repeat_char_length n "9") as Hlen.
  pose proof (digits_val_nines n 0) as Hval.
  rewrite Z.add_0_l, Z.mul_1_l in Hval.
  assert (exists ds', repeat_char n "9" = String "9" ds') as [ds' E].
  { destruct n as [|n']; [lia|]. by eexists. }
  rewrite E in *. rewrite app_cons. unfold lex.
  simpl ws_count. simpl sdrop. cbv zeta iota.
  change (isdecimal "9") with true. cbv iota.
  rewrite <- !app_cons.
  rewrite digits_val_app, digit_count_app, Hval, Hrest, Hlen by done.
  rewrite digits_val_stop, Nat.add_0_r by done.
  by destruct (Z.ltb_spec max_str_digits (Z.of_nat n)); [lia|].
Qed.

(** A modifier made of two clauses: [n] nines and one. *)
Lemma long_modifier_parse n :
  (1 <= n)%nat -> Z.of_nat n <= max_str_digits ->
  from_str ("d6+" +:+ repeat_char n "9" +:+ "+1")
  = Return (bag_of [(1, 6, 10 ^ Z.of_nat n, false)]).
Proof.
  intros Hn Hmax.
  assert (slexes ("d6+" +:+ repeat_char n "9" +:+ "+1")
            [tDELIM; tINT 6; tPLUS; tINT (10 ^ Z.of_nat n - 1); tPLUS;
             tINT 1; tEOF] (1 + (1 + (1 + (n + (1 + (1 + 0))))))) as Hs.
  { apply (slexes_cons _ tDELIM 1); [reflexivity|].
    change (sdrop 1 ("d6+" +:+ ?x)) with ("6+" +:+ x).
    apply (slexes_cons _ (tINT 6) 1); [reflexivity|].
    change (sdrop 1 ("6+" +:+ ?x)) with ("+" +:+ x).
    apply (slexes_cons _ tPLUS 1); [reflexivity|].
    change (sdrop 1 ("+" +:+ ?x)) with x.
    apply (slexes_cons _ (tINT (10 ^ Z.of_nat n - 1)) n);
      [by apply lex_nines|].
    rewrite <- (repeat_char_length n "9") at 1. rewrite sdrop_length_app.
    apply (slexes_cons _ tPLUS 1); [reflexivity|].
    apply (slexes_cons _ (tINT 1) 1); [reflexivity|].
    apply slexes_one. reflexivity. }
  apply (slexes_lexes _ _ O) in Hs. simpl sdrop in Hs.
  rewrite (from_str_run _ (mkTerm None 6 [(false, 10 ^ Z.of_nat n - 1);
                                         (false, 1)], []) tEOF _ Hs);
    [|done|done].
  unfold formula_bag, bag_of, term_die, apply_mods. simpl.
  by replace (0 + (10 ^ Z.of_nat n - 1) + 1) with (10 ^ Z.of_nat n) by lia.
Qed.

End LongRuns.

(** C5, as stated, fails: [str] of an integer of more than 4300 digits
    raises.  The text [d6+99...9+1], with 4300 nines, parses to the bag of
    the one die [1d6] with the modifier [10 ^ 4300]: a non-empty bag, its
    item added, its numbers natural.  [str] of that bag raises
    [DigitLimit], so nothing is parsed back. *)
Lemma str_digit_limit_counterexample :
  let B := bag_of [(1, 6, 10 ^ 4300, false)] in
  from_str ("d6+" +:+ repeat_char (Z.to_nat 4300) "9" +:+ "+1") = Return B /\
  DiceBag._bag B <> [] /\
  Forall plain_item (DiceBag._bag B) /\
  DiceBag.str B = Raise DigitLimit.
Proof.
  cbv zeta.
  change (DiceBag._bag (bag_of [(1, 6, 10 ^ 4300, false)]))
    with [DiceBagItem.mk (Die.mk 6 1 (10 ^ 4300)) false].
  assert (0 <= 10 ^ 4300) as Hpos by by apply Z.pow_nonneg.
  split; [|split; [done|split]].
  - rewrite long_modifier_parse.
    + by rewrite Z2Nat.id.
    + clear. lia.
    + clear. rewrite Z2Nat.id by done. by unfold max_str_digits.
  - constructor; [|constructor]. by split; [split; [|split]|].
  - apply DiceBag_str_too_long.
    change (DiceBag._bag (bag_of [(1, 6, 10 ^ 4300, false)]))
      with [DiceBagItem.mk (Die.mk 6 1 (10 ^ 4300)) false].
    intros H. inversion H as [|? ? (_ & _ & Hm) _]; subst.
    change (Z.abs (10 ^ 4300) < 10 ^ 4300) in Hm.
    rewrite Z.abs_eq in Hm by done. by apply Z.lt_irrefl in Hm.
Qed.

(** X12.  Rendering and parsing back, for every bag whose dice have natural
    numbers of sides and of dice, with modifiers of either sign and items
    of either sign.  When every number of the bag has at most 4300
    decimal digits, [str B] returns a text, and [from_str] of that text
    returns [B] itself exactly when [B] is not empty and its first item
    is added.  (The rendering of the first item drops its sign, and an
    empty bag renders to a text that is no formula.)  When some number
    has more digits, [str B] raises [DigitLimit]. *)
Theorem render_parse_roundtrip (B : DiceBag.t) :
  (Forall natural_counts (DiceBag._bag B) ->
   Forall printable (DiceBag._bag B) ->
   exists s,
     DiceBag.str B = Return s /\
     (from_str s = Return B <->
      exists d items, DiceBag._bag B = DiceBagItem.mk d false :: items)) /\
  (~ Forall printable (DiceBag._bag B) -> DiceBag.str B = Raise DigitLimit).
Proof.
  split; [|apply DiceBag_str_too_long].
  intros H Hp. destruct B as [[|item0 items]]; simpl DiceBag._bag in *.
  - eexists. split; [done|]. split; [by vm_compute|].
    by intros (d & items & E).
  - exists (bag_text item0 items). split; [by apply DiceBag_str_text|].
    split.
    + intros Hf. pose proof (from_str_sat (bag_text item0 items)) as Hs.
      rewrite Hf in Hs. destruct Hs as (f & _ & [= -> ->]). eauto.
    + intros (d & items' & [= -> ->]).
      pose proof (lexes_DiceBag_str_signed _ _ H Hp) as Hl.
      rewrite (from_str_run _ _ tEOF _ Hl); [|done|done].
      unfold formula_bag. simpl fst. simpl snd.
      by rewrite term_die_rendered_term, rest_items_rendered_rest.
Qed.

Lemma render_parse_roundtrip_witness :
  exists s,
    DiceBag.str (bag_of [(2, 6, -3, false); (1, 4, 2, true)]) = Return s /\
    (from_str s = Return (bag_of [(2, 6, -3, false); (1, 4, 2, true)]) <->
     exists d items,
       DiceBag._bag (bag_of [(2, 6, -3, false); (1, 4, 2, true)])
       = DiceBagItem.mk d false :: items).
Proof.
  apply (proj1 (render_parse_roundtrip
                  (bag_of [(2, 6, -3, false); (1, 4, 2, true)]))).
  - constructor; [split; simpl; lia|].
    constructor; [split; simpl; lia|constructor].
  - constructor; [repeat split; fits_small|].
    constructor; [repeat split; fits_small|constructor].
Defined.

(** * A formula followed by text that the lexer rejects *)

Section RaisingRuns.

Context (t : string).

Lemma eat_raise p cur ty e :
  Lexer.get_next_token (lexer_at t p) = Raise e ->
  Token.type cur = ty ->
  Parser.eat (Parser.mk (lexer_at t p) cur) ty = Raise e.
Proof.
  intros Hg <-. unfold Parser.eat. simpl.
  destruct (decide _) as [_|]; [|done]. by rewrite Hg.
Qed.

Lemma modifier_follows_raise p cur n p1 e :
  Lexer.get_next_token (lexer_at t p) = Return (tINT n, lexer_at t p1) ->
  Lexer.get_next_token (lexer_at t p1) = Raise e ->
  Parser.modifier_follows (Parser.mk (lexer_at t p) cur) = Raise e.
Proof.
  intros Hg1 Hg2. unfold Parser.modifier_follows.
  rewrite (peek1_at _ _ _ _ _ Hg1), bind_Return. cbv beta iota.
  simpl Token.type. destruct (decide _) as [_|]; [|done].
  unfold Parser.peek_next_token. simpl Parser.lexer.
  rewrite peek_next_token_nth; [|apply lexer_at_wf|lia].
  simpl. rewrite Hg1. simpl. by rewrite Hg2.
Qed.

Lemma die_loop_raise cl : forall ps m fuel pe e,
  cl <> [] ->
  sees t ps (mods_tokens cl) pe ->
  Lexer.get_next_token (lexer_at t pe) = Raise e ->
  (length cl <= fuel)%nat ->
  Parser.die_loop fuel ps m = Raise e.
Proof.
  induction cl as [|[minus n] cl IH]; [done|].
  intros ps m fuel pe e _ Hs Hg Hf.
  simpl in Hs. destruct Hs as (p & -> & Hl).
  inversion Hl as [|? ? p1 ? ? Hg1 Hl1]; subst.
  rewrite die_loop_unfold. simpl Parser.current_token.
  rewrite op_token_operator.
  destruct cl as [|[minus' n'] cl].
  { inversion Hl1; subst.
    by rewrite (modifier_follows_raise _ _ _ _ _ Hg1 Hg). }
  simpl in Hl1. inversion Hl1 as [|? ? p2 ? ? Hg2 Hl2]; subst.
  rewrite (modifier_follows_int _ _ _ _ _ _ _ Hg1 Hg2), bind_Return.
  cbv beta iota. rewrite bool_decide_eq_true_2 by by destruct minus'.
  simpl negb. cbv iota. destruct fuel as [|fuel]; [simpl in Hf; lia|].
  assert (Hsees : sees t (Parser.mk (lexer_at t p2) (op_token minus'))
                    (mods_tokens ((minus', n') :: cl)) pe)
    by by exists p2.
  destruct minus; simpl Parser.current_token; simpl Token.type;
    (destruct (decide _) as [?|?]; [try done|try done]);
    rewrite (eat_at _ _ _ _ _ _ Hg1), bind_Return by reflexivity;
    cbv zeta; simpl Parser.current_token;
    rewrite (eat_at _ _ _ _ _ _ Hg2), bind_Return by reflexivity;
    simpl assert_int; rewrite bind_Return;
    (apply (IH _ _ _ pe); [done|done|done|simpl in Hf |- *; lia]).
Qed.

Lemma die_tail_raise num_dice p1 sides cl pe e :
  lexes t p1 (tINT sides :: mods_tokens cl) pe ->
  Lexer.get_next_token (lexer_at t pe) = Raise e ->
  (let* p2 := Parser.eat (Parser.mk (lexer_at t p1) tDELIM) DELIM in
   let token := Parser.current_token p2 in
   let* p3 := Parser.eat p2 INTEGER in
   let* sides := assert_int (Token.value token) in
   let* (modifier, p4) :=
     Parser.die_loop (String.length (Lexer.text (Parser.lexer p3))) p3 0 in
   Return (Die.mk sides num_dice modifier, p4))
  = Raise e.
Proof.
  intros Hl Hg.
  inversion Hl as [|? ? p2 ? ? Hg2 Hl2]; subst.
  rewrite (eat_at _ _ _ _ _ _ Hg2), bind_Return by reflexivity.
  cbv zeta. simpl Parser.current_token.
  pose proof (lexes_length t p2 (mods_tokens cl) [] pe) as Hlen.
  rewrite app_nil_r, mods_tokens_length in Hlen.
  specialize (Hlen Hl2 (mods_tokens_not_EOF cl)).
  destruct cl as [|[minus n] cl].
  { inversion Hl2; subst. by rewrite (eat_raise _ _ _ _ Hg). }
  simpl in Hl2. inversion Hl2 as [|? ? p3 ? ? Hg3 Hl3]; subst.
  rewrite (eat_at _ _ _ _ _ _ Hg3), bind_Return by reflexivity.
  simpl assert_int. rewrite bind_Return. simpl Parser.lexer.
  rewrite text_lexer_at.
  rewrite (die_loop_raise ((minus, n) :: cl) _ _ _ pe e);
    [done|done| |done|simpl in Hlen |- *; lia].
  by exists p3.
Qed.

Lemma die_raise tm ps pe e :
  sees t ps (term_tokens tm) pe ->
  Lexer.get_next_token (lexer_at t pe) = Raise e ->
  Parser.die ps = Raise e.
Proof.
  destruct tm as [[k|] sides cl]; unfold term_tokens;
    simpl; intros (p & -> & Hl) Hg; unfold Parser.die;
    simpl Parser.current_token; simpl Token.type;
    (destruct (decide _) as [?|?]; [try done|try done]).
  - inversion Hl as [|? ? p1 ? ? Hg1 Hl1]; subst.
    rewrite (eat_at _ _ _ _ _ _ Hg1), bind_Return by reflexivity.
    simpl assert_int. rewrite !bind_Return. cbv beta iota.
    by eapply die_tail_raise.
  - rewrite bind_Return. cbv beta iota. by eapply die_tail_raise.
Qed.

Lemma dice_loop_raise rest : forall ps bag fuel pe e,
  rest <> [] ->
  sees t ps (rest_tokens rest) pe ->
  Lexer.get_next_token (lexer_at t pe) = Raise e ->
  (length rest <= fuel)%nat ->
  Parser.dice_loop fuel ps bag = Raise e.
Proof.
  induction rest as [|[minus tm] rest IH]; [done|].
  intros ps bag fuel pe e _ Hs Hg Hf.
  simpl in Hs. destruct Hs as (p & -> & Hl).
  pose proof (term_tokens_length tm) as Hlen.
  destruct (term_tokens tm) as [|first tl] eqn:Etm; [simpl in Hlen; lia|].
  simpl in Hl. inversion Hl as [|? ? p1 ? ? Hg1 Hl1]; subst.
  rewrite dice_loop_unfold. simpl Parser.current_token.
  rewrite op_token_operator.
  destruct fuel as [|fuel]; [simpl in Hf; lia|].
  assert (Hdie : match rest with
                 | [] => Parser.die (Parser.mk (lexer_at t p1) first) = Raise e
                 | (minus', _) :: _ =>
                     exists pm,
                       Parser.die (Parser.mk (lexer_at t p1) first)
                       = Return (term_die tm,
                                 Parser.mk (lexer_at t pm) (op_token minus')) /\
                       sees t (Parser.mk (lexer_at t pm) (op_token minus'))
                         (rest_tokens rest) pe
                 end).
  { destruct rest as [|[minus' tm'] rest'].
    - simpl in Hl1. rewrite app_nil_r in Hl1.
      apply (die_raise tm _ pe); [|done]. rewrite Etm. by exists p1.
    - simpl in Hl1.
      change (tl ++ op_token minus' :: ?x) with (tl ++ [op_token minus'] ++ x)
        in Hl1.
      rewrite app_assoc in Hl1. apply lexes_app_inv in Hl1 as (pm & Hl1 & Hl2).
      exists pm. split; [|by exists pm].
      apply die_run.
      + rewrite Etm. by exists p1.
      + by eapply stops_before_term.
      + intros _. by destruct minus'. }
  destruct minus; simpl Token.type;
    (destruct (decide _) as [?|?]; [try done|try done]);
    rewrite (eat_at _ _ _ _ _ _ Hg1), bind_Return by reflexivity;
    (destruct rest as [|[minus' tm'] rest'];
     [by rewrite Hdie|destruct Hdie as (pm & -> & Hs')]);
    rewrite bind_Return; cbv beta iota;
    (apply (IH _ _ _ pe); [done|done|done|simpl in Hf |- *; lia]).
Qed.

Lemma dice_raise f ps pe e :
  sees t ps (formula_tokens f) pe ->
  Lexer.get_next_token (lexer_at t pe) = Raise e ->
  Parser.dice ps = Raise e.
Proof.
  destruct f as [tm rest]. unfold formula_tokens. simpl fst. simpl snd.
  intros Hs Hg. unfold Parser.dice. cbv zeta.
  destruct rest as [|[minus' tm'] rest'].
  { simpl in Hs. rewrite app_nil_r in Hs. by rewrite (die_raise tm _ pe e). }
  pose proof (term_tokens_length tm) as Hlen.
  pose proof (term_tokens_not_EOF tm) as HF.
  destruct (term_tokens tm) as [|first tl] eqn:Etm; [simpl in Hlen; lia|].
  simpl in Hs. destruct Hs as (p & -> & Hl).
  pose proof (lexes_length t p
                (tl ++ op_token minus' :: term_tokens tm' ++ rest_tokens rest')
                [] pe) as Hfuel.
  rewrite app_nil_r in Hfuel. specialize (Hfuel Hl).
  change (tl ++ op_token minus' :: ?x) with (tl ++ [op_token minus'] ++ x)
    in Hl.
  rewrite app_assoc in Hl. apply lexes_app_inv in Hl as (pm & Hl1 & Hl2).
  rewrite (die_run t tm _ (op_token minus') pm).
  - rewrite bind_Return. cbv beta iota. simpl Parser.lexer.
    rewrite text_lexer_at.
    apply (dice_loop_raise ((minus', tm') :: rest') _ _ _ pe); [done| |done|].
    + by exists pm.
    + pose proof (rest_tokens_length rest').
      pose proof (term_tokens_length tm'). simpl.
      assert (length (tl ++ op_token minus'
                         :: term_tokens tm' ++ rest_tokens rest')
              <= String.length t - p)%nat as Hle.
      { apply Hfuel. apply Forall_app. split; [by inversion HF|].
        constructor; [by destruct minus'|].
        apply Forall_app.
        split; [apply term_tokens_not_EOF|apply rest_tokens_not_EOF]. }
      rewrite length_app in Hle. simpl in Hle. rewrite length_app in Hle. lia.
  - rewrite Etm. by exists p.
  - by eapply stops_before_term.
  - intros _. by destruct minus'.
Qed.

(** A text whose tokens are those of a derivation, at the end of which the
    lexer raises, is rejected with that exception. *)
Lemma from_str_raise f pe e :
  lexes t O (formula_tokens f) pe ->
  Lexer.get_next_token (lexer_at t pe) = Raise e ->
  from_str t = Raise e.
Proof.
  intros Hl Hg. unfold from_str, Parser.init.
  pose proof (formula_tokens_not_EOF f) as HF.
  destruct (formula_tokens f) as [|first tl] eqn:E.
  { by destruct (formula_tokens_not_nil f). }
  inversion Hl as [|? ? p1 ? ? Hg1 Hl1]; subst.
  assert (Hne : t <> "").
  { intros ->. inversion HF as [|? ? Hne _]; subst.
    by vm_compute in Hg1; injection Hg1 as <- _. }
  assert (Hinit : Lexer.init t = Return (lexer_at t 0)) by by destruct t.
  rewrite Hinit, bind_Return, Hg1, !bind_Return. cbv beta iota.
  rewrite (dice_raise f _ pe e); [done| |done].
  rewrite E. by exists p1.
Qed.

End RaisingRuns.

Section RejectedTails.

Lemma all_whitespace_cons a s :
  ws_count (String a s) = String.length (String a s) <->
  isspace a = true /\ ws_count s = String.length s.
Proof.
  simpl. pose proof (ws_count_le s).
  destruct (isspace a); split; intros; try lia; try tauto;
    try (split; [done | lia]).
Qed.

Lemma token_char_false c :
  token_char c = false ->
  isspace c = false /\ isdecimal c = false /\ Ascii.eqb c "d" = false /\
  Ascii.eqb c "+" = false /\ Ascii.eqb c "-" = false.
Proof.
  unfold token_char. rewrite !orb_false_iff. tauto.
Qed.

Lemma lex_invalid W : forall off c T,
  ws_count W = String.length W -> token_char c = false ->
  lex off (W +:+ String c T)
  = Raise (InvalidCharacter c (off + String.length W)).
Proof.
  induction W as [|a W IH]; intros off c T HW Hc.
  - rewrite app_empty_l. apply token_char_false in Hc as (H1 & H2 & H3 & H4 & H5).
    unfold lex. simpl ws_count. rewrite H1. simpl sdrop. cbv zeta iota.
    by rewrite H2, H3, H4, H5.
  - apply all_whitespace_cons in HW as [Ha HW].
    rewrite app_cons, lex_space; [|done|by destruct W].
    rewrite (IH _ _ _ HW Hc). simpl. do 2 f_equal. lia.
Qed.

Lemma no_digit_after_whitespace W c T :
  ws_count W = String.length W -> isdecimal c = false ->
  digit_count (W +:+ String c T) = O.
Proof.
  intros HW Hc. destruct W as [|a W].
  - rewrite app_empty_l. simpl. by rewrite Hc.
  - apply all_whitespace_cons in HW as [Ha _]. rewrite app_cons. simpl.
    destruct (isdecimal a) eqn:E; [|done].
    apply isdecimal_not_space in E. congruence.
Qed.

(** The tokens of a whole formula are still read when text follows that
    starts with no digit, and they end where the formula ends. *)
Lemma lexes_formula_then F T f pe :
  lexes F O (formula_tokens f ++ [tEOF]) pe -> digit_count T = O ->
  lexes (F +:+ T) O (formula_tokens f) (String.length F).
Proof.
  intros Hl HT. apply lexes_app_inv in Hl as (pm & Hl1 & Hl2).
  apply lexes_EOF_end in Hl2.
  destruct (lexes_app_text F T _ _ _ Hl1 (formula_tokens_not_EOF f) HT)
    as [Hl1' Hpm].
  specialize (Hpm (formula_tokens_not_nil f)).
  by replace (String.length F) with pm by lia.
Qed.

End RejectedTails.

(** X13.  Whitespace after a whole formula is always rejected: for every
    text that is a formula up to its end, and every non-empty run of
    whitespace after it, [from_str] raises [AttributeError], while the
    formula alone parses to its bag. *)
Theorem trailing_whitespace_rejected (F W : string) (f : formula) (pe : nat) :
  lexes F O (formula_tokens f ++ [tEOF]) pe ->
  W <> "" -> ws_count W = String.length W ->
  from_str F = Return (formula_bag f) /\
  from_str (F +:+ W) = Raise AttributeError.
Proof.
  intros Hl Hne HW. split; [by apply (from_str_run F f tEOF pe)|].
  destruct W as [|a W]; [done|].
  pose proof HW as HW'. apply all_whitespace_cons in HW' as [Ha _].
  assert (digit_count (String a W) = O) as HT.
  { simpl. destruct (isdecimal a) eqn:E; [|done].
    apply isdecimal_not_space in E. congruence. }
  apply (from_str_raise _ f (String.length F)).
  - by apply (lexes_formula_then F _ f pe).
  - apply get_next_token_trailing_whitespace.
    + rewrite length_app_s. simpl. lia.
    + by rewrite sdrop_length_app.
Qed.

Lemma trailing_whitespace_rejected_witness :
  from_str "2d6+1" = Return (bag_of [(2, 6, 1, false)]) /\
  from_str ("2d6+1" +:+ "  ") = Raise AttributeError.
Proof.
  apply (trailing_whitespace_rejected "2d6+1" "  "
           (mkTerm (Some 2) 6 [(false, 1)], []) 5).
  - apply (lexes_cons _ _ _ 1%nat); [reflexivity|].
    apply (lexes_cons _ _ _ 2%nat); [reflexivity|].
    apply (lexes_cons _ _ _ 3%nat); [reflexivity|].
    apply (lexes_cons _ _ _ 4%nat); [reflexivity|].
    apply (lexes_cons _ _ _ 5%nat); [reflexivity|].
    apply (lexes_cons _ _ _ 5%nat); [reflexivity|].
    apply lexes_nil.
  - discriminate.
  - reflexivity.
Defined.

(** X14.  A character that is no whitespace, digit, [d], [+] or [-],
    placed after a whole formula and any run of whitespace, is always
    reported: [from_str] raises [InvalidCharacter] with that character and
    its index in the text, whatever follows it. *)
Theorem trailing_invalid_character_rejected (F W T : string) (c : ascii)
    (f : formula) (pe : nat) :
  lexes F O (formula_tokens f ++ [tEOF]) pe ->
  ws_count W = String.length W -> token_char c = false ->
  from_str (F +:+ W +:+ String c T)
  = Raise (InvalidCharacter c (String.length F + String.length W)).
Proof.
  intros Hl HW Hc.
  apply (from_str_raise _ f (String.length F)).
  - apply (lexes_formula_then F _ f pe); [done|].
    apply no_digit_after_whitespace; [done|].
    by apply token_char_false in Hc as (_ & ? & _).
  - by rewrite get_next_token_at, sdrop_length_app, lex_invalid.
Qed.

Lemma trailing_invalid_character_rejected_witness :
  from_str ("d20-1" +:+ " " +:+ String "x" "2")
  = Raise (InvalidCharacter "x" (5 + 1)).
Proof.
  apply (trailing_invalid_character_rejected "d20-1" " " "2" "x"
           (mkTerm None 20 [(true, 1)], []) 5).
  - apply (lexes_cons _ _ _ 1%nat); [reflexivity|].
    apply (lexes_cons _ _ _ 3%nat); [reflexivity|].
    apply (lexes_cons _ _ _ 4%nat); [reflexivity|].
    apply (lexes_cons _ _ _ 5%nat); [reflexivity|].
    apply (lexes_cons _ _ _ 5%nat); [reflexivity|].
    apply lexes_nil.
  - reflexivity.
  - reflexivity.
Defined.

(** * The dice of a bag *)

Ltac case_bool_spec :=
  match goal with
  | |- context [?a <? ?b] => destruct (Z.ltb_spec a b)
  | |- context [?a <=? ?b] => destruct (Z.leb_spec a b)
  end.

(** X15.  [add_die] appends: the bag is one die longer, the new die is the
    last one (at index [len] and at index [-1]), and the dice that were in
    the bag keep their indices.  An index is out of range exactly when it
    is below [-len] or at least [len]. *)
Theorem add_die_getitem (B : DiceBag.t) (d : Die.t) (sub : bool) :
  DiceBag.len (DiceBag.add_die B d sub) = S (DiceBag.len B) /\
  DiceBag.getitem (DiceBag.add_die B d sub) (Z.of_nat (DiceBag.len B)) = Some d /\
  DiceBag.getitem (DiceBag.add_die B d sub) (-1) = Some d /\
  (forall i, 0 <= i < Z.of_nat (DiceBag.len B) ->
     DiceBag.getitem (DiceBag.add_die B d sub) i = DiceBag.getitem B i) /\
  (forall i, DiceBag.getitem B i = None <->
     i < - Z.of_nat (DiceBag.len B) \/ Z.of_nat (DiceBag.len B) <= i).
Proof.
  destruct B as [items].
  unfold DiceBag.len, DiceBag.getitem, DiceBag.add_die. simpl DiceBag._bag.
  rewrite length_app. simpl length.
  split; [lia|]. split; [|split; [|split]].
  - repeat case_bool_spec; simpl; try lia.
    rewrite Nat2Z.id, lookup_app_r by lia. by rewrite Nat.sub_diag.
  - repeat case_bool_spec; simpl; try lia.
    replace (Z.to_nat (-1 + Z.of_nat (length items + 1))) with (length items)
      by lia.
    rewrite lookup_app_r by lia. by rewrite Nat.sub_diag.
  - intros i Hi. repeat case_bool_spec; simpl; try lia.
    by rewrite lookup_app_l by lia.
  - intros i. repeat case_bool_spec; simpl;
      rewrite ?fmap_None, ?lookup_ge_None; split; intros; try done; lia.
Qed.

Lemma add_die_getitem_witness :
  DiceBag.getitem
    (DiceBag.add_die (bag_of [(2, 6, 0, false); (1, 4, 0, true)])
       (Die.mk 20 1 5) false) 1
  = DiceBag.getitem (bag_of [(2, 6, 0, false); (1, 4, 0, true)]) 1.
Proof.
  apply (proj1 (proj2 (proj2 (proj2
           (add_die_getitem (bag_of [(2, 6, 0, false); (1, 4, 0, true)])
              (Die.mk 20 1 5) false))))).
  split; [lia|reflexivity].
Defined.

(** * The bounds of a roll are attained *)

Section AttainedBounds.

Lemma draws_const n : forall sides src k v,
  (forall j, (j < n)%nat -> src (k + j)%nat = v) ->
  draws n sides (Random.mk src k) = replicate n (1 + Z.of_N v mod sides).
Proof.
  induction n as [|n IH]; intros sides src k v H; simpl; [done|].
  assert (src k = v) as Hk by (rewrite <- (H O) by lia; f_equal; lia).
  rewrite Hk. f_equal. unfold next_random. simpl. apply IH. intros j Hj.
  rewrite <- (H (S j)) by lia. f_equal. lia.
Qed.

Lemma sum_Z_replicate n x : sum_Z (replicate n x) = Z.of_nat n * x.
Proof. induction n as [|n IH]; simpl; [done|]. rewrite IH. lia. Qed.

Lemma sum_rolls_raw v items : forall total src k,
  Forall rollable items ->
  Forall (fun item => Z.of_N (v item) < Die.sides (DiceBagItem.die item)) items ->
  (forall j, src (k + j)%nat = raw_at v items j) ->
  DiceBag.sum_rolls items total (Random.mk src k)
  = Return (total
            + sum_Z (map (fun item =>
                       sign item
                       * (Die.num_dice (DiceBagItem.die item)
                          * (1 + Z.of_N (v item))
                          + Die.modifier (DiceBagItem.die item))) items),
            Random.mk src (k + dice_thrown items)).
Proof.
  induction items as [|item items IH]; intros total src k Hr Hv Hsrc; simpl.
  - by rewrite Z.add_0_r, Nat.add_0_r.
  - inversion Hr as [|? ? [Hs Hn] Hr']; subst.
    inversion Hv as [|? ? Hvi Hv']; subst.
    unfold DiceBagItem.roll. cbv zeta.
    rewrite Die_roll_draws, iter_next_random by done.
    rewrite (draws_const _ _ _ _ (v item)).
    2:{ intros j Hj. rewrite Hsrc. simpl.
        by apply Nat.ltb_lt in Hj as ->. }
    rewrite !bind_Return. cbv beta iota. rewrite ?bind_Return.
    unfold after_draws. simpl Random.source. simpl Random.drawn.
    rewrite IH; [|done|done|].
    + rewrite sum_Z_replicate, Z2Nat.id, Z.mod_small by lia.
      unfold sign, dice_thrown. simpl.
      do 2 f_equal; [|f_equal; lia].
      destruct (DiceBagItem.subtracted item); lia.
    + intros j. rewrite <- Nat.add_assoc, Hsrc. simpl.
      assert ((Z.to_nat (Die.num_dice (DiceBagItem.die item)) + j
               <? Z.to_nat (Die.num_dice (DiceBagItem.die item)))%nat = false)
        as -> by (apply Nat.ltb_ge; lia).
      f_equal. lia.
Qed.

End AttainedBounds.

(** X16.  The bounds of a roll are attained: for a bag whose dice all have
    at least one side and a natural number of dice, there is a random
    source with which the roll is the least value [bag_lo] (every added
    die draws 1 and every subtracted die draws its number of sides), and
    one with which it is the greatest value [bag_hi]. *)
Theorem roll_bounds_attained (B : DiceBag.t) :
  Forall rollable (DiceBag._bag B) ->
  (exists r',
      DiceBag.roll B (Random.mk (raw_at lo_raw (DiceBag._bag B)) 0)
      = Return (bag_lo B, r')) /\
  (exists r',
      DiceBag.roll B (Random.mk (raw_at hi_raw (DiceBag._bag B)) 0)
      = Return (bag_hi B, r')).
Proof.
  intros H. unfold DiceBag.roll, bag_lo, bag_hi. split.
  - rewrite (sum_rolls_raw lo_raw); [|done| |done].
    + eexists. do 2 f_equal. rewrite Z.add_0_l. f_equal.
      apply map_ext_Forall. eapply Forall_impl; [exact H|].
      intros item [Hs Hn]. unfold item_lo, lo_raw, sign.
      destruct (DiceBagItem.subtracted item); [rewrite Z2N.id by lia|]; lia.
    + eapply Forall_impl; [exact H|]. intros item [Hs Hn]. unfold lo_raw.
      destruct (DiceBagItem.subtracted item); [rewrite Z2N.id by lia|]; lia.
  - rewrite (sum_rolls_raw hi_raw); [|done| |done].
    + eexists. do 2 f_equal. rewrite Z.add_0_l. f_equal.
      apply map_ext_Forall. eapply Forall_impl; [exact H|].
      intros item [Hs Hn]. unfold item_hi, hi_raw, sign.
      destruct (DiceBagItem.subtracted item); [|rewrite Z2N.id by lia]; lia.
    + eapply Forall_impl; [exact H|]. intros item [Hs Hn]. unfold hi_raw.
      destruct (DiceBagItem.subtracted item); [|rewrite Z2N.id by lia]; lia.
Qed.

Lemma roll_bounds_attained_witness :
  (exists r',
      DiceBag.roll (bag_of [(2, 10, 6, false); (2, 4, 2, true)])
        (Random.mk
           (raw_at lo_raw
              (DiceBag._bag (bag_of [(2, 10, 6, false); (2, 4, 2, true)]))) 0)
      = Return (bag_lo (bag_of [(2, 10, 6, false); (2, 4, 2, true)]), r')) /\
  (exists r',
      DiceBag.roll (bag_of [(2, 10, 6, false); (2, 4, 2, true)])
        (Random.mk
           (raw_at hi_raw
              (DiceBag._bag (bag_of [(2, 10, 6, false); (2, 4, 2, true)]))) 0)
      = Return (bag_hi (bag_of [(2, 10, 6, false); (2, 4, 2, true)]), r')).
Proof.
  apply (roll_bounds_attained (bag_of [(2, 10, 6, false); (2, 4, 2, true)])).
  constructor; [split; simpl; lia|].
  constructor; [split; simpl; lia|constructor].
Defined.

(** * Whitespace before a formula *)

Section LeadingWhitespace.

Context (W t : string).
Hypothesis HW : ws_count W = String.length W.

Lemma lex_leading : forall off tok k,
  lex off t = Return (tok, k) -> Token.type tok <> EOF ->
  lex off (W +:+ t) = Return (tok, (String.length W + k)%nat).
Proof.
  clear -HW t. induction W as [|a W' IH]; intros off tok k H Hne.
  - by rewrite app_empty_l.
  - apply all_whitespace_cons in HW as [Ha HW'].
    rewrite app_cons, lex_space; [|done|].
    + by rewrite (IH HW' (off + 1)%nat tok k (lex_off _ _ _ _ H) Hne).
    + intros E. destruct W'; [|done]. rewrite app_empty_l in E. subst t.
      injection H as <- _. done.
Qed.

Lemma lex_leading_inv : forall off tok k',
  lex off (W +:+ t) = Return (tok, k') -> Token.type tok <> EOF ->
  exists k, k' = (String.length W + k)%nat /\ lex off t = Return (tok, k).
Proof.
  clear -HW t. induction W as [|a W' IH]; intros off tok k' H Hne.
  - rewrite app_empty_l in H. by exists k'.
  - apply all_whitespace_cons in HW as [Ha HW'].
    rewrite app_cons in H.
    destruct (decide (W' +:+ t = "")) as [E|E].
    { exfalso. revert H. rewrite E. unfold lex. simpl. by rewrite Ha. }
    rewrite lex_space in H by done.
    destruct (lex (off + 1) (W' +:+ t)) as [[tok1 k1]| |] eqn:E1; [|done..].
    rewrite bind_Return in H. injection H as <- <-.
    destruct (IH HW' _ _ _ E1 Hne) as (k & -> & Hk).
    exists k. split; [done|]. by apply (lex_off (off + 1)).
Qed.

Lemma sdrop_after_leading p :
  sdrop (String.length W + p) (W +:+ t) = sdrop p t.
Proof. by rewrite <- sdrop_sdrop, sdrop_length_app. Qed.

Lemma lexes_shift toks : forall p pe,
  lexes t p toks pe ->
  lexes (W +:+ t) (String.length W + p) toks (String.length W + pe).
Proof.
  clear HW. induction toks as [|tok toks IH]; intros p pe H;
    inversion H as [|? ? p1 ? ? Hg Hl]; subst; [constructor|].
  apply get_next_token_inv in Hg as (k & Hk & Hp).
  apply (f_equal Lexer._pos) in Hp. simpl in Hp. subst p1.
  apply (lexes_cons _ _ _ (String.length W + (p + k))%nat); [|by apply IH].
  rewrite get_next_token_at, sdrop_after_leading.
  rewrite (lex_off _ (String.length W + p) _ _ Hk), bind_Return.
  by rewrite Nat.add_assoc.
Qed.

Lemma lexes_unshift toks : forall p qe,
  lexes (W +:+ t) (String.length W + p) toks qe ->
  exists pe, qe = (String.length W + pe)%nat /\ lexes t p toks pe.
Proof.
  clear HW. induction toks as [|tok toks IH]; intros p qe H;
    inversion H as [|? ? q1 ? ? Hg Hl]; subst.
  { exists p. split; [done|constructor]. }
  apply get_next_token_inv in Hg as (k & Hk & Hp).
  apply (f_equal Lexer._pos) in Hp. simpl in Hp. subst q1.
  rewrite sdrop_after_leading in Hk.
  rewrite <- Nat.add_assoc in Hl. destruct (IH _ _ Hl) as (pe & -> & Hl').
  exists pe. split; [done|].
  apply (lexes_cons _ _ _ (p + k)%nat); [|done].
  by rewrite get_next_token_at, (lex_off _ p _ _ Hk).
Qed.

Lemma spells_leading f : spells t f <-> spells (W +:+ t) f.
Proof.
  pose proof (formula_tokens_not_EOF f) as HF.
  pose proof (formula_tokens_not_nil f) as HN.
  unfold spells.
  destruct (formula_tokens f) as [|first tl] eqn:E; [done|].
  inversion HF as [|? ? Hne _]; subst. simpl.
  split; intros (stop & pe & Hl & Hop & Hd).
  - inversion Hl as [|? ? p1 ? ? Hg Hl1]; subst.
    apply get_next_token_inv in Hg as (k & Hk & Hp).
    apply (f_equal Lexer._pos) in Hp. simpl in Hp. subst p1.
    exists stop, (String.length W + pe)%nat. split; [|done].
    apply (lexes_cons _ _ _ (String.length W + k)%nat);
      [|by apply lexes_shift].
    rewrite get_next_token_at. simpl sdrop.
    by rewrite (lex_leading _ _ _ Hk Hne).
  - inversion Hl as [|? ? q1 ? ? Hg Hl1]; subst.
    apply get_next_token_inv in Hg as (k' & Hk' & Hp).
    apply (f_equal Lexer._pos) in Hp. simpl in Hp. subst q1.
    simpl sdrop in Hk'.
    destruct (lex_leading_inv _ _ _ Hk' Hne) as (k & -> & Hk).
    destruct (lexes_unshift _ _ _ Hl1) as (pe' & -> & Hl').
    exists stop, pe'. split; [|done].
    apply (lexes_cons _ _ _ k); [|done].
    rewrite get_next_token_at. simpl sdrop. by rewrite Hk.
Qed.

End LeadingWhitespace.

(** X17.  Whitespace before a text is ignored by a parse that returns:
    [from_str] returns a bag for the text with a run of whitespace in
    front exactly when it returns that bag for the text itself. *)
Theorem leading_whitespace_ignored (W t : string) (bag : DiceBag.t) :
  ws_count W = String.length W ->
  from_str (W +:+ t) = Return bag <-> from_str t = Return bag.
Proof.
  intros HW. split; intros H.
  - pose proof (from_str_sat (W +:+ t)) as Hs. rewrite H in Hs.
    destruct Hs as (f & Hsp & ->). apply (spells_leading W t HW) in Hsp.
    destruct Hsp as (stop & pe & Hl & Hop & Hd). by eapply from_str_run.
  - pose proof (from_str_sat t) as Hs. rewrite H in Hs.
    destruct Hs as (f & Hsp & ->). apply (spells_leading W t HW) in Hsp.
    destruct Hsp as (stop & pe & Hl & Hop & Hd). by eapply from_str_run.
Qed.

Lemma leading_whitespace_ignored_witness :
  from_str ("   " +:+ "d20+5-1d4")
  = Return (bag_of [(1, 20, 5, false); (1, 4, 0, true)]) <->
  from_str "d20+5-1d4" = Return (bag_of [(1, 20, 5, false); (1, 4, 0, true)]).
Proof. apply (leading_whitespace_ignored "   " "d20+5-1d4"). reflexivity. Defined.

(** * Texts that are rejected for a token *)

Section UnexpectedTokens.

Context (t : string).

Lemma init_at :
  t <> "" -> Lexer.init t = Return (lexer_at t 0).
Proof. by destruct t. Qed.

Lemma first_token_not_empty tok p :
  Lexer.get_next_token (lexer_at t 0) = Return (tok, lexer_at t p) ->
  Token.type tok <> EOF -> t <> "".
Proof. intros Hg Hne ->. by vm_compute in Hg; injection Hg as <- _. Qed.

Lemma die_no_delim p tok :
  Token.type tok <> INTEGER -> Token.type tok <> DELIM ->
  Parser.die (Parser.mk (lexer_at t p) tok)
  = Raise (UnexpectedToken DELIM (Token.type tok)).
Proof.
  intros Hi Hd. unfold Parser.die. simpl Parser.current_token.
  destruct (decide _) as [|_]; [done|]. rewrite bind_Return. cbv beta iota.
  unfold Parser.eat. simpl Parser.current_token.
  by destruct (decide _) as [E|_]; [by destruct Hd|].
Qed.

Lemma die_integer_no_delim p n tok p1 :
  Lexer.get_next_token (lexer_at t p) = Return (tok, lexer_at t p1) ->
  Token.type tok <> DELIM ->
  Parser.die (Parser.mk (lexer_at t p) (tINT n))
  = Raise (UnexpectedToken DELIM (Token.type tok)).
Proof.
  intros Hg Hd. unfold Parser.die. simpl Parser.current_token.
  simpl Token.type. destruct (decide _) as [_|]; [|done].
  rewrite (eat_at _ _ _ _ _ _ Hg), bind_Return by reflexivity.
  simpl assert_int. rewrite !bind_Return. cbv beta iota.
  unfold Parser.eat. simpl Parser.current_token.
  by destruct (decide _) as [E|_]; [by destruct Hd|].
Qed.

Lemma die_tail_no_sides num_dice p tok p1 :
  Lexer.get_next_token (lexer_at t p) = Return (tok, lexer_at t p1) ->
  Token.type tok <> INTEGER ->
  (let* p2 := Parser.eat (Parser.mk (lexer_at t p) tDELIM) DELIM in
   let token := Parser.current_token p2 in
   let* p3 := Parser.eat p2 INTEGER in
   let* sides := assert_int (Token.value token) in
   let* (modifier, p4) :=
     Parser.die_loop (String.length (Lexer.text (Parser.lexer p3))) p3 0 in
   Return (Die.mk sides num_dice modifier, p4))
  = Raise (UnexpectedToken INTEGER (Token.type tok)).
Proof.
  intros Hg Hi.
  rewrite (eat_at _ _ _ _ _ _ Hg), bind_Return by reflexivity.
  cbv zeta. unfold Parser.eat. simpl Parser.current_token.
  by destruct (decide _) as [E|_]; [by destruct Hi|].
Qed.

End UnexpectedTokens.

(** X18.  Texts that are rejected with [UnexpectedToken] at their first
    die.  A text that is not empty and whose first token is neither an
    integer nor a delimiter (a sign, say: there is no unary minus) raises
    with [DELIM] expected; so does a text that starts with an integer not
    followed by a delimiter (two numbers parted by whitespace, say).  A
    text whose delimiter, after an integer or not, is not followed by an
    integer raises with [INTEGER] expected.  The type found is reported. *)
Theorem first_die_rejections (t : string) :
  (forall tok p,
      t <> "" -> lexes t O [tok] p ->
      Token.type tok <> INTEGER -> Token.type tok <> DELIM ->
      from_str t = Raise (UnexpectedToken DELIM (Token.type tok))) /\
  (forall n tok p,
      lexes t O [tINT n; tok] p -> Token.type tok <> DELIM ->
      from_str t = Raise (UnexpectedToken DELIM (Token.type tok))) /\
  (forall num tok p,
      lexes t O (match num with Some n => [tINT n] | None => [] end
                 ++ [tDELIM; tok]) p ->
      Token.type tok <> INTEGER ->
      from_str t = Raise (UnexpectedToken INTEGER (Token.type tok))).
Proof.
  split; [|split].
  - intros tok p Hne Hl Hi Hd.
    inversion Hl as [|? ? p1 ? ? Hg1 Hl1]; subst.
    unfold from_str, Parser.init.
    rewrite init_at, bind_Return, Hg1, !bind_Return by done. cbv beta iota.
    unfold Parser.dice. cbv zeta. by rewrite die_no_delim.
  - intros n tok p Hl Hd.
    inversion Hl as [|? ? p1 ? ? Hg1 Hl1]; subst.
    inversion Hl1 as [|? ? p2 ? ? Hg2 Hl2]; subst.
    unfold from_str, Parser.init.
    rewrite init_at by by eapply first_token_not_empty.
    rewrite bind_Return, Hg1, !bind_Return. cbv beta iota.
    unfold Parser.dice. cbv zeta.
    by rewrite (die_integer_no_delim _ _ _ _ _ Hg2).
  - intros num tok p Hl Hi. unfold from_str, Parser.init.
    destruct num as [n|]; simpl in Hl;
      inversion Hl as [|? ? p1 ? ? Hg1 Hl1]; subst;
      inversion Hl1 as [|? ? p2 ? ? Hg2 Hl2]; subst;
      (rewrite init_at by by eapply first_token_not_empty);
      rewrite bind_Return, Hg1, !bind_Return; cbv beta iota;
      unfold Parser.dice, Parser.die; cbv zeta;
      simpl Parser.current_token; simpl Token.type;
      (destruct (decide _) as [?|?]; [try done|try done]).
    + inversion Hl2 as [|? ? p3 ? ? Hg3 Hl3]; subst.
      rewrite (eat_at _ _ _ _ _ _ Hg2), bind_Return by reflexivity.
      simpl assert_int. rewrite !bind_Return. cbv beta iota.
      by rewrite (die_tail_no_sides _ _ _ _ _ Hg3).
    + rewrite bind_Return. cbv beta iota.
      by rewrite (die_tail_no_sides _ _ _ _ _ Hg2).
Qed.

Lemma first_die_rejections_witness :
  from_str "-d6" = Raise (UnexpectedToken DELIM MINUS) /\
  from_str "1 2d6" = Raise (UnexpectedToken DELIM INTEGER) /\
  from_str "2d+1" = Raise (UnexpectedToken INTEGER PLUS).
Proof.
  split; [|split].
  - apply (proj1 (first_die_rejections "-d6") tMINUS 1%nat);
      [discriminate| |discriminate|discriminate].
    apply (lexes_cons _ _ _ 1%nat); [reflexivity|apply lexes_nil].
  - apply (proj1 (proj2 (first_die_rejections "1 2d6")) 1 (tINT 2) 3%nat);
      [|discriminate].
    apply (lexes_cons _ _ _ 1%nat); [reflexivity|].
    apply (lexes_cons _ _ _ 3%nat); [reflexivity|apply lexes_nil].
  - apply (proj2 (proj2 (first_die_rejections "2d+1")) (Some 2) tPLUS 3%nat);
      [|discriminate].
    apply (lexes_cons _ _ _ 1%nat); [reflexivity|].
    apply (lexes_cons _ _ _ 2%nat); [reflexivity|].
    apply (lexes_cons _ _ _ 3%nat); [reflexivity|apply lexes_nil].
Defined.

Section ParsedNumbers.

Lemma digits_val_bound s : forall acc,
  0 <= acc ->
  digits_val acc s < (acc + 1) * 10 ^ Z.of_nat (digit_count s).
Proof.
  induction s as [|c s IH]; intros acc H; simpl digits_val;
    simpl digit_count; [simpl; lia|].
  destruct (isdecimal c) eqn:Hc; [|simpl; lia].
  assert (0 <= digit_value c <= 9) as Hd.
  { unfold isdecimal in Hc. unfold digit_value.
    apply andb_true_iff in Hc as [H1 H2].
    apply N.leb_le in H1. apply N.leb_le in H2. lia. }
  specialize (IH (10 * acc + digit_value c)).
  rewrite Nat2Z.inj_succ, Z.pow_succ_r by lia.
  assert (0 < 10 ^ Z.of_nat (digit_count s)) by (apply Z.pow_pos_nonneg; lia).
  nia.
Qed.

Lemma lex_fits off s tok k : lex off s = Return (tok, k) -> token_fits tok.
Proof.
  unfold lex. destruct s as [|c0 s0]; [by intros [= <- <-]|].
  destruct (sdrop _ _) as [|c s]; [done|].
  destruct (isdecimal c).
  { destruct (Z.ltb_spec max_str_digits
                (Z.of_nat (digit_count (String c s)))) as [|Hlim]; [done|].
    intros [= <- <-] n [= <-].
    split; [by apply (digits_val_nonneg (String c s))|].
    pose proof (digits_val_nonneg (String c s) 0) as Hnn.
    pose proof (digits_val_bound (String c s) 0) as Hb.
    unfold fits, digit_limit. rewrite Z.abs_eq by (apply Hnn; lia).
    eapply Z.lt_le_trans; [apply Hb; lia|].
    rewrite Z.mul_1_l. apply Z.pow_le_mono_r; lia. }
  repeat (case_match; [by intros [= <- <-]|]). done.
Qed.

Lemma lexes_fits t toks : forall p pe,
  lexes t p toks pe -> Forall token_fits toks.
Proof.
  induction toks as [|tok toks IH]; intros p pe H; [constructor|].
  inversion H as [|? ? p1 ? ? Hg Hl]; subst.
  apply get_next_token_inv in Hg as (k & Hk & _).
  constructor; [by eapply lex_fits|by eapply IH].
Qed.

Lemma term_counts_fit tm :
  Forall token_fits (term_tokens tm) ->
  fits (Die.sides (term_die tm)) /\ fits (Die.num_dice (term_die tm)).
Proof.
  unfold term_tokens, term_die. simpl. intros H.
  apply Forall_app in H as [Hnum H].
  apply Forall_cons in H as [_ H]. apply Forall_cons in H as [Hs _].
  split; [by apply (Hs _ eq_refl)|].
  destruct (t_num tm) as [k|]; simpl.
  - apply Forall_cons in Hnum as [Hk _]. by apply (Hk _ eq_refl).
  - fits_small.
Qed.

Lemma rest_counts_fit rest :
  Forall token_fits (rest_tokens rest) ->
  Forall (fun item => fits (Die.sides (DiceBagItem.die item)) /\
                      fits (Die.num_dice (DiceBagItem.die item)))
    (rest_items rest).
Proof.
  induction rest as [|[minus tm] rest IH]; simpl; intros H; [constructor|].
  apply Forall_cons in H as [_ H]. apply Forall_app in H as [Htm H].
  constructor; [by apply term_counts_fit|by apply IH].
Qed.

(** The sides and the numbers of dice of a parsed bag are numbers that
    [str] converts: each was read by [int]. *)
Lemma spells_counts_fit t f :
  spells t f ->
  Forall (fun item => fits (Die.sides (DiceBagItem.die item)) /\
                      fits (Die.num_dice (DiceBagItem.die item)))
    (DiceBag._bag (formula_bag f)).
Proof.
  intros (stop & pe & Hl & _). apply lexes_fits in Hl.
  apply Forall_app in Hl as [Hl _]. unfold formula_tokens in Hl.
  apply Forall_app in Hl as [H1 H2]. unfold formula_bag. simpl.
  constructor; [by apply term_counts_fit|by apply rest_counts_fit].
Qed.

End ParsedNumbers.

(** X19.  The rendering of a parsed bag is a formula for the same bag:
    if [from_str] returns a bag for a text, and every modifier of the bag
    has at most 4300 decimal digits, then [str] of the bag returns a text
    and [from_str] of that text returns the bag again.  So parsing,
    rendering and parsing again changes nothing.  The sides and numbers
    of dice are no condition: they were read by [int].  A modifier is the
    sum of its clauses, and when one has more digits [str] of the bag
    raises [DigitLimit]. *)
Theorem parse_render_parse (t : string) (B : DiceBag.t) :
  from_str t = Return B ->
  (Forall modifier_fits (DiceBag._bag B) ->
   exists s, DiceBag.str B = Return s /\ from_str s = Return B) /\
  (~ Forall modifier_fits (DiceBag._bag B) ->
   DiceBag.str B = Raise DigitLimit).
Proof.
  intros H. pose proof (proj2 (safe_from_str t) B H) as Hn.
  pose proof (from_str_sat t) as Hs. rewrite H in Hs.
  destruct Hs as (f & Hsp & ->). apply spells_counts_fit in Hsp.
  split.
  - intros Hm.
    assert (Forall printable (DiceBag._bag (formula_bag f))) as Hp.
    { apply Forall_forall. intros item Hin.
      rewrite Forall_forall in Hsp, Hm.
      destruct (Hsp _ Hin) as [Fs Fn]. specialize (Hm _ Hin).
      by split; [|split]. }
    unfold formula_bag in *. simpl DiceBag._bag in *.
    eexists. split; [by apply DiceBag_str_text|].
    pose proof (lexes_DiceBag_str_signed _ _ Hn Hp) as Hl.
    rewrite (from_str_run _ _ tEOF _ Hl); [|done|done].
    unfold formula_bag. simpl fst. simpl snd.
    by rewrite term_die_rendered_term, rest_items_rendered_rest.
  - intros Hm. apply DiceBag_str_too_long. intros Hp. apply Hm.
    eapply Forall_impl; [exact Hp|]. by intros item (_ & _ & Fm).
Qed.

Lemma parse_render_parse_witness :
  exists s,
    DiceBag.str (bag_of [(2, 10, 6, false); (2, 4, 2, true)]) = Return s /\
    from_str s = Return (bag_of [(2, 10, 6, false); (2, 4, 2, true)]).
Proof.
  apply (proj1 (parse_render_parse "2d10-1+7-2d4+1-1+2"
                  (bag_of [(2, 10, 6, false); (2, 4, 2, true)]) eq_refl)).
  constructor; [unfold modifier_fits; simpl; fits_small|].
  constructor; [unfold modifier_fits; simpl; fits_small|constructor].
Defined.

(** * A formula followed by an operator and no die *)

Section DanglingOperator.

Context (t : string).

(** What follows a die before a closing operator: an operator. *)
Lemma rest_then_operator rest m :
  exists m' more,
    rest_tokens rest ++ [op_token m] = op_token m' :: more /\
    (rest = [] /\ m' = m /\ more = [] \/
     exists tm rest',
       rest = (m', tm) :: rest' /\
       more = term_tokens tm ++ rest_tokens rest' ++ [op_token m]).
Proof.
  destruct rest as [|[m' tm] rest]; simpl.
  - eauto 8.
  - eexists _, _. split; [done|]. right. eexists _, _.
    by rewrite <- app_assoc.
Qed.

(** A die before an operator that the loop of [die] does not take. *)
Lemma die_before_operator tm rest m ps pm :
  sees t ps (term_tokens tm ++ rest_tokens rest ++ [op_token m]) pm ->
  stops (Parser.mk (lexer_at t pm) (op_token m)) ->
  exists pm' m',
    Parser.die ps
    = Return (term_die tm, Parser.mk (lexer_at t pm') (op_token m')) /\
    sees t (Parser.mk (lexer_at t pm') (op_token m'))
      (rest_tokens rest ++ [op_token m]) pm.
Proof.
  intros Hs Hstop.
  destruct (rest_then_operator rest m) as (m' & more & Heq & Hcases).
  rewrite Heq in Hs |- *.
  pose proof (term_tokens_length tm) as Hlen.
  destruct (term_tokens tm) as [|first tl] eqn:Etm; [simpl in Hlen; lia|].
  simpl in Hs. destruct Hs as (p & -> & Hl).
  change (op_token m' :: more) with ([op_token m'] ++ more) in Hl.
  rewrite app_assoc in Hl. apply lexes_app_inv in Hl as (pm' & Hl1 & Hl2).
  exists pm', m'. split; [|by exists pm'].
  apply die_run.
  - rewrite Etm. by exists p.
  - destruct Hcases as [(-> & -> & ->)|(tm' & rest' & -> & ->)].
    + by inversion Hl2; subst.
    + by eapply stops_before_term.
  - intros _. by destruct m'.
Qed.

Lemma dice_loop_then_raise rest : forall ps bag fuel m pm first p1 e,
  sees t ps (rest_tokens rest ++ [op_token m]) pm ->
  Lexer.get_next_token (lexer_at t pm) = Return (first, lexer_at t p1) ->
  stops (Parser.mk (lexer_at t pm) (op_token m)) ->
  Parser.die (Parser.mk (lexer_at t p1) first) = Raise e ->
  (length rest < fuel)%nat ->
  Parser.dice_loop fuel ps bag = Raise e.
Proof.
  induction rest as [|[minus tm] rest IH];
    intros ps bag fuel m pm first p1 e Hs Hg Hstop Hdie Hf;
    (destruct fuel as [|fuel]; [simpl in Hf; lia|]).
  - destruct Hs as (p & -> & Hl). inversion Hl; subst.
    rewrite dice_loop_unfold. simpl Parser.current_token.
    rewrite op_token_operator.
    destruct m; simpl Token.type;
      (destruct (decide _) as [?|?]; [try done|try done]);
      rewrite (eat_at _ _ _ _ _ _ Hg), bind_Return by reflexivity;
      by rewrite Hdie.
  - simpl in Hs. destruct Hs as (p & -> & Hl).
    rewrite <- app_assoc in Hl.
    pose proof (term_tokens_length tm) as Hlen.
    destruct (term_tokens tm) as [|first' tl] eqn:Etm; [simpl in Hlen; lia|].
    simpl in Hl. inversion Hl as [|? ? q1 ? ? Hg1 Hl1]; subst.
    destruct (die_before_operator tm rest m
                (Parser.mk (lexer_at t q1) first') pm)
      as (pm' & m' & Hd & Hs'); [rewrite Etm; by exists q1|done|].
    rewrite dice_loop_unfold. simpl Parser.current_token.
    rewrite op_token_operator.
    destruct minus; simpl Token.type;
      (destruct (decide _) as [?|?]; [try done|try done]);
      rewrite (eat_at _ _ _ _ _ _ Hg1), bind_Return by reflexivity;
      rewrite Hd, bind_Return; cbv beta iota;
      (apply (IH _ _ _ m pm first p1);
       [done|done|done|done|simpl in Hf; lia]).
Qed.

(** A formula, an operator that its last die does not take, and then a
    token at which [die] raises: the parse raises as that [die] does. *)
Lemma from_str_then_raise f m pm first p1 e :
  lexes t O (formula_tokens f ++ [op_token m]) pm ->
  Lexer.get_next_token (lexer_at t pm) = Return (first, lexer_at t p1) ->
  stops (Parser.mk (lexer_at t pm) (op_token m)) ->
  Parser.die (Parser.mk (lexer_at t p1) first) = Raise e ->
  from_str t = Raise e.
Proof.
  intros Hl Hg Hstop Hdie. unfold from_str, Parser.init.
  destruct f as [tm rest]. unfold formula_tokens in Hl. simpl in Hl.
  rewrite <- app_assoc in Hl.
  pose proof (term_tokens_length tm) as Hlen.
  pose proof (term_tokens_not_EOF tm) as HF.
  destruct (term_tokens tm) as [|first0 tl] eqn:Etm; [simpl in Hlen; lia|].
  simpl in Hl. inversion Hl as [|? ? q1 ? ? Hg0 Hl0]; subst.
  inversion HF as [|? ? Hne HF']; subst.
  rewrite init_at by by eapply first_token_not_empty.
  rewrite bind_Return, Hg0, !bind_Return. cbv beta iota.
  destruct (die_before_operator tm rest m
              (Parser.mk (lexer_at t q1) first0) pm)
    as (pm' & m' & Hd & Hs'); [rewrite Etm; by exists q1|done|].
  unfold Parser.dice. cbv zeta. rewrite Hd, bind_Return. cbv beta iota.
  simpl Parser.lexer. rewrite text_lexer_at.
  rewrite (dice_loop_then_raise rest _ _ _ m pm first p1 e); [done..|].
  pose proof (lexes_length t q1 (tl ++ rest_tokens rest ++ [op_token m]) []
                pm) as Hfuel.
  rewrite app_nil_r in Hfuel.
  rewrite !length_app in Hfuel. simpl in Hfuel, Hlen.
  pose proof (rest_tokens_length rest).
  assert (length tl + (length (rest_tokens rest) + 1)
          <= String.length t - q1)%nat; [|lia].
  apply Hfuel; [done|]. apply Forall_app. split; [done|].
  apply Forall_app. split; [apply rest_tokens_not_EOF|].
  constructor; [by destruct m|constructor].
Qed.

End DanglingOperator.

(** X20.  Texts that are rejected at a later die: after a formula and an
    operator, a token that is neither an integer nor a delimiter (the end
    of the text, say, or a second operator) raises [UnexpectedToken] with
    [DELIM] expected; and a delimiter, after an integer or not, that is not
    followed by an integer raises with [INTEGER] expected. *)
Theorem later_die_rejections (t : string) (f : formula) (m : bool) :
  (forall tok p,
      lexes t O (formula_tokens f ++ [op_token m; tok]) p ->
      Token.type tok <> INTEGER -> Token.type tok <> DELIM ->
      from_str t = Raise (UnexpectedToken DELIM (Token.type tok))) /\
  (forall num tok p,
      lexes t O (formula_tokens f ++ [op_token m]
                 ++ match num with Some n => [tINT n] | None => [] end
                 ++ [tDELIM; tok]) p ->
      Token.type tok <> INTEGER ->
      from_str t = Raise (UnexpectedToken INTEGER (Token.type tok))).
Proof.
  split.
  - intros tok p Hl Hi Hd.
    change [op_token m; tok] with ([op_token m] ++ [tok]) in Hl.
    rewrite app_assoc in Hl. apply lexes_app_inv in Hl as (pm & Hl1 & Hl2).
    inversion Hl2 as [|? ? p1 ? ? Hg Hl3]; subst.
    apply (from_str_then_raise t f m pm tok p1); [done|done| |].
    + right. by apply (modifier_follows_other _ _ _ _ _ Hg).
    + by apply die_no_delim.
  - intros num tok p Hl Hi.
    rewrite app_assoc in Hl. apply lexes_app_inv in Hl as (pm & Hl1 & Hl2).
    destruct num as [n|]; simpl in Hl2;
      inversion Hl2 as [|? ? p1 ? ? Hg1 Hl3]; subst;
      inversion Hl3 as [|? ? p2 ? ? Hg2 Hl4]; subst.
    + inversion Hl4 as [|? ? p3 ? ? Hg3 Hl5]; subst.
      apply (from_str_then_raise t f m pm (tINT n) p1); [done|done| |].
      * right. by rewrite (modifier_follows_int _ _ _ _ _ _ _ Hg1 Hg2).
      * unfold Parser.die. simpl Parser.current_token. simpl Token.type.
        destruct (decide _) as [_|]; [|done].
        rewrite (eat_at _ _ _ _ _ _ Hg2), bind_Return by reflexivity.
        simpl assert_int. rewrite !bind_Return. cbv beta iota.
        by rewrite (die_tail_no_sides _ _ _ _ _ Hg3).
    + apply (from_str_then_raise t f m pm tDELIM p1); [done|done| |].
      * right. by apply (modifier_follows_other _ _ _ _ _ Hg1).
      * unfold Parser.die. simpl Parser.current_token. simpl Token.type.
        destruct (decide _) as [|_]; [done|].
        rewrite bind_Return. cbv beta iota.
        by rewrite (die_tail_no_sides _ _ _ _ _ Hg2).
Qed.

Lemma later_die_rejections_witness :
  from_str "2d6+" = Raise (UnexpectedToken DELIM EOF) /\
  from_str "2d6-3d" = Raise (UnexpectedToken INTEGER EOF).
Proof.
  split.
  - apply (proj1 (later_die_rejections "2d6+" (mkTerm (Some 2) 6 [], []) false)
             tEOF 4%nat); [|discriminate|discriminate].
    apply (lexes_cons _ _ _ 1%nat); [reflexivity|].
    apply (lexes_cons _ _ _ 2%nat); [reflexivity|].
    apply (lexes_cons _ _ _ 3%nat); [reflexivity|].
    apply (lexes_cons _ _ _ 4%nat); [reflexivity|].
    apply (lexes_cons _ _ _ 4%nat); [reflexivity|apply lexes_nil].
  - apply (proj2 (later_die_rejections "2d6-3d" (mkTerm (Some 2) 6 [], []) true)
             (Some 3) tEOF 6%nat); [|discriminate].
    apply (lexes_cons _ _ _ 1%nat); [reflexivity|].
    apply (lexes_cons _ _ _ 2%nat); [reflexivity|].
    apply (lexes_cons _ _ _ 3%nat); [reflexivity|].
    apply (lexes_cons _ _ _ 4%nat); [reflexivity|].
    apply (lexes_cons _ _ _ 5%nat); [reflexivity|].
    apply (lexes_cons _ _ _ 6%nat); [reflexivity|].
    apply (lexes_cons _ _ _ 6%nat); [reflexivity|apply lexes_nil].
Defined.
